(** * PhyloWGS input parser: a shallow embedding of
      [parser/create_phylowgs_inputs.py] and the properties of its
      imputation, CNV reconciliation, CNV merging and subsampling code.

    Conventions of the embedding.
    - Where only the order of numbers matters (bounds, invariants),
      Python floats are idealised: exact rationals ([Q]) in the CNV
      arithmetic of module [Cnv], real numbers ([R]) in the
      geometric-mean imputation of module [Impute]. Rounding error,
      infinities and overflow are outside these two models; a division
      whose divisor is zero is reported as an error.
    - Where the value of a float matters, the arithmetic is IEEE 754
      binary64 with rounding to nearest, ties to even, as Python and
      NumPy perform it (modules [F64], [Cnv64] and [Impute64]).
    - A raised exception or a failed [assert] is an error value
      ([None], or [Fatal] in the caller adapters).
    - A Python dict that is only iterated ([cnvs.items()]) is an
      association list in iteration order; a [defaultdict(list)] lookup
      of an absent key gives the empty list.
    - [log(...)] only prints and is left out. *)

From Stdlib Require Import ZArith QArith Qround Reals String Ascii List Bool.
From Stdlib Require Import Permutation Sorted Psatz.
From Stdlib Require SpecFloat.
Import ListNotations.

Set Implicit Arguments.

(** ** The option (exception) monad *)

Module Exc.

Definition bind {A B : Type} (m : option A) (k : A -> option B) : option B :=
  match m with
  | Some a => k a
  | None => None
  end.

Fixpoint mapM {A B : Type} (f : A -> option B) (l : list A) : option (list B) :=
  match l with
  | [] => Some []
  | x :: t =>
      match f x with
      | Some y =>
          match mapM f t with
          | Some ys => Some (y :: ys)
          | None => None
          end
      | None => None
      end
  end.

End Exc.

Notation "x <- m ;; k" := (Exc.bind m (fun x => k))
  (at level 61, m at next level, right associativity).

(** ** Python numerics on exact rationals *)

Module PyNum.

(** [int(x)] on a float: truncation toward zero. *)
Definition py_int (x : Q) : Z :=
  if Qle_bool 0 x then Qfloor x else Qceiling x.

(** Python 2 [round(x)]: to the nearest integer, halves away from zero. *)
Definition py_round (x : Q) : Z :=
  if Qle_bool 0 x then Qfloor (x + (1 # 2)) else Qceiling (x - (1 # 2)).

(** Python's [min(a, b)] returns [b] only when [b < a]. *)
Definition py_min (a b : Q) : Q := if negb (Qle_bool a b) then b else a.

End PyNum.

(** ** Strings *)

Module PyStr.

Definition lower_ascii (c : ascii) : ascii :=
  let n := nat_of_ascii c in
  if andb (Nat.leb 65 n) (Nat.leb n 90) then ascii_of_nat (n + 32) else c.

Fixpoint lower (s : string) : string :=
  match s with
  | EmptyString => EmptyString
  | String c t => String (lower_ascii c) (lower t)
  end.

End PyStr.

(** ** Variant identities and formatted variants *)

Module Variant.
Local Open Scope Q_scope.

(** The [VariantId] named tuple of [parse_variants]. *)
Record VariantId := mkVariantId {
  CHROM : string;
  POS : Z
}.

Definition digit_of_ascii (c : ascii) : option Z :=
  let n := nat_of_ascii c in
  if andb (Nat.leb 48 n) (Nat.leb n 57) then Some (Z.of_nat (n - 48)) else None.

Fixpoint digits_value (acc : Z) (s : string) : option Z :=
  match s with
  | EmptyString => Some acc
  | String c t =>
      match digit_of_ascii c with
      | Some d => digits_value (10 * acc + d) t
      | None => None
      end
  end.

(** The characters that [str.strip] and [int] treat as blanks: the
    space and the control characters 9 to 13. *)
Definition is_space (c : ascii) : bool :=
  let n := nat_of_ascii c in
  orb (Nat.eqb n 32) (andb (Nat.leb 9 n) (Nat.leb n 13)).

Fixpoint lstrip (s : string) : string :=
  match s with
  | String c t => if is_space c then lstrip t else s
  | EmptyString => EmptyString
  end.

Fixpoint rstrip (s : string) : string :=
  match s with
  | EmptyString => EmptyString
  | String c t =>
      match rstrip t with
      | EmptyString => if is_space c then EmptyString else String c EmptyString
      | t' => String c t'
      end
  end.

(** One or more decimal digits. *)
Definition unsigned_of_string (s : string) : option Z :=
  match s with
  | EmptyString => None
  | _ => digits_value 0 s
  end.

(** [int(s)] of Python 2 for a [str] in base 10: blanks around the
    number are skipped, one sign is accepted, blanks may follow the
    sign, and decimal digits follow; anything else is a
    [ValueError]. *)
Definition int_of_string (s : string) : option Z :=
  match rstrip (lstrip s) with
  | String "-" t => option_map Z.opp (unsigned_of_string (lstrip t))
  | String "+" t => unsigned_of_string (lstrip t)
  | t => unsigned_of_string t
  end.

(** [variant_key]. *)
Definition variant_key (var : VariantId) : option (Z * Z) :=
  if String.eqb (CHROM var) "x" then Some (100%Z, POS var)
  else if String.eqb (CHROM var) "y" then Some (101%Z, POS var)
  else
    match int_of_string (CHROM var) with
    | Some chrom => Some (chrom, POS var)
    | None => None
    end.

(** Python's order on the key tuples. *)
Definition key_leb (a b : Z * Z) : bool :=
  orb (Z.ltb (fst a) (fst b))
      (andb (Z.eqb (fst a) (fst b)) (Z.leb (snd a) (snd b))).

(** A stable ascending sort of values paired with their keys, as
    [list.sort(key = ...)]. *)
Fixpoint insert_by_key {A : Type} (x : (Z * Z) * A) (l : list ((Z * Z) * A))
    : list ((Z * Z) * A) :=
  match l with
  | [] => [x]
  | y :: t => if key_leb (fst x) (fst y) then x :: l else y :: insert_by_key x t
  end.

Definition sort_keyed {A : Type} (l : list ((Z * Z) * A)) : list ((Z * Z) * A) :=
  fold_right insert_by_key [] l.

(** The dict that [VariantFormatter.format_variants] yields; [ssm_id n]
    stands for ['s%s' % n] and [variant_name (c, p)] for
    ['%s_%s' % (c, p)]. *)
Record FormattedVariant := mkFVariant {
  ssm_id : nat;
  v_chrom : string;
  v_pos : Z;
  variant_name : string * Z;
  v_ref_reads : list Z;
  v_total_reads : list Z;
  expected_ref_freq : Q;
  expected_var_freq : Q
}.

Definition format_variant (counter : nat) (error_rate : Q) (variant : VariantId)
    (refs totals : list Z) : FormattedVariant :=
  {| ssm_id := counter;
     v_chrom := CHROM variant;
     v_pos := POS variant;
     variant_name := (CHROM variant, POS variant);
     v_ref_reads := refs;
     v_total_reads := totals;
     expected_ref_freq := 1 - error_rate;
     expected_var_freq :=
       if orb (String.eqb (CHROM variant) "x")
              (orb (String.eqb (CHROM variant) "y") (String.eqb (CHROM variant) "m"))
       then error_rate
       else (1 # 2) - error_rate |}.

(** [VariantFormatter.format_variants], started with [self._counter =
    counter]; the rows of the count matrices are passed along with each
    variant. *)
Fixpoint format_variants (counter : nat) (error_rate : Q)
    (variants : list (VariantId * list Z * list Z)) : list FormattedVariant :=
  match variants with
  | [] => []
  | (variant, refs, totals) :: t =>
      format_variant counter error_rate variant refs totals
      :: format_variants (S counter) error_rate t
  end.

End Variant.

(** ** CNV regions, cellularity and the CNV read-count formatter *)

Module Cnv.
Import PyNum Variant.
Local Open Scope Q_scope.

(** One row of the CNV file, as [CnvParser.parse] stores it under its
    chromosome. *)
Record CnvRegion := mkRegion {
  start : Z;
  end_ : Z;
  major_cn : Z;
  minor_cn : Z;
  cellular_prevalence : Q
}.

(** [cnvs]: chromosome name to regions, in [items()] order. *)
Definition region_map := list (string * list CnvRegion).

(** [find_cellularity]: the running maximum starts at 0. *)
Definition find_cellularity (cnvs : region_map) : Q :=
  fold_left
    (fun mx (kv : string * list CnvRegion) =>
       fold_left
         (fun mx cnr =>
            if negb (Qle_bool (cellular_prevalence cnr) mx)
            then cellular_prevalence cnr else mx)
         (snd kv) mx)
    cnvs 0.

(** [self._read_depth]: [_estimate_read_depth] returns the Python int 50
    when there are no variants and a float ([np.nanmean]) otherwise. *)
Inductive depth :=
| DInt (z : Z)
| DFloat (q : Q).

Definition depth_value (d : depth) : Q :=
  match d with
  | DInt z => inject_Z z
  | DFloat q => q
  end.

Record CnvFormatter := mkFormatter {
  cnv_confidence : Q;
  f_cellularity : Q;
  read_depth : depth;
  read_length : Z
}.

(** An overlapping variant: (ssm id, minor CN, major CN); the source
    keeps the two copy numbers as [str(...)]. *)
Definition overlap := (nat * Z * Z)%type.

(** The dict yielded by [_format_cnvs]; [cnv_id = Some n] stands for
    ['c%s' % n], [None] for a key not yet set. *)
Record FormattedCnv := mkFCnv {
  chrom : string;
  f_start : Z;
  f_end : Z;
  f_major_cn : Z;
  f_minor_cn : Z;
  f_prevalence : Q;
  ref_reads : Z;
  total_reads : Z;
  overlapping_variants : list overlap;
  cnv_id : option nat
}.

Section Formatter.
Variable self : CnvFormatter.

Definition _max_reads : Q := 1000000 * depth_value (read_depth self).

Definition _find_overlapping_variants (chrom : string) (cnv : CnvRegion)
    (variants : list FormattedVariant) : list nat :=
  map ssm_id
    (filter
       (fun v =>
          andb (String.eqb (PyStr.lower chrom) (PyStr.lower (v_chrom v)))
               (andb (Z.leb (start cnv) (v_pos v)) (Z.leb (v_pos v) (end_ cnv))))
       variants).

(** [_calc_ref_reads] in exact arithmetic: [cellular_prev] is a float,
    so [/ 2] is a true division; [int] truncates. The value the code
    computes, each float operation rounded, is that of
    [Cnv64._calc_ref_reads], which can be one below this one. *)
Definition _calc_ref_reads (cellular_prev : Q) (total_reads : Z) : Z :=
  let vaf := cellular_prev / 2 in
  py_int ((1 - vaf) * inject_Z total_reads).

(** [fn]: an int read depth makes the Python 2 division an integer
    (floor) division. A zero read length is an error. *)
Definition fragment_count (region_length : Z) : option Q :=
  if Z.eqb (read_length self) 0 then None
  else
    match read_depth self with
    | DInt z => Some (inject_Z ((z * region_length) / read_length self))
    | DFloat q => Some ((q * inject_Z region_length) / inject_Z (read_length self))
    end.

Definition _calc_total_reads (cellular_prev : Q) (locus_start locus_end new_cn : Z)
    : option Z :=
  let P := cellular_prev in
  let '(delta_cn, no_net_change) :=
    if Z.eqb new_cn 2 then (1, true) else (inject_Z (new_cn - 2), false) in
  let region_length := (locus_end - locus_start + 1)%Z in
  fn <- fragment_count region_length ;;
  let P := if Qeq_bool P 1 then 999 # 1000 else P in
  let den := 1 + (delta_cn * P) / 2 in
  if Qeq_bool den 0 then None
  else
    let d := ((delta_cn * delta_cn / 4) * (fn * P * (2 - P))) / den in
    let d := if no_net_change then d * (inject_Z (read_length self) / 1000) else d in
    Some (py_round (py_min d _max_reads)).

Definition _format_overlapping_variants (variants : list nat) (maj_cn min_cn : Z)
    : list overlap :=
  map (fun ssm_id => (ssm_id, min_cn, maj_cn)) variants.

Definition format_one (chrom : string) (variants : list FormattedVariant)
    (cnv : CnvRegion) : option FormattedCnv :=
  let overlapping := _find_overlapping_variants chrom cnv variants in
  total <- _calc_total_reads (cellular_prevalence cnv) (start cnv) (end_ cnv)
             (major_cn cnv + minor_cn cnv) ;;
  Some {| chrom := chrom;
          f_start := start cnv;
          f_end := end_ cnv;
          f_major_cn := major_cn cnv;
          f_minor_cn := minor_cn cnv;
          f_prevalence := cellular_prevalence cnv;
          ref_reads := _calc_ref_reads (cellular_prevalence cnv) total;
          total_reads := total;
          overlapping_variants :=
            _format_overlapping_variants overlapping (major_cn cnv) (minor_cn cnv);
          cnv_id := None |}.

(** [list(self._format_cnvs(cnvs, variants))]. *)
Definition _format_cnvs (cnvs : region_map) (variants : list FormattedVariant)
    : option (list FormattedCnv) :=
  Exc.mapM (fun cr : string * CnvRegion => format_one (fst cr) variants (snd cr))
    (flat_map (fun kv : string * list CnvRegion =>
                 map (fun cnv => (fst kv, cnv)) (snd kv)) cnvs).

(** [_merge_variants(cnv1, cnv2)]: the set of names of [cnv1] is taken
    once, before the loop. *)
Definition _merge_variants (ov1 ov2 : list overlap) : list overlap :=
  let names := map (fun v : overlap => fst (fst v)) ov1 in
  ov1 ++ filter (fun v : overlap =>
                   negb (existsb (Nat.eqb (fst (fst v))) names)) ov2.

(** [formatted.sort(key = cellular_prevalence)]: a stable ascending
    sort. *)
Fixpoint insert_by_prev (x : FormattedCnv) (l : list FormattedCnv) : list FormattedCnv :=
  match l with
  | [] => [x]
  | y :: t =>
      if Qle_bool (f_prevalence x) (f_prevalence y) then x :: l
      else y :: insert_by_prev x t
  end.

Definition sort_by_prev (l : list FormattedCnv) : list FormattedCnv :=
  fold_right insert_by_prev [] l.

Definition set_id (n : nat) (c : FormattedCnv) : FormattedCnv :=
  {| chrom := chrom c; f_start := f_start c; f_end := f_end c;
     f_major_cn := f_major_cn c; f_minor_cn := f_minor_cn c;
     f_prevalence := f_prevalence c; ref_reads := ref_reads c;
     total_reads := total_reads c;
     overlapping_variants := overlapping_variants c;
     cnv_id := Some n |}.

(** The body of the merge branch: [last] absorbs [current]. *)
Definition absorb (last current : FormattedCnv) : FormattedCnv :=
  let total := (total_reads current + total_reads last)%Z in
  {| chrom := chrom last; f_start := f_start last; f_end := f_end last;
     f_major_cn := f_major_cn last; f_minor_cn := f_minor_cn last;
     f_prevalence := f_prevalence last;
     ref_reads := _calc_ref_reads (f_prevalence last) total;
     total_reads := total;
     overlapping_variants :=
       _merge_variants (overlapping_variants last) (overlapping_variants current);
     cnv_id := cnv_id last |}.

(** One iteration of [for current in formatted]. The state is [merged]
    held last-element-first ([last = merged[-1]] is the head) and
    [counter]. *)
Definition merge_step (cellularity : Q)
    (st : list FormattedCnv * nat) (current : FormattedCnv)
    : list FormattedCnv * nat :=
  match st with
  | (last :: before, counter) =>
      if andb (Qeq_bool (f_prevalence current) (f_prevalence last))
              (Qeq_bool (f_prevalence last) cellularity)
      then (absorb last current :: before, counter)
      else (set_id counter current :: last :: before, S counter)
  | ([], counter) => ([set_id counter current], S counter)
  end.

(** The merge pass on the sorted list, before the final scaling. *)
Definition merge_sorted (cellularity : Q) (formatted : list FormattedCnv)
    : list FormattedCnv :=
  match formatted with
  | [] => []
  | first :: rest =>
      rev (fst (fold_left (merge_step cellularity) rest ([set_id 0 first], 1%nat)))
  end.

Definition scale (c : FormattedCnv) : FormattedCnv :=
  {| chrom := chrom c; f_start := f_start c; f_end := f_end c;
     f_major_cn := f_major_cn c; f_minor_cn := f_minor_cn c;
     f_prevalence := f_prevalence c;
     ref_reads := py_round (inject_Z (ref_reads c) * cnv_confidence self);
     total_reads := py_round (inject_Z (total_reads c) * cnv_confidence self);
     overlapping_variants := overlapping_variants c;
     cnv_id := cnv_id c |}.

(** [format_and_merge_cnvs] up to, and not including, the last loop. *)
Definition merge_cnvs (cnvs : region_map) (variants : list FormattedVariant)
    : option (list FormattedCnv) :=
  formatted <- _format_cnvs cnvs variants ;;
  Some (merge_sorted (find_cellularity cnvs) (sort_by_prev formatted)).

Definition format_and_merge_cnvs (cnvs : region_map) (variants : list FormattedVariant)
    : option (list FormattedCnv) :=
  merged <- merge_cnvs cnvs variants ;;
  Some (map scale merged).

End Formatter.

End Cnv.

(** ** Read-count imputation *)

(** The imputation in exact real arithmetic, for the signs and the
    shape of what it returns; the values the code computes in binary64
    are those of module [Impute64]. *)
Module Impute.
Local Open Scope R_scope.

(** A cell of a float matrix: [None] is NaN (a missing read count). *)
Definition cell := option R.

(** A [v * s] numpy array: its number of columns (samples) and its
    rows (variants). *)
Record matrix (A : Type) := mkMatrix {
  n_samples : nat;
  rows : list (list A)
}.
Arguments mkMatrix {A} _ _.
Arguments n_samples {A} _.
Arguments rows {A} _.

Definition wf_matrix {A : Type} (m : matrix A) : Prop :=
  Forall (fun r => length r = n_samples m) (rows m).

Definition cell_at {A : Type} (m : matrix A) (i j : nat) : option A :=
  match nth_error (rows m) i with
  | Some r => nth_error r j
  | None => None
  end.

Fixpoint zip_with {A B C : Type} (f : A -> B -> C) (l1 : list A) (l2 : list B)
    : list C :=
  match l1, l2 with
  | a :: t1, b :: t2 => f a b :: zip_with f t1 t2
  | _, _ => []
  end.

(** The unmasked entries of a masked vector. *)
Fixpoint observed (xs : list cell) : list R :=
  match xs with
  | [] => []
  | Some x :: t => x :: observed t
  | None :: t => observed t
  end.

Definition Rpos_b (x : R) : bool := if Rlt_dec 0 x then true else false.

Definition sum_ln (xs : list R) : R := fold_right (fun x acc => ln x + acc) 0 xs.

(** [gmean] of one masked vector: [exp(mean(log x))] over the unmasked
    entries. A vector with no unmasked entry has no mean; an entry that
    is not positive has no real logarithm. Both give [None] here (a
    masked, NaN or zero mean in numpy), and every caller below asserts
    on it. *)
Definition gmean (xs : list cell) : cell :=
  match observed xs with
  | [] => None
  | obs =>
      if forallb Rpos_b obs
      then Some (exp (sum_ln obs / INR (length obs)))
      else None
  end.

Definition column (j : nat) (m : matrix cell) : list cell :=
  map (fun r => nth j r None) (rows m).

(** [assert np.sum(means <= 0) == np.sum(np.isnan(means)) == 0]. *)
Definition assert_positive (means : list cell) : option (list R) :=
  Exc.mapM (fun c : cell =>
              match c with
              | Some m => if Rlt_dec 0 m then Some m else None
              | None => None
              end) means.

Definition fill (c : cell) (x : R) : R :=
  match c with
  | Some y => y
  | None => x
  end.

Definition scale_missing (conf : R) (c : cell) (x : R) : R :=
  match c with
  | Some _ => x
  | None => x * conf
  end.

Definition sample_means_of (total_reads : matrix cell) : list cell :=
  map (fun j => gmean (column j total_reads)) (seq 0 (n_samples total_reads)).

(** [np.dot(masked_total_reads, np.diag(1./sample_means))]: every
    count times the inverse of its sample's mean; a masked cell stays
    masked. *)
Definition normalize (sample_means : list R) (total_reads : matrix cell)
    : list (list cell) :=
  map (fun r => zip_with (fun (c : cell) m => option_map (fun x => x * (1 / m)) c)
                  r sample_means)
      (rows total_reads).

Definition impute_missing_total_reads (total_reads : matrix cell)
    (missing_variant_confidence : R) : option (matrix Z) :=
  sample_means <- assert_positive (sample_means_of total_reads) ;;
  let normalized_to_sample := normalize sample_means total_reads in
  variant_mean_reads <- assert_positive (map gmean normalized_to_sample) ;;
  let imputed_counts :=
    map (fun v => map (fun s => v * s) sample_means) variant_mean_reads in
  let filled := zip_with (zip_with fill) (rows total_reads) imputed_counts in
  if forallb (forallb Rpos_b) filled then
    let scaled :=
      zip_with (zip_with (scale_missing missing_variant_confidence))
        (rows total_reads) filled in
    Some (mkMatrix (n_samples total_reads) (map (map Int_part) scaled))
  else None.

(** [astype(np.int)]: truncation toward zero. *)
Definition astype_int (x : R) : Z :=
  if Rle_dec 0 x then Int_part x else (- Int_part (- x))%Z.

(** [impute_missing_ref_reads]: a NaN coordinate outside [total_reads]
    is an [IndexError]. *)
Definition impute_ref_cell (total_reads : matrix Z) (i j : nat) (c : cell)
    : option Z :=
  match c with
  | Some x => Some (astype_int x)
  | None => cell_at total_reads i j
  end.

Fixpoint mapM_index {A B : Type} (f : nat -> A -> option B) (i : nat) (l : list A)
    : option (list B) :=
  match l with
  | [] => Some []
  | x :: t =>
      y <- f i x ;;
      ys <- mapM_index f (S i) t ;;
      Some (y :: ys)
  end.

Definition impute_missing_ref_reads (ref_reads : matrix cell) (total_reads : matrix Z)
    : option (matrix Z) :=
  new_rows <- mapM_index
                (fun i r => mapM_index (fun j c => impute_ref_cell total_reads i j c) 0 r)
                0 (rows ref_reads) ;;
  Some (mkMatrix (n_samples ref_reads) new_rows).

End Impute.

(** ** Variants grouped with CNV regions *)

Module Group.
Import PyNum Variant Cnv Impute.
Local Open Scope Q_scope.

(** The fields of a [VariantAndCnvGroup]; [None] is Python's [None]. *)
Record VariantAndCnvGroup := mkGroup {
  _variants : list VariantId;
  _variant_idxs : list nat;
  _ref_read_counts : matrix Z;
  _total_read_counts : matrix Z;
  _estimated_read_depth : depth;
  _cn_regions : option region_map;
  _cellularity : option Q
}.

(** [np.nanmean] of an integer matrix: the mean of all its cells. *)
Definition nanmean (m : matrix Z) : Q :=
  let cells := concat (rows m) in
  inject_Z (fold_right Z.add 0%Z cells) / inject_Z (Z.of_nat (length cells)).

Definition _estimate_read_depth (variants : list VariantId)
    (total_read_counts : matrix Z) : depth :=
  match variants with
  | [] => DInt 50
  | _ => DFloat (nanmean total_read_counts)
  end.

Definition add_variants (variants : list VariantId)
    (ref_read_counts total_read_counts : matrix Z) : VariantAndCnvGroup :=
  {| _variants := variants;
     _variant_idxs := seq 0 (length variants);
     _ref_read_counts := ref_read_counts;
     _total_read_counts := total_read_counts;
     _estimated_read_depth := _estimate_read_depth variants total_read_counts;
     _cn_regions := None;
     _cellularity := None |}.

Definition add_cnvs (self : VariantAndCnvGroup) (cn_regions : region_map)
    : VariantAndCnvGroup :=
  {| _variants := _variants self;
     _variant_idxs := _variant_idxs self;
     _ref_read_counts := _ref_read_counts self;
     _total_read_counts := _total_read_counts self;
     _estimated_read_depth := _estimated_read_depth self;
     _cn_regions := Some cn_regions;
     _cellularity := Some (find_cellularity cn_regions) |}.

Definition has_cnvs (self : VariantAndCnvGroup) : bool :=
  match _cn_regions self with
  | Some _ => true
  | None => false
  end.

Definition set_variant_idxs (self : VariantAndCnvGroup) (idxs : list nat)
    : VariantAndCnvGroup :=
  {| _variants := _variants self;
     _variant_idxs := idxs;
     _ref_read_counts := _ref_read_counts self;
     _total_read_counts := _total_read_counts self;
     _estimated_read_depth := _estimated_read_depth self;
     _cn_regions := _cn_regions self;
     _cellularity := _cellularity self |}.

(** [regions[chrom]] on a [defaultdict(list)]. *)
Fixpoint regions_of (regions : region_map) (chrom : string) : list CnvRegion :=
  match regions with
  | [] => []
  | (k, regs) :: t => if String.eqb k chrom then regs else regions_of t chrom
  end.

Definition in_region (pos : Z) (region : CnvRegion) : bool :=
  andb (Z.leb (start region) pos) (Z.leb pos (end_ region)).

(** [_filter_variants_outside_regions]; a variant index outside
    [self._variants] is an [IndexError]. *)
Definition _filter_variants_outside_regions (self : VariantAndCnvGroup)
    (regions : region_map) : option VariantAndCnvGroup :=
  flags <- Exc.mapM
             (fun vidx =>
                variant <- nth_error (_variants self) vidx ;;
                Some (vidx, existsb (in_region (POS variant))
                                    (regions_of regions (CHROM variant))))
             (_variant_idxs self) ;;
  Some (set_variant_idxs self (map fst (filter snd flags))).

(** [major_cn == minor_cn == 1]. *)
Definition _is_region_normal_cn (region : CnvRegion) : bool :=
  andb (Z.eqb (major_cn region) (minor_cn region)) (Z.eqb (minor_cn region) 1).

(** [region['cellular_prevalence'] == self._cellularity]. *)
Definition at_cellularity (self : VariantAndCnvGroup) (region : CnvRegion) : bool :=
  match _cellularity self with
  | Some c => Qeq_bool (cellular_prevalence region) c
  | None => false
  end.

Definition retain_only_variants_in_normal_cn_regions (self : VariantAndCnvGroup)
    : option VariantAndCnvGroup :=
  cn_regions <- _cn_regions self ;;
  let normal_cn :=
    map (fun kv : string * list CnvRegion =>
           (fst kv,
            filter (fun region =>
                      andb (_is_region_normal_cn region) (at_cellularity self region))
                   (snd kv)))
        cn_regions in
  _filter_variants_outside_regions self normal_cn.

(** The inner [while i < len(reg) and reg[i]['start'] == region['start']]
    loop: the regions that follow [region] with its start coordinate.
    The [assert] on the end coordinate fails with [None]. *)
Fixpoint same_coords (region : CnvRegion) (rest : list CnvRegion)
    : option (list CnvRegion) :=
  match rest with
  | [] => Some []
  | r :: t =>
      if Z.eqb (start r) (start region) then
        if Z.eqb (end_ r) (end_ region) then
          more <- same_coords region t ;; Some (r :: more)
        else None
      else Some []
  end.

(** The outer [while idx < len(reg)] loop on one chromosome, started at
    [idx]: [reg] is the list from [idx - skip] on, and [skip] counts the
    regions still to step over after [idx += len(regions_at_same_coords)]. *)
Fixpoint filter_chrom (self : VariantAndCnvGroup) (skip : nat) (reg : list CnvRegion)
    : option (list CnvRegion) :=
  match reg with
  | [] => Some []
  | region :: rest =>
      match skip with
      | S k => filter_chrom self k rest
      | O =>
          if at_cellularity self region then
            good <- filter_chrom self 0 rest ;;
            Some (region :: good)
          else
            more <- same_coords region rest ;;
            let regions_at_same_coords := region :: more in
            let abnormal_regions :=
              filter (fun r => negb (_is_region_normal_cn r)) regions_at_same_coords in
            good <- filter_chrom self (length more) rest ;;
            match abnormal_regions with
            | [abnormal] => Some (abnormal :: good)
            | _ => Some good
            end
      end
  end.

Definition _filter_multiple_abnormal_cn_regions (self : VariantAndCnvGroup)
    (regions : region_map) : option region_map :=
  Exc.mapM (fun kv : string * list CnvRegion =>
              good <- filter_chrom self 0 (snd kv) ;; Some (fst kv, good))
           regions.

Definition exclude_variants_in_subclonal_cnvs (self : VariantAndCnvGroup)
    : option VariantAndCnvGroup :=
  cn_regions <- _cn_regions self ;;
  good_regions <- _filter_multiple_abnormal_cn_regions self cn_regions ;;
  _filter_variants_outside_regions self good_regions.

(** [write_cnvs]: the rows written to the CNV table. *)
Definition write_cnvs (self : VariantAndCnvGroup) (variants : list FormattedVariant)
    (cnv_confidence : Q) (read_length : Z) : option (list FormattedCnv) :=
  cn_regions <- _cn_regions self ;;
  cellularity <- _cellularity self ;;
  filtered_regions <- _filter_multiple_abnormal_cn_regions self cn_regions ;;
  let abnormal_regions :=
    map (fun kv : string * list CnvRegion =>
           (fst kv, filter (fun r => negb (_is_region_normal_cn r)) (snd kv)))
        filtered_regions in
  let formatter :=
    mkFormatter cnv_confidence cellularity (_estimated_read_depth self) read_length in
  format_and_merge_cnvs formatter abnormal_regions variants.

(** *** Subsampling *)

Section Subsampling.

(** [random.shuffle] after [random.seed(1)]: some fixed rearrangement
    of the list it is given. *)
Variable shuffle : list nat -> list nat.

Definition is_priority (priority_ssms : list (string * Z)) (variant : VariantId)
    : bool :=
  existsb (fun p : string * Z =>
             andb (String.eqb (fst p) (CHROM variant)) (Z.eqb (snd p) (POS variant)))
          priority_ssms.

(** The selection loop; [acc] holds [(subsampled, remaining)], both
    newest-first. *)
Definition select_step (self : VariantAndCnvGroup) (sample_size : Z)
    (priority_ssms : list (string * Z))
    (acc : option (list nat * list nat)) (variant_idx : nat)
    : option (list nat * list nat) :=
  st <- acc ;;
  variant <- nth_error (_variants self) variant_idx ;;
  if andb (Z.ltb (Z.of_nat (length (fst st))) sample_size)
          (is_priority priority_ssms variant)
  then Some (variant_idx :: fst st, snd st)
  else Some (fst st, variant_idx :: snd st).

(** [idxs.sort(key = lambda idx: variant_key(self._variants[idx]))]. *)
Definition sort_idxs (self : VariantAndCnvGroup) (idxs : list nat)
    : option (list nat) :=
  keyed <- Exc.mapM
             (fun idx =>
                variant <- nth_error (_variants self) idx ;;
                key <- variant_key variant ;;
                Some (key, idx))
             idxs ;;
  Some (map snd (sort_keyed keyed)).

(** [get_elements_at_indices] together with the row selections
    [counts[idxs,:]]. *)
Definition rows_at (self : VariantAndCnvGroup) (idxs : list nat)
    : option (list (VariantId * list Z * list Z)) :=
  Exc.mapM
    (fun idx =>
       variant <- nth_error (_variants self) idx ;;
       refs <- nth_error (rows (_ref_read_counts self)) idx ;;
       totals <- nth_error (rows (_total_read_counts self)) idx ;;
       Some (variant, refs, totals))
    idxs.

(** The membership of the two groups, after the sort of each. *)
Definition subsample (self : VariantAndCnvGroup) (sample_size : option Z)
    (priority_ssms : list (string * Z)) : option (list nat * list nat) :=
  let sample_size :=
    match sample_size with
    | None => Z.of_nat (length (_variant_idxs self))
    | Some n => n
    end in
  let shuffled := shuffle (_variant_idxs self) in
  st <- fold_left (select_step self sample_size priority_ssms) shuffled (Some ([], [])) ;;
  let subsampled := rev (fst st) in
  let remaining := rev (snd st) in
  if Z.leb (Z.of_nat (length subsampled)) sample_size then
    let needed := Z.to_nat (sample_size - Z.of_nat (length subsampled)) in
    let subsampled := subsampled ++ firstn needed remaining in
    let nonsubsampled := skipn needed remaining in
    subsampled <- sort_idxs self subsampled ;;
    nonsubsampled <- sort_idxs self nonsubsampled ;;
    Some (subsampled, nonsubsampled)
  else None.

Definition format_variants (self : VariantAndCnvGroup) (sample_size : option Z)
    (error_rate : Q) (priority_ssms : list (string * Z))
    : option (list FormattedVariant * list FormattedVariant) :=
  groups <- subsample self sample_size priority_ssms ;;
  subsampled <- rows_at self (fst groups) ;;
  nonsubsampled <- rows_at self (snd groups) ;;
  Some (Variant.format_variants 0 error_rate subsampled,
        Variant.format_variants (length subsampled) error_rate nonsubsampled).

End Subsampling.

End Group.

(** ** VCF records and the caller adapters *)

Module Vcf.
Import Variant.

(** What running one step of an adapter gives: a value, the
    [ReadCountsUnavailableError] exception, or any other exception
    ([KeyError], [AssertionError], [ValueError], ...). *)
Inductive result (A : Type) :=
| Ok (a : A)
| Unavailable
| Fatal.
Arguments Ok {A} _.
Arguments Unavailable {A}.
Arguments Fatal {A}.

Definition rbind {A B : Type} (m : result A) (k : A -> result B) : result B :=
  match m with
  | Ok a => k a
  | Unavailable => Unavailable
  | Fatal => Fatal
  end.

Notation "x <~ m ;; k" := (rbind m (fun x => k))
  (at level 61, m at next level, right associativity).

Definition of_option {A : Type} (o : option A) : result A :=
  match o with
  | Some a => Ok a
  | None => Fatal
  end.

Definition assert (b : bool) : result unit := if b then Ok tt else Fatal.

(** A field value as the VCF reader hands it over. *)
Inductive value :=
| VInt (z : Z)
| VStr (s : string)
| VList (l : list Z).

(** One sample column of a record: [call.sample] and [call.data]. *)
Record Call := mkCall {
  sample : string;
  data : list (string * value)
}.

(** A parsed record, with the attributes the adapters read. [is_snp]
    is the reader's own classification. *)
Record VcfRecord := mkRecord {
  r_CHROM : string;
  r_POS : Z;
  r_REF : string;
  r_ALT : list (option string);
  r_FILTER : option (list string);
  r_INFO : list (string * value);
  r_samples : list Call;
  r_is_snp : bool
}.

Fixpoint lookup (key : string) (fields : list (string * value)) : option value :=
  match fields with
  | [] => None
  | (k, v) :: t => if String.eqb k key then Some v else lookup key t
  end.

(** [call[key]] and [getattr(call.data, key)]. *)
Definition field (call : Call) (key : string) : result value :=
  of_option (lookup key (data call)).

(** [int(v)]. *)
Definition to_int (v : value) : result Z :=
  match v with
  | VInt z => Ok z
  | VStr s => of_option (int_of_string s)
  | VList _ => Fatal
  end.

(** [v[i]] for a non-negative [i]: an element of a list, a character
    of a string. *)
Definition item (v : value) (i : Z) : result value :=
  if Z.ltb i 0 then Fatal
  else
    match v with
    | VList l => of_option (option_map VInt (nth_error l (Z.to_nat i)))
    | VStr s =>
        of_option (option_map (fun c => VStr (String c EmptyString))
                     (String.get (Z.to_nat i) s))
    | VInt _ => Fatal
    end.

(** [int(v[i])]. *)
Definition int_item (v : value) (i : Z) : result Z :=
  x <~ item v i ;; to_int x.

(** [samples[i]], with Python's negative indices. *)
Definition sample_at (samples : list Call) (i : Z) : result Call :=
  let n := Z.of_nat (length samples) in
  if andb (Z.leb 0 i) (Z.ltb i n) then of_option (nth_error samples (Z.to_nat i))
  else if andb (Z.leb (- n) i) (Z.ltb i 0)
       then of_option (nth_error samples (Z.to_nat (n + i)))
       else Fatal.

(** [s.split(sep)] for a one-character separator. *)
Fixpoint split_on (sep : ascii) (s : string) : list string :=
  match s with
  | EmptyString => [EmptyString]
  | String c t =>
      if Ascii.eqb c sep then EmptyString :: split_on sep t
      else
        match split_on sep t with
        | [] => [String c EmptyString]
        | w :: ws => String c w :: ws
        end
  end.

(** [s.split(sep, 1)] unpacked into two names: a [ValueError] when
    [sep] does not occur. *)
Fixpoint split_once (sep : ascii) (s : string) : option (string * string) :=
  match s with
  | EmptyString => None
  | String c t =>
      if Ascii.eqb c sep then Some (EmptyString, t)
      else
        match split_once sep t with
        | Some (a, b) => Some (String c a, b)
        | None => None
        end
  end.

Fixpoint last_char (s : string) : option ascii :=
  match s with
  | EmptyString => None
  | String c EmptyString => Some c
  | String _ t => last_char t
  end.

Inductive caller :=
| Sanger
| MutectPcawg
| MutectSmchet
| MutectTcga
| Muse (tier : Z)
| DKFZ
| Strelka
| VarDict
| PcawgConsensus.

Record VariantParser := mkParser {
  kind : caller;
  _vcf_filename : string;
  _tumor_sample : option string
}.

Definition truthy (s : option string) : bool :=
  match s with
  | Some (String _ _) => true
  | _ => false
  end.

Fixpoint indices_where {A : Type} (p : A -> bool) (i : nat) (l : list A) : list nat :=
  match l with
  | [] => []
  | x :: t => if p x then i :: indices_where p (S i) t else indices_where p (S i) t
  end.

(** [_get_tumor_index]. *)
Definition _get_tumor_index (self : VariantParser) (variant : VcfRecord) : result Z :=
  if truthy (_tumor_sample self) then
    match indices_where
            (fun s => match _tumor_sample self with
                      | Some name => String.eqb (sample s) name
                      | None => false
                      end) 0 (r_samples variant) with
    | [i] => Ok (Z.of_nat i)
    | _ => Fatal
    end
  else Ok (Z.of_nat (length (r_samples variant)) - 1)%Z.

Definition tumor_call (self : VariantParser) (variant : VcfRecord) : result Call :=
  tumor_i <~ _get_tumor_index self variant ;;
  sample_at (r_samples variant) tumor_i.

(** [variant.genotype(name)]. *)
Definition genotype (variant : VcfRecord) (name : string) : result Call :=
  of_option (find (fun s => String.eqb (sample s) name) (r_samples variant)).

(** [_find_ref_and_variant_nt] of the Sanger adapter. *)
Definition _find_ref_and_variant_nt (variant : VcfRecord) : result (string * string) :=
  match r_REF variant, r_ALT variant with
  | String c EmptyString, [alt] =>
      Ok (String c EmptyString,
          match alt with Some a => a | None => "None"%string end)
  | _, _ => Fatal
  end.

Definition strand_field (strand nt : string) : result string :=
  if existsb (String.eqb nt) ["A"; "C"; "G"; "T"]%string
  then Ok (strand ++ nt ++ "Z")%string
  else Fatal.

Fixpoint all_ok {A : Type} (l : list (result A)) : result unit :=
  match l with
  | [] => Ok tt
  | Ok _ :: t => all_ok t
  | Unavailable :: _ => Unavailable
  | Fatal :: _ => Fatal
  end.

Definition sanger_counts (variant : VcfRecord) : result (Z * Z) :=
  _ <~ genotype variant "NORMAL" ;;
  tumor <~ genotype variant "TUMOUR" ;;
  nts <~ _find_ref_and_variant_nt variant ;;
  let count key := v <~ field tumor key ;; to_int v in
  _ <~ all_ok (map count ["FAZ"; "FCZ"; "FGZ"; "FTZ"; "RAZ"; "RCZ"; "RGZ"; "RTZ"]%string) ;;
  let reads strand nt := key <~ strand_field strand nt ;; count key in
  fr <~ reads "F"%string (fst nts) ;;
  rr <~ reads "R"%string (fst nts) ;;
  let ref_reads := (fr + rr)%Z in
  fv <~ reads "F"%string (snd nts) ;;
  rv <~ reads "R"%string (snd nts) ;;
  let variant_reads := (fv + rv)%Z in
  Ok (ref_reads, (ref_reads + variant_reads)%Z).

Definition value_length (v : value) : result nat :=
  match v with
  | VList l => Ok (length l)
  | VStr s => Ok (String.length s)
  | VInt _ => Fatal
  end.

Definition pcawg_consensus_counts (variant : VcfRecord) : result (Z * Z) :=
  match lookup "t_alt_count" (r_INFO variant), lookup "t_ref_count" (r_INFO variant) with
  | Some alt, Some ref =>
      la <~ value_length alt ;;
      lr <~ value_length ref ;;
      _ <~ assert (andb (Nat.eqb la lr) (Nat.eqb lr 1)) ;;
      alt_reads <~ int_item alt 0 ;;
      ref_reads <~ int_item ref 0 ;;
      let total_reads := (alt_reads + ref_reads)%Z in
      if Z.eqb total_reads 0 then Unavailable
      else Ok (ref_reads, total_reads)
  | _, _ => Unavailable
  end.

Fixpoint nodup_Z (l : list Z) : list Z :=
  match l with
  | [] => []
  | x :: t => if existsb (Z.eqb x) t then nodup_Z t else x :: nodup_Z t
  end.

Fixpoint collect {A : Type} (l : list (result A)) : result (list A) :=
  match l with
  | [] => Ok []
  | x :: t => a <~ x ;; r <~ collect t ;; Ok (a :: r)
  end.

(** [_get_normal_genotype] of the MuSE adapter: the set of alleles of
    the normal sample's [GT]. *)
Definition _get_normal_genotype (self : VariantParser) (variant : VcfRecord)
    : result (list Z) :=
  tumor_i <~ _get_tumor_index self variant ;;
  _ <~ assert (orb (Z.eqb tumor_i 0) (Z.eqb tumor_i 1)) ;;
  normal <~ sample_at (r_samples variant) (1 - tumor_i) ;;
  gt <~ field normal "GT" ;;
  match gt with
  | VStr s =>
      alleles <~ collect (map (fun t => of_option (int_of_string t)) (split_on "/" s)) ;;
      Ok (nodup_Z alleles)
  | _ => Fatal
  end.

Definition muse_counts (self : VariantParser) (variant : VcfRecord) : result (Z * Z) :=
  normal_gt <~ _get_normal_genotype self variant ;;
  match normal_gt with
  | [gt] =>
      tumor <~ tumor_call self variant ;;
      dp <~ field tumor "DP" ;;
      total_reads <~ to_int dp ;;
      ad <~ field tumor "AD" ;;
      ref_reads <~ int_item ad gt ;;
      Ok (ref_reads, total_reads)
  | _ => Fatal
  end.

Definition strelka_counts (self : VariantParser) (variant : VcfRecord) : result (Z * Z) :=
  alt <~ of_option (nth_error (r_ALT variant) 0) ;;
  tumor <~ tumor_call self variant ;;
  dp <~ field tumor "DP" ;;
  total_reads <~ to_int dp ;;
  match alt with
  | None =>
      let total_reads := 0%Z in
      let variant_reads := 0%Z in
      Ok ((total_reads - variant_reads)%Z, total_reads)
  | Some a =>
      tier <~ field tumor (a ++ "U") ;;
      variant_reads <~ int_item tier 0 ;;
      Ok ((total_reads - variant_reads)%Z, total_reads)
  end.

Definition mutect_tcga_counts (self : VariantParser) (variant : VcfRecord)
    : result (Z * Z) :=
  tumor <~ tumor_call self variant ;;
  td <~ field tumor "TD" ;;
  match td with
  | VList [ref_reads; variant_reads] => Ok (ref_reads, (ref_reads + variant_reads)%Z)
  | _ => Fatal
  end.

Definition mutect_pcawg_counts (self : VariantParser) (variant : VcfRecord)
    : result (Z * Z) :=
  tumor <~ tumor_call self variant ;;
  rc <~ field tumor "ref_count" ;;
  ref_reads <~ to_int rc ;;
  ac <~ field tumor "alt_count" ;;
  variant_reads <~ to_int ac ;;
  Ok (ref_reads, (ref_reads + variant_reads)%Z).

Definition mutect_smchet_counts (self : VariantParser) (variant : VcfRecord)
    : result (Z * Z) :=
  tumor <~ tumor_call self variant ;;
  ad <~ field tumor "AD" ;;
  ref_reads <~ int_item ad 0 ;;
  variant_reads <~ int_item ad 1 ;;
  Ok (ref_reads, (ref_reads + variant_reads)%Z).

Definition dkfz_counts (variant : VcfRecord) : result (Z * Z) :=
  dp4 <~ of_option (lookup "DP4" (r_INFO variant)) ;;
  for_ref_reads <~ int_item dp4 0 ;;
  back_ref_reads <~ int_item dp4 1 ;;
  for_variant_reads <~ int_item dp4 2 ;;
  back_variant_reads <~ int_item dp4 3 ;;
  let ref_reads := (for_ref_reads + back_ref_reads)%Z in
  let var_reads := (for_variant_reads + back_variant_reads)%Z in
  Ok (ref_reads, (ref_reads + var_reads)%Z).

(** [_calc_read_counts], by adapter class. *)
Definition _calc_read_counts (self : VariantParser) (variant : VcfRecord)
    : result (Z * Z) :=
  match kind self with
  | Sanger => sanger_counts variant
  | MutectPcawg => mutect_pcawg_counts self variant
  | MutectSmchet => mutect_smchet_counts self variant
  | MutectTcga => mutect_tcga_counts self variant
  | Muse _ => muse_counts self variant
  | DKFZ => dkfz_counts variant
  | Strelka => strelka_counts self variant
  | VarDict => mutect_smchet_counts self variant
  | PcawgConsensus => pcawg_consensus_counts variant
  end.

Definition no_filter (variant : VcfRecord) : bool :=
  match r_FILTER variant with
  | None => true
  | Some [] => true
  | Some (_ :: _) => false
  end.

(** [_does_variant_pass_filters]: the base class's, MuSE's and
    Strelka's. *)
Definition _does_variant_pass_filters (self : VariantParser) (variant : VcfRecord)
    : result bool :=
  match kind self with
  | Muse tier =>
      normal_gt <~ _get_normal_genotype self variant ;;
      if negb (Nat.eqb (length normal_gt) 1) then Ok false
      else
        match r_FILTER variant with
        | None | Some [] => Ok true
        | Some (f :: _) =>
            c <~ of_option (last_char f) ;;
            t <~ of_option (int_of_string (String c EmptyString)) ;;
            Ok (Z.leb t tier)
        end
  | Strelka => Ok (andb (r_is_snp variant) (no_filter variant))
  | _ => Ok (no_filter variant)
  end.

Definition good_chroms : list string :=
  ["1"; "2"; "3"; "4"; "5"; "6"; "7"; "8"; "9"; "10"; "11"; "12"; "13"; "14";
   "15"; "16"; "17"; "18"; "19"; "20"; "21"; "22"]%string.

Definition _is_good_chrom (chrom : string) : bool :=
  existsb (String.eqb chrom) good_chroms.

Definition set_chrom (variant : VcfRecord) (chrom : string) : VcfRecord :=
  {| r_CHROM := chrom; r_POS := r_POS variant; r_REF := r_REF variant;
     r_ALT := r_ALT variant; r_FILTER := r_FILTER variant;
     r_INFO := r_INFO variant; r_samples := r_samples variant;
     r_is_snp := r_is_snp variant |}.

Definition normalize_chrom (chrom : string) : string :=
  let chrom := PyStr.lower chrom in
  if String.prefix "chr" chrom
  then String.substring 3 (String.length chrom - 3) chrom
  else chrom.

Section Files.

(** The VCF files on disk: the records the reader yields for a file
    name, [None] for a file that cannot be read. *)
Variable fs : string -> option (list VcfRecord).

Definition _parse_vcf (vcf_filename : string) : result (list VcfRecord) :=
  records <~ of_option (fs vcf_filename) ;;
  Ok (map (fun variant => set_chrom variant (normalize_chrom (r_CHROM variant))) records).

Fixpoint filter_records (self : VariantParser) (all_variants : list VcfRecord)
    : result (list VcfRecord) :=
  match all_variants with
  | [] => Ok []
  | variant :: t =>
      if negb (_is_good_chrom (r_CHROM variant)) then filter_records self t
      else
        pass <~ _does_variant_pass_filters self variant ;;
        if negb pass then filter_records self t
        else variants <~ filter_records self t ;; Ok (variant :: variants)
  end.

Definition _filter (self : VariantParser) : result (list VcfRecord) :=
  all_variants <~ _parse_vcf (_vcf_filename self) ;;
  filter_records self all_variants.

(** The loop of [list_variants]: [ReadCountsUnavailableError] is caught
    and the record skipped; any other exception escapes. *)
Fixpoint read_counts (self : VariantParser) (variants : list VcfRecord)
    : result (list (VcfRecord * Z * Z)) :=
  match variants with
  | [] => Ok []
  | variant :: t =>
      match _calc_read_counts self variant with
      | Ok (ref_reads, total_reads) =>
          rest <~ read_counts self t ;;
          Ok ((variant, ref_reads, total_reads) :: rest)
      | Unavailable => read_counts self t
      | Fatal => Fatal
      end
  end.

Definition list_variants (self : VariantParser) : result (list (VcfRecord * Z * Z)) :=
  variants <~ _filter self ;;
  read_counts self variants.

End Files.

End Vcf.

(** ** Parsing the VCF files into the read-count matrices *)

Module Pipeline.
Import Variant Impute Vcf.

(** The command-line arguments [parse_variants] reads. *)
Record Args := mkArgs {
  vcf_files : list string;
  tumor_sample : option string;
  muse_tier : Z;
  missing_variant_confidence : R
}.

(** The [if vcf_type == ... elif ...] chain; [None] is its final
    [raise Exception('Unknowon variant type: ...')]. *)
Definition select_parser (args : Args) (vcf_type vcf_fn : string)
    : option VariantParser :=
  let mk k := Some (mkParser k vcf_fn (tumor_sample args)) in
  if String.eqb vcf_type "sanger" then mk Sanger
  else if String.eqb vcf_type "mutect_pcawg" then mk MutectPcawg
  else if String.eqb vcf_type "mutect_smchet" then mk MutectSmchet
  else if String.eqb vcf_type "mutect_tcga" then mk MutectTcga
  else if String.eqb vcf_type "muse" then mk (Muse (muse_tier args))
  else if String.eqb vcf_type "dkfz" then mk DKFZ
  else if String.eqb vcf_type "strelka" then mk Strelka
  else if String.eqb vcf_type "vardict" then mk VarDict
  else if String.eqb vcf_type "pcawg_consensus" then mk PcawgConsensus
  else None.

Definition variant_id_eqb (a b : VariantId) : bool :=
  andb (String.eqb (CHROM a) (CHROM b)) (Z.eqb (POS a) (POS b)).

Definition id_of (variant : VcfRecord) : VariantId :=
  mkVariantId (r_CHROM variant) (r_POS variant).

(** [list(set(ids))]: the distinct identities (here in order of first
    occurrence; the source sorts them next). *)
Fixpoint distinct (ids : list VariantId) : list VariantId :=
  match ids with
  | [] => []
  | x :: t => x :: filter (fun y => negb (variant_id_eqb x y)) (distinct t)
  end.

(** The cell written last for [id] by one sample's parsed list. *)
Fixpoint last_counts (id : VariantId) (parsed : list (VcfRecord * Z * Z))
    : option (Z * Z) :=
  match parsed with
  | [] => None
  | (variant, ref_reads, total_reads) :: t =>
      match last_counts id t with
      | Some c => Some c
      | None =>
          if variant_id_eqb (id_of variant) id then Some (ref_reads, total_reads)
          else None
      end
  end.

Definition count_cell (pick : Z * Z -> Z) (id : VariantId)
    (parsed : list (VcfRecord * Z * Z)) : cell :=
  option_map (fun c => IZR (pick c)) (last_counts id parsed).

Section Files.
Variable fs : string -> option (list VcfRecord).

(** The [for vcf_file in args.vcf_files] loop. The first component
    lists the files opened, in order; the second is the parsed lists,
    or [Fatal] for an exception of any class that leaves the loop. *)
Fixpoint parse_files (args : Args) (files : list string)
    : list string * result (list (list (VcfRecord * Z * Z))) :=
  match files with
  | [] => ([], Ok [])
  | vcf_file :: rest =>
      match split_once "=" vcf_file with
      | None => ([], Fatal)
      | Some (vcf_type, vcf_fn) =>
          match select_parser args vcf_type vcf_fn with
          | None => ([], Fatal)
          | Some variant_parser =>
              match list_variants fs variant_parser with
              | Ok parsed =>
                  let '(opened, r) := parse_files args rest in
                  (vcf_fn :: opened,
                   match r with
                   | Ok more => Ok (parsed :: more)
                   | _ => Fatal
                   end)
              | _ => ([vcf_fn], Fatal)
              end
          end
      end
  end.

Definition sort_ids (ids : list VariantId) : option (list VariantId) :=
  keyed <- Exc.mapM (fun id => key <- variant_key id ;; Some (key, id)) ids ;;
  Some (map snd (sort_keyed keyed)).

(** [parse_variants]: the files opened, and the identities with the
    two imputed matrices or the exception. *)
Definition parse_variants (args : Args)
    : list string * result (list VariantId * matrix Z * matrix Z) :=
  let '(opened, r) := parse_files args (vcf_files args) in
  (opened,
   parsed_variants <~ r ;;
   let num_samples := length (vcf_files args) in
   let all_variant_ids :=
     distinct (concat (map (map (fun v : VcfRecord * Z * Z => id_of (fst (fst v))))
                           parsed_variants)) in
   all_variant_ids <~ of_option (sort_ids all_variant_ids) ;;
   let total_read_counts :=
     mkMatrix num_samples
       (map (fun id => map (count_cell snd id) parsed_variants) all_variant_ids) in
   let ref_read_counts :=
     mkMatrix num_samples
       (map (fun id => map (count_cell fst id) parsed_variants) all_variant_ids) in
   total_read_counts <~ of_option
     (impute_missing_total_reads total_read_counts (missing_variant_confidence args)) ;;
   ref_read_counts <~ of_option
     (impute_missing_ref_reads ref_read_counts total_read_counts) ;;
   Ok (all_variant_ids, ref_read_counts, total_read_counts)).

End Files.

End Pipeline.

(** ** Notions used to state the properties of the CNV code *)

Module CnvSpec.
Import PyNum Variant Cnv.
Local Open Scope Q_scope.

(** Well-formed inputs of the formatter: a prevalence in [0,1],
    inclusive coordinates, copy numbers that are counts, a read depth
    that is a mean of counts and a positive read length. *)
Definition wf_region (r : CnvRegion) : Prop :=
  0 <= cellular_prevalence r <= 1 /\
  (start r <= end_ r)%Z /\ (0 <= major_cn r)%Z /\ (0 <= minor_cn r)%Z.

Definition wf_formatter (self : CnvFormatter) : Prop :=
  0 <= depth_value (read_depth self) /\ (0 < read_length self)%Z.

Definition wf_region_map (cnvs : region_map) : Prop :=
  Forall (fun kv : string * list CnvRegion => Forall wf_region (snd kv)) cnvs.

Definition prev_le (a b : FormattedCnv) : Prop := f_prevalence a <= f_prevalence b.

(** The body of the loops of [find_cellularity], and the regions they
    visit. *)
Definition max_step (mx : Q) (cnr : CnvRegion) : Q :=
  if negb (Qle_bool (cellular_prevalence cnr) mx) then cellular_prevalence cnr else mx.

Definition all_regions (cnvs : region_map) : list CnvRegion :=
  flat_map (fun kv : string * list CnvRegion => snd kv) cnvs.

(** A formatted region is clonal when its prevalence is the
    cellularity [c]. *)
Definition clonal (c : Q) (f : FormattedCnv) : bool := Qeq_bool (f_prevalence f) c.
Definition nonclonal (c : Q) (f : FormattedCnv) : bool := negb (clonal c f).

(** Sequential ids, as [counter] hands them out. *)
Fixpoint number (n : nat) (l : list FormattedCnv) : list FormattedCnv :=
  match l with
  | [] => []
  | x :: t => set_id n x :: number (S n) t
  end.

(** The chromosome-region pairs in the order [_format_cnvs] visits
    them. *)
Definition region_pairs (cnvs : region_map) : list (string * CnvRegion) :=
  flat_map (fun kv : string * list CnvRegion =>
              map (fun cnv => (fst kv, cnv)) (snd kv)) cnvs.

(** What the formatter maintains on every region it holds. *)
Definition consistent (f : FormattedCnv) : Prop :=
  0 <= f_prevalence f <= 1 /\ (0 <= total_reads f)%Z /\
  ref_reads f = _calc_ref_reads (f_prevalence f) (total_reads f).

(** All regions of a list folded into the first of them. *)
Definition collapse (l : list FormattedCnv) : list FormattedCnv :=
  match l with
  | [] => []
  | b :: bs => [fold_left absorb bs b]
  end.

Definition sum_total (l : list FormattedCnv) : Z :=
  fold_right (fun f acc => (total_reads f + acc)%Z) 0%Z l.

End CnvSpec.

(** ** Notions used to state the properties of subsampling *)

Module GroupSpec.
Import Variant Group.

(** Whether the variant at an index is in the priority set. *)
Definition prio_idx (self : VariantAndCnvGroup) (priority_ssms : list (string * Z))
    (idx : nat) : bool :=
  match nth_error (_variants self) idx with
  | Some variant => is_priority priority_ssms variant
  | None => false
  end.

(** The shuffled indices with the priority variants moved to the
    front, each part in shuffled order. *)
Definition ranked (p : nat -> bool) (shuffled : list nat) : list nat :=
  filter p shuffled ++ filter (fun i => negb (p i)) shuffled.

Definition key_of (self : VariantAndCnvGroup) (idx : nat) : option (Z * Z) :=
  variant <- nth_error (_variants self) idx ;; variant_key variant.

Definition key_le (a b : Z * Z) : Prop := key_leb a b = true.

(** A list of indices is in ascending (chromosome, position) order. *)
Definition sorted_by_key (self : VariantAndCnvGroup) (idxs : list nat) : Prop :=
  exists keys, Exc.mapM (key_of self) idxs = Some keys /\ StronglySorted key_le keys.

Definition variants_at (self : VariantAndCnvGroup) (idxs : list nat)
    : option (list VariantId) :=
  Exc.mapM (nth_error (_variants self)) idxs.

End GroupSpec.

(** ** Notions used to state the properties of the parsing code *)

Module VcfSpec.
Import Variant Vcf.

(** A computation that raises no [ReadCountsUnavailableError]. *)
Definition tame {A : Type} (r : result A) : Prop := r <> Unavailable.

(** The records of a list with the counts their adapter returns. *)
Definition kept (self : VariantParser) (variants : list VcfRecord)
    : list (VcfRecord * Z * Z) :=
  flat_map (fun variant =>
              match _calc_read_counts self variant with
              | Ok (ref_reads, total_reads) => [(variant, ref_reads, total_reads)]
              | _ => []
              end) variants.

(** A record without [t_alt_count] or [t_ref_count] in INFO, or whose
    two single counts add up to zero. *)
Definition counts_unavailable (variant : VcfRecord) : Prop :=
  lookup "t_alt_count" (r_INFO variant) = None \/
  lookup "t_ref_count" (r_INFO variant) = None \/
  exists alt ref a r,
    lookup "t_alt_count" (r_INFO variant) = Some alt /\
    lookup "t_ref_count" (r_INFO variant) = Some ref /\
    value_length alt = Ok 1%nat /\ value_length ref = Ok 1%nat /\
    int_item alt 0 = Ok a /\ int_item ref 0 = Ok r /\ (a + r = 0)%Z.

(** The file name of a [<vcf_type>=<path>] argument. *)
Definition file_of (vcf_file : string) : string :=
  match split_once "=" vcf_file with
  | Some (_, vcf_fn) => vcf_fn
  | None => EmptyString
  end.

(** An argument whose caller-type keyword no branch of the dispatch
    accepts. *)
Definition unknown_type (args : Pipeline.Args) (vcf_file : string) : Prop :=
  exists vcf_type vcf_fn,
    split_once "=" vcf_file = Some (vcf_type, vcf_fn) /\
    Pipeline.select_parser args vcf_type vcf_fn = None.

(** An argument whose file is read without an exception. *)
Definition parses (fs : string -> option (list VcfRecord)) (args : Pipeline.Args)
    (vcf_file : string) : Prop :=
  exists vcf_type vcf_fn variant_parser parsed,
    split_once "=" vcf_file = Some (vcf_type, vcf_fn) /\
    Pipeline.select_parser args vcf_type vcf_fn = Some variant_parser /\
    list_variants fs variant_parser = Ok parsed.

End VcfSpec.

(** ** Notions used to state the properties of the imputation *)

Module ImputeSpec.
Import Impute.
Local Open Scope R_scope.

(** A matrix the imputation accepts: every sample and every variant
    has an observed count, and the observed counts are positive. *)
Definition imputable (m : matrix cell) : Prop :=
  (forall j, (j < n_samples m)%nat -> exists i x, cell_at m i j = Some (Some x)) /\
  (forall i r, nth_error (rows m) i = Some r -> exists j x, nth_error r j = Some (Some x)) /\
  (forall i j x, cell_at m i j = Some (Some x) -> 0 < x).

(** A sample's geometric-mean total read depth. *)
Definition sample_mean (m : matrix cell) (j : nat) : cell := gmean (column j m).

(** A variant's depth enrichment in each sample: its read count
    divided by the sample's geometric mean. *)
Definition enrichment (m : matrix cell) (r : list cell) : list cell :=
  zip_with (fun (c g : cell) =>
              match c, g with
              | Some x, Some s => Some (x * (1 / s))
              | _, _ => None
              end)
           r (sample_means_of m).

(** A variant's geometric-mean depth enrichment across samples. *)
Definition variant_mean (m : matrix cell) (r : list cell) : cell :=
  gmean (enrichment m r).




End ImputeSpec.

(** ** Sample inputs *)

Module Examples.
Import Variant Cnv.
Local Open Scope Q_scope.

Definition ex_formatter : CnvFormatter :=
  mkFormatter (1 # 2) (8 # 10) (DFloat 50) 100.

(** Two clonal gains on chromosome 1 and a sub-clonal loss on
    chromosome 2. *)
Definition ex_cnvs : region_map :=
  [("1"%string, [mkRegion 1 1000 2 1 (8 # 10); mkRegion 2001 3000 3 1 (8 # 10)]);
   ("2"%string, [mkRegion 1 500 1 0 (3 # 10)])].

Definition ex_variants : list FormattedVariant :=
  Variant.format_variants 0 (1 # 1000)
    [(mkVariantId "1" 500, [30%Z], [40%Z]); (mkVariantId "2" 100, [12%Z], [50%Z])].

(** One variant on chromosome 1 and two abnormal-CN regions at the
    same coordinates, the sub-clonal one listed first; the second is at
    the cellularity. *)
Definition ex_subclonal : CnvRegion := mkRegion 1 10 2 1 (3 # 10).
Definition ex_clonal : CnvRegion := mkRegion 1 10 2 0 (8 # 10).

Definition ex_group (regions : list CnvRegion) : Group.VariantAndCnvGroup :=
  Group.add_cnvs
    (Group.add_variants [mkVariantId "1" 5]
       (Impute.mkMatrix 1 [[30%Z]]) (Impute.mkMatrix 1 [[40%Z]]))
    [("1"%string, regions)].

(** Six variants, two of them on the priority list; the shuffle is
    played by list reversal. *)
Definition ex_ids : list VariantId :=
  [mkVariantId "1" 10; mkVariantId "1" 20; mkVariantId "2" 5;
   mkVariantId "3" 7; mkVariantId "10" 1; mkVariantId "22" 9].

Definition ex_counts (k : Z) : Impute.matrix Z :=
  Impute.mkMatrix 1 (map (fun n => [(k + Z.of_nat n)%Z]) (seq 0 6)).

Definition ex_sub_group : Group.VariantAndCnvGroup :=
  Group.add_variants ex_ids (ex_counts 10) (ex_counts 40).

Definition ex_priority : list (string * Z) := [("1"%string, 20%Z); ("10"%string, 1%Z)].

Definition ex_shuffle : list nat -> list nat := @rev nat.

(** VCF records: a Strelka call with zero depth, PCAWG-consensus
    records without counts, with zero counts and with counts, and a
    record with no [AD] field. *)
Definition ex_strelka_zero : Vcf.VcfRecord :=
  Vcf.mkRecord "1" 100 "A" [Some "C"%string] None []
    [Vcf.mkCall "NORMAL" [("DP"%string, Vcf.VInt 0); ("CU"%string, Vcf.VList [0; 0]%Z)];
     Vcf.mkCall "TUMOR" [("DP"%string, Vcf.VInt 0); ("CU"%string, Vcf.VList [0; 0]%Z)]]
    true.

Definition ex_pcawg (info : list (string * Vcf.value)) (pos : Z) : Vcf.VcfRecord :=
  Vcf.mkRecord "chr2" pos "G" [Some "T"%string] (Some []) info [] true.

Definition ex_pcawg_absent : Vcf.VcfRecord := ex_pcawg [] 10.
Definition ex_pcawg_zero : Vcf.VcfRecord :=
  ex_pcawg [("t_alt_count"%string, Vcf.VList [0%Z]);
            ("t_ref_count"%string, Vcf.VList [0%Z])] 20.
Definition ex_pcawg_counts : Vcf.VcfRecord :=
  ex_pcawg [("t_alt_count"%string, Vcf.VList [10%Z]);
            ("t_ref_count"%string, Vcf.VList [30%Z])] 30.

Definition ex_no_ad : Vcf.VcfRecord :=
  Vcf.mkRecord "3" 7 "A" [Some "G"%string] None []
    [Vcf.mkCall "TUMOR" [("DP"%string, Vcf.VInt 12)]] true.

Definition ex_fs (filename : string) : option (list Vcf.VcfRecord) :=
  if String.eqb filename "strelka.vcf" then Some [ex_strelka_zero]
  else if String.eqb filename "pcawg.vcf"
       then Some [ex_pcawg_absent; ex_pcawg_zero; ex_pcawg_counts]
  else if String.eqb filename "smchet.vcf" then Some [ex_no_ad]
  else None.




(** A CNV list whose cellularity is carried by a region of normal
    copy number, with two sub-clonal regions of abnormal copy number
    at one prevalence; a variant in each of the two. *)
Definition ex_normal_clonal : CnvRegion := mkRegion 1 1000 1 1 (9 # 10).
Definition ex_gain : CnvRegion := mkRegion 2001 3000 2 1 (5 # 10).
Definition ex_amplification : CnvRegion := mkRegion 4001 5000 3 1 (5 # 10).

Definition ex_mixed_cnvs : region_map :=
  [("1"%string, [ex_normal_clonal; ex_gain; ex_amplification])].

Definition ex_mixed_group : Group.VariantAndCnvGroup :=
  Group.add_cnvs
    (Group.add_variants [mkVariantId "1" 2500; mkVariantId "1" 4500]
       (Impute.mkMatrix 1 [[30%Z]; [20%Z]]) (Impute.mkMatrix 1 [[40%Z]; [40%Z]]))
    ex_mixed_cnvs.

Definition ex_mixed_variants : list FormattedVariant :=
  Variant.format_variants 0 (1 # 1000)
    [(mkVariantId "1" 2500, [30%Z], [40%Z]); (mkVariantId "1" 4500, [20%Z], [40%Z])].

(** Command lines: one with an unknown caller type in second place, one
    with the Strelka file alone. *)
Definition ex_args : Pipeline.Args :=
  Pipeline.mkArgs
    ["pcawg_consensus=pcawg.vcf"; "varscan=strelka.vcf"; "strelka=strelka.vcf"]%string
    None 0 1%R.

Definition ex_strelka_args : Pipeline.Args :=
  Pipeline.mkArgs ["strelka=strelka.vcf"%string] None 0 1%R.




End Examples.

(** ** Notions used to state further properties of the reconciliation *)

Module ReconcileSpec.
Import Variant Cnv Group.

(** Whether the variant at an index lies in a region that a map holds
    for its chromosome. *)
Definition inside (self : VariantAndCnvGroup) (regions : region_map) (vidx : nat)
    : bool :=
  match nth_error (_variants self) vidx with
  | Some variant =>
      existsb (in_region (POS variant)) (regions_of regions (CHROM variant))
  | None => false
  end.

(** Whether it lies in a region that passes a test. *)
Definition inside_where (self : VariantAndCnvGroup) (test : CnvRegion -> bool)
    (regions : region_map) (vidx : nat) : bool :=
  match nth_error (_variants self) vidx with
  | Some variant =>
      existsb (fun region => andb (in_region (POS variant) region) (test region))
              (regions_of regions (CHROM variant))
  | None => false
  end.

(** Every retained index names a variant. *)
Definition valid_idxs (self : VariantAndCnvGroup) : Prop :=
  Forall (fun vidx => (vidx < length (_variants self))%nat) (_variant_idxs self).

Definition normal_clonal (self : VariantAndCnvGroup) (region : CnvRegion) : bool :=
  andb (_is_region_normal_cn region) (at_cellularity self region).

Definition abnormal (region : CnvRegion) : bool := negb (_is_region_normal_cn region).

(** A region at the cellularity, or of abnormal copy number. *)
Definition retainable (self : VariantAndCnvGroup) (region : CnvRegion) : bool :=
  orb (at_cellularity self region) (abnormal region).

(** No two neighbours of the list start at the same coordinate. *)
Fixpoint distinct_starts (reg : list CnvRegion) : Prop :=
  match reg with
  | a :: t =>
      match t with
      | b :: _ => start a <> start b
      | [] => True
      end /\ distinct_starts t
  | [] => True
  end.

(** [l1] is [l2] with some elements left out. *)
Inductive subseq {A : Type} : list A -> list A -> Prop :=
| subseq_nil : subseq [] []
| subseq_skip : forall x l1 l2, subseq l1 l2 -> subseq l1 (x :: l2)
| subseq_keep : forall x l1 l2, subseq l1 l2 -> subseq (x :: l1) (x :: l2).

(** What a block of regions at the same coordinates contributes. *)
Definition block_result (block good : list CnvRegion) : list CnvRegion :=
  match filter abnormal block with
  | [only] => only :: good
  | _ => good
  end.

End ReconcileSpec.

(** ** Notions used to state further properties of the CNV table *)

Module TableSpec.
Import PyNum Variant Cnv.

(** The SSM ids a formatted region lists. *)
Definition listed (f : FormattedCnv) : list nat :=
  map (fun v : overlap => fst (fst v)) (overlapping_variants f).

(** [major_cn == minor_cn == 1] on a formatted region. *)
Definition f_is_normal (f : FormattedCnv) : bool :=
  andb (Z.eqb (f_major_cn f) (f_minor_cn f)) (Z.eqb (f_minor_cn f) 1).

(** The ids ['c0'], ['c1'], ... of a table of [n] rows. *)
Definition ids_upto (n : nat) : list (option nat) := map Some (seq 0 n).

(** A row that describes region [r] of chromosome [c]. *)
Definition row_of (c : string) (r : CnvRegion) (f : FormattedCnv) : Prop :=
  chrom f = c /\ f_start f = start r /\ f_end f = end_ r /\
  f_major_cn f = major_cn r /\ f_minor_cn f = minor_cn r /\
  f_prevalence f = cellular_prevalence r.

(** The test of [_find_overlapping_variants]: same chromosome up to
    case, and a position within the inclusive bounds. *)
Definition overlaps (c : string) (r : CnvRegion) (v : FormattedVariant) : bool :=
  andb (String.eqb (PyStr.lower c) (PyStr.lower (v_chrom v)))
       (andb (Z.leb (start r) (v_pos v)) (Z.leb (v_pos v) (end_ r))).

(** The SSM ids listed by the rows of a table. *)
Definition all_listed (l : list FormattedCnv) : list nat := flat_map listed l.

End TableSpec.

(** ** Binary64 arithmetic *)

Module F64.
Import SpecFloat.

Definition prec : Z := 53.
Definition emax : Z := 1024.

(** A Python [float] or a NumPy [float64]. *)
Definition float := spec_float.

Definition add : float -> float -> float := SFadd prec emax.
Definition sub : float -> float -> float := SFsub prec emax.
Definition mul : float -> float -> float := SFmul prec emax.
Definition div : float -> float -> float := SFdiv prec emax.
Definition eqb : float -> float -> bool := SFeqb.
Definition ltb : float -> float -> bool := SFltb.
Definition leb : float -> float -> bool := SFleb.

(** The double nearest to an integer. *)
Definition of_Z (z : Z) : float := binary_normalize prec emax z 0 false.

Definition zero : float := S754_zero false.
Definition one : float := of_Z 1.
Definition two : float := of_Z 2.

Definition is_nan (x : float) : bool :=
  match x with
  | S754_nan => true
  | _ => false
  end.

Definition is_finite (x : float) : bool :=
  match x with
  | S754_zero _ | S754_finite _ _ _ => true
  | _ => false
  end.

(** The sign bit is clear (infinity and the zeros included). *)
Definition sign_clear (x : float) : bool :=
  match x with
  | S754_zero s | S754_infinity s | S754_finite s _ _ => negb s
  | S754_nan => false
  end.

(** A canonical representation, as the operations produce it. *)
Definition valid (x : float) : bool := valid_binary prec emax x.

(** The conversion of a Python [int] to [float], explicit in
    [float(n)] and implicit in mixed arithmetic: an [OverflowError]
    when the integer is too large. *)
Definition of_int (z : Z) : option float :=
  let x := of_Z z in
  if is_finite x then Some x else None.

(** [m * 2^e] cut to an integer, toward zero, for a positive [m]. *)
Definition truncate (m : positive) (e : Z) : Z :=
  match e with
  | Zneg p => Z.shiftr (Zpos m) (Zpos p)
  | _ => Z.shiftl (Zpos m) e
  end.

(** [int(x)]: the integer part; a [ValueError] on NaN and an
    [OverflowError] on an infinity. *)
Definition to_int (x : float) : option Z :=
  match x with
  | S754_zero _ => Some 0%Z
  | S754_finite s m e => Some (cond_Zopp s (truncate m e))
  | _ => None
  end.

(** [round(x)] of Python 2: the nearest integer, a tie going away
    from zero, as a float; NaN, infinities and zeros are returned
    unchanged. *)
Definition round (x : float) : float :=
  match x with
  | S754_finite s m (Zneg p) =>
      let q := Z.shiftr (Zpos m) (Zpos p) in
      let r := (Zpos m - Z.shiftl q (Zpos p))%Z in
      let n := if Z.leb (Z.shiftl 1 (Zpos p)) (2 * r) then (q + 1)%Z else q in
      binary_normalize prec emax (cond_Zopp s n) 0 s
  | _ => x
  end.

(** [np.floor(x)] as an integer, for a finite [x]. *)
Definition floor (x : float) : option Z :=
  match x with
  | S754_zero _ => Some 0%Z
  | S754_finite false m e => Some (truncate m e)
  | S754_finite true m e =>
      match e with
      | Zneg p =>
          Some (- Z.shiftr (Zpos m + Z.shiftl 1 (Zpos p) - 1) (Zpos p))%Z
      | _ => Some (- Z.shiftl (Zpos m) e)%Z
      end
  | _ => None
  end.

(** The smallest positive normal double, [np.finfo(float).tiny]. *)
Definition tiny : float := S754_finite false (2 ^ 52) (-1074).

(** [astype(np.int)] of a float that holds the integer [z]: a 64-bit C
    long; outside its range the conversion is not defined. *)
Definition int64 (z : Z) : option Z :=
  if andb (Z.leb (- 2 ^ 63) z) (Z.ltb z (2 ^ 63)) then Some z else None.

(** The rational number a finite float stands for (0 otherwise). *)
Definition to_Q (x : float) : Q :=
  match x with
  | S754_finite s m e =>
      let v := match e with
               | Zneg p => Zpos m # (2 ^ p)%positive
               | _ => inject_Z (Z.shiftl (Zpos m) e)
               end in
      if s then Qopp v else v
  | _ => 0
  end.

End F64.

(** ** The CNV formatter in binary64 *)

(** [CnvFormatter] with its floats as they are: the cellular
    prevalences are Python floats, the read depth is the Python int 50
    or the NumPy float that [np.nanmean] returns. [None] stands for a
    raised exception and for the few inputs named below that this
    module leaves out. *)
Module Cnv64.
Import PyStr Variant F64.

Record CnvRegion := mkRegion {
  start : Z;
  end_ : Z;
  major_cn : Z;
  minor_cn : Z;
  cellular_prevalence : float
}.

Definition region_map := list (string * list CnvRegion).

(** [find_cellularity]: the running maximum starts at 0. *)
Definition find_cellularity (cnvs : region_map) : float :=
  fold_left
    (fun mx (kv : string * list CnvRegion) =>
       fold_left
         (fun mx cnr =>
            if ltb mx (cellular_prevalence cnr) then cellular_prevalence cnr else mx)
         (snd kv) mx)
    cnvs zero.

Inductive depth :=
| DInt (z : Z)
| DFloat (x : float).

Record CnvFormatter := mkFormatter {
  cnv_confidence : float;
  f_cellularity : float;
  read_depth : depth;
  read_length : Z
}.

Definition overlap := (nat * Z * Z)%type.

Record FormattedCnv := mkFCnv {
  chrom : string;
  f_start : Z;
  f_end : Z;
  f_major_cn : Z;
  f_minor_cn : Z;
  f_prevalence : float;
  ref_reads : Z;
  total_reads : Z;
  overlapping_variants : list overlap;
  cnv_id : option nat
}.

Section Formatter.
Variable self : CnvFormatter.

(** [1e6 * self._read_depth]. *)
Definition _max_reads : option float :=
  match read_depth self with
  | DInt z => rd <- of_int z ;; Some (mul (of_Z 1000000) rd)
  | DFloat x => Some (mul (of_Z 1000000) x)
  end.

Definition _find_overlapping_variants (chrom : string) (cnv : CnvRegion)
    (variants : list FormattedVariant) : list nat :=
  map ssm_id
    (filter
       (fun v =>
          andb (String.eqb (lower chrom) (lower (v_chrom v)))
               (andb (Z.leb (start cnv) (v_pos v)) (Z.leb (v_pos v) (end_ cnv))))
       variants).

(** [_calc_ref_reads]: [cellular_prev / 2], [1 - vaf] and the product
    with [total_reads] are float operations, each rounded; [int] takes
    the integer part. *)
Definition _calc_ref_reads (cellular_prev : float) (total_reads : Z) : option Z :=
  let vaf := div cellular_prev two in
  t <- of_int total_reads ;;
  to_int (mul (sub one vaf) t).

(** [fn]: an int read depth makes the Python 2 division an integer
    (floor) division, and [fn] becomes a float when it is multiplied
    by [P]. A zero read length is a [ZeroDivisionError] with an int
    read depth; with a NumPy read depth the code goes on with an
    infinity or a NaN, which is left out here. *)
Definition fragment_count (region_length : Z) : option float :=
  if Z.eqb (read_length self) 0 then None
  else
    match read_depth self with
    | DInt z => of_int ((z * region_length) / read_length self)
    | DFloat x =>
        len <- of_int region_length ;;
        rl <- of_int (read_length self) ;;
        Some (div (mul x len) rl)
    end.

(** [_calc_total_reads]. The square [delta_cn**2] is the C library's
    [pow], exact when [delta_cn] is an integer below [2^26]; copy
    numbers beyond that are left out. A divisor equal to zero is a
    [ZeroDivisionError] with an int read depth; with a NumPy read
    depth the code goes on with an infinity or a NaN, which is left
    out. *)
Definition _calc_total_reads (cellular_prev : float) (locus_start locus_end new_cn : Z)
    : option Z :=
  let P := cellular_prev in
  if Z.leb (2 ^ 26) (Z.abs (new_cn - 2)) then None
  else
    let '(delta_cn, no_net_change) :=
      if Z.eqb new_cn 2 then (one, true) else (of_Z (new_cn - 2), false) in
    let region_length := (locus_end - locus_start + 1)%Z in
    fn <- fragment_count region_length ;;
    let P := if eqb P one then div (of_Z 999) (of_Z 1000) else P in
    let den := add one (div (mul delta_cn P) two) in
    if eqb den zero then None
    else
      let d := div (mul (div (mul delta_cn delta_cn) (of_Z 4))
                        (mul (mul fn P) (sub two P)))
                   den in
      d <- (if no_net_change
            then rl <- of_int (read_length self) ;; Some (mul d (div rl (of_Z 1000)))
            else Some d) ;;
      mx <- _max_reads ;;
      to_int (round (if ltb mx d then mx else d)).

Definition _format_overlapping_variants (variants : list nat) (maj_cn min_cn : Z)
    : list overlap :=
  map (fun ssm_id => (ssm_id, min_cn, maj_cn)) variants.

Definition format_one (chrom : string) (variants : list FormattedVariant)
    (cnv : CnvRegion) : option FormattedCnv :=
  let overlapping := _find_overlapping_variants chrom cnv variants in
  total <- _calc_total_reads (cellular_prevalence cnv) (start cnv) (end_ cnv)
             (major_cn cnv + minor_cn cnv) ;;
  ref <- _calc_ref_reads (cellular_prevalence cnv) total ;;
  Some {| chrom := chrom;
          f_start := start cnv;
          f_end := end_ cnv;
          f_major_cn := major_cn cnv;
          f_minor_cn := minor_cn cnv;
          f_prevalence := cellular_prevalence cnv;
          ref_reads := ref;
          total_reads := total;
          overlapping_variants :=
            _format_overlapping_variants overlapping (major_cn cnv) (minor_cn cnv);
          cnv_id := None |}.

(** The chromosome-region pairs in the order [_format_cnvs] visits
    them. *)
Definition region_pairs (cnvs : region_map) : list (string * CnvRegion) :=
  flat_map (fun kv : string * list CnvRegion =>
              map (fun cnv => (fst kv, cnv)) (snd kv)) cnvs.

(** [list(self._format_cnvs(cnvs, variants))]. *)
Definition _format_cnvs (cnvs : region_map) (variants : list FormattedVariant)
    : option (list FormattedCnv) :=
  Exc.mapM (fun cr : string * CnvRegion => format_one (fst cr) variants (snd cr))
    (region_pairs cnvs).

Definition _merge_variants (ov1 ov2 : list overlap) : list overlap :=
  let names := map (fun v : overlap => fst (fst v)) ov1 in
  ov1 ++ filter (fun v : overlap =>
                   negb (existsb (Nat.eqb (fst (fst v))) names)) ov2.

(** [formatted.sort(key = cellular_prevalence)]: a stable ascending
    sort, for keys that are not NaN. *)
Fixpoint insert_by_prev (x : FormattedCnv) (l : list FormattedCnv) : list FormattedCnv :=
  match l with
  | [] => [x]
  | y :: t =>
      if leb (f_prevalence x) (f_prevalence y) then x :: l
      else y :: insert_by_prev x t
  end.

Definition sort_by_prev (l : list FormattedCnv) : list FormattedCnv :=
  fold_right insert_by_prev [] l.

Definition set_id (n : nat) (c : FormattedCnv) : FormattedCnv :=
  {| chrom := chrom c; f_start := f_start c; f_end := f_end c;
     f_major_cn := f_major_cn c; f_minor_cn := f_minor_cn c;
     f_prevalence := f_prevalence c; ref_reads := ref_reads c;
     total_reads := total_reads c;
     overlapping_variants := overlapping_variants c;
     cnv_id := Some n |}.

(** The body of the merge branch: [last] absorbs [current]. *)
Definition absorb (last current : FormattedCnv) : option FormattedCnv :=
  let total := (total_reads current + total_reads last)%Z in
  ref <- _calc_ref_reads (f_prevalence last) total ;;
  Some {| chrom := chrom last; f_start := f_start last; f_end := f_end last;
          f_major_cn := f_major_cn last; f_minor_cn := f_minor_cn last;
          f_prevalence := f_prevalence last;
          ref_reads := ref;
          total_reads := total;
          overlapping_variants :=
            _merge_variants (overlapping_variants last) (overlapping_variants current);
          cnv_id := cnv_id last |}.

(** One iteration of [for current in formatted]; the state is [merged]
    held last-element-first and [counter]. *)
Definition merge_step (cellularity : float)
    (st : option (list FormattedCnv * nat)) (current : FormattedCnv)
    : option (list FormattedCnv * nat) :=
  st <- st ;;
  match st with
  | (last :: before, counter) =>
      if andb (eqb (f_prevalence current) (f_prevalence last))
              (eqb (f_prevalence last) cellularity)
      then merged <- absorb last current ;; Some (merged :: before, counter)
      else Some (set_id counter current :: last :: before, S counter)
  | ([], counter) => Some ([set_id counter current], S counter)
  end.

Definition merge_sorted (cellularity : float) (formatted : list FormattedCnv)
    : option (list FormattedCnv) :=
  match formatted with
  | [] => Some []
  | first :: rest =>
      st <- fold_left (merge_step cellularity) rest (Some ([set_id 0 first], 1%nat)) ;;
      Some (rev (fst st))
  end.

(** [format_and_merge_cnvs] up to, and not including, the last loop.
    A NaN prevalence, for which the order [list.sort] leaves is not
    that of a stable sort, is left out. *)
Definition merge_cnvs (cnvs : region_map) (variants : list FormattedVariant)
    : option (list FormattedCnv) :=
  formatted <- _format_cnvs cnvs variants ;;
  if existsb (fun f => is_nan (f_prevalence f)) formatted then None
  else merge_sorted (find_cellularity cnvs) (sort_by_prev formatted).

End Formatter.

End Cnv64.

(** ** The imputation of total read counts in binary64 *)

(** [impute_missing_total_reads] on a NumPy array of doubles, in which
    NaN marks a missing count. [None] stands for a failed [assert] and
    for the inputs, named below, that this module leaves out. *)
Module Impute64.
Import Impute F64.

Section Gmean.

(** [scipy.stats.mstats.gmean] along one axis, for one vector of that
    axis in which the NaN entries are the masked ones and some entry is
    not masked: [exp(mean(log x))] over the unmasked entries, computed
    by NumPy and the C library. *)
Variable gmean : list float -> float.

(** A positive, finite double. *)
Definition count (x : float) : bool := andb (is_finite x) (ltb zero x).

Definition count_or_missing (x : float) : bool := orb (is_nan x) (count x).

(** A vector whose entries are all masked has a masked mean, which the
    asserts below let through; this is left out. *)
Definition masked_gmean (xs : list float) : option float :=
  if forallb is_nan xs then None else Some (gmean xs).

Definition column (j : nat) (m : matrix float) : list float :=
  map (fun r => nth j r SpecFloat.S754_nan) (rows m).

(** [gmean(masked_total_reads, axis=0)]. *)
Definition sample_means_of (total_reads : matrix float) : option (list float) :=
  Exc.mapM (fun j => masked_gmean (column j total_reads))
    (seq 0 (n_samples total_reads)).

(** [means <= 0] and [np.isnan(means)] are both false. *)
Definition positive (x : float) : bool := andb (negb (leb x zero)) (negb (is_nan x)).

(** [assert np.sum(means <= 0) == np.sum(np.isnan(means)) == 0]. *)
Definition assert_positive (means : list float) : option (list float) :=
  if forallb positive means then Some means else None.

(** The same [assert] on the whole array. *)
Definition assert_all_positive (a : list (list float)) : option (list (list float)) :=
  if forallb (forallb positive) a then Some a else None.

(** [np.dot(masked_total_reads, np.diag(1./sample_means))]: every
    count times the inverse of its sample's mean, the products with the
    zeros off the diagonal adding nothing to it; a masked cell stays
    masked. *)
Definition normalize (sample_means : list float) (total_reads : matrix float)
    : list (list float) :=
  map (fun r => zip_with (fun x s => mul x (div one s)) r sample_means)
      (rows total_reads).

(** [total_reads[nan_coords] = imputed_counts[nan_coords]]. *)
Definition fill (x imputed : float) : float := if is_nan x then imputed else x.

(** [total_reads[nan_coords] *= missing_variant_confidence]. *)
Definition scale_missing (conf x filled : float) : float :=
  if is_nan x then mul filled conf else filled.

(** [np.floor(x).astype(np.int)]; the conversion of a NaN, of an
    infinity and of a value outside the 64-bit range is left out. *)
Definition floor_int (x : float) : option Z := z <- floor x ;; int64 z.

(** Left out: a matrix with an infinite count, a sample mean at or
    below [tiny] (whose inverse NumPy masks) and a normalized count that
    is zero or infinite (which [gmean] masks or turns into an infinite
    mean). A count that is zero or negative fails the last [assert]
    whatever comes before it. *)
Definition impute_missing_total_reads (total_reads : matrix float)
    (missing_variant_confidence : float) : option (matrix Z) :=
  if negb (forallb (forallb count_or_missing) (rows total_reads)) then None
  else
    sample_means <- sample_means_of total_reads ;;
    sample_means <- assert_positive sample_means ;;
    if existsb (fun s => leb s tiny) sample_means then None
    else
      let normalized_to_sample := normalize sample_means total_reads in
      if negb (forallb (forallb count_or_missing) normalized_to_sample) then None
      else
        variant_mean_reads <- Exc.mapM masked_gmean normalized_to_sample ;;
        variant_mean_reads <- assert_positive variant_mean_reads ;;
        let imputed_counts :=
          map (fun v => map (fun s => mul v s) sample_means) variant_mean_reads in
        let filled := zip_with (zip_with fill) (rows total_reads) imputed_counts in
        filled <- assert_all_positive filled ;;
        let scaled :=
          zip_with (zip_with (scale_missing missing_variant_confidence))
            (rows total_reads) filled in
        new_rows <- Exc.mapM (Exc.mapM floor_int) scaled ;;
        Some (mkMatrix (n_samples total_reads) new_rows).

End Gmean.

End Impute64.

(** ** Reading the CNV list *)

Module CnvFile.
Import Variant Cnv.

(** A row as [csv.DictReader] yields it: the column names of the
    header with the row's strings. *)
Definition record := list (string * string).

(** [record[key]]; a missing column is a [KeyError]. *)
Fixpoint get (key : string) (r : record) : option string :=
  match r with
  | [] => None
  | (k, v) :: t => if String.eqb k key then Some v else get key t
  end.

(** [cn_regions[chrom].append(record)] on a [defaultdict(list)]. *)
Fixpoint append_to (chrom : string) (region : CnvRegion) (m : region_map)
    : region_map :=
  match m with
  | [] => [(chrom, [region])]
  | (k, regs) :: t =>
      if String.eqb k chrom then (k, regs ++ [region]) :: t
      else (k, regs) :: append_to chrom region t
  end.

(** [sorted(regions, key = lambda r: r['start'])]: a stable ascending
    sort. *)
Fixpoint insert_by_start (x : CnvRegion) (l : list CnvRegion) : list CnvRegion :=
  match l with
  | [] => [x]
  | y :: t => if Z.leb (start x) (start y) then x :: l else y :: insert_by_start x t
  end.

Definition sort_by_start (l : list CnvRegion) : list CnvRegion :=
  fold_right insert_by_start [] l.

Section Reader.

(** Python's [float] on the strings of the prevalence column. *)
Variable float : string -> option Q.

(** The body of [for record in reader], up to the [append]. *)
Definition convert (r : record) : option (string * CnvRegion) :=
  chrom <- get "chromosome" r ;;
  start_s <- get "start" r ;;
  start <- int_of_string start_s ;;
  end_s <- get "end" r ;;
  end_ <- int_of_string end_s ;;
  major_s <- get "major_cn" r ;;
  major_cn <- int_of_string major_s ;;
  minor_s <- get "minor_cn" r ;;
  minor_cn <- int_of_string minor_s ;;
  prev_s <- get "cellular_prevalence" r ;;
  prev <- float prev_s ;;
  Some (chrom, mkRegion start end_ major_cn minor_cn prev).

Definition group (converted : list (string * CnvRegion)) : region_map :=
  fold_left (fun m (cr : string * CnvRegion) => append_to (fst cr) (snd cr) m)
            converted [].

(** [CnvParser.parse] on the rows of the file. *)
Definition parse (rows : list record) : option region_map :=
  converted <- Exc.mapM convert rows ;;
  Some (map (fun kv : string * list CnvRegion => (fst kv, sort_by_start (snd kv)))
            (group converted)).

End Reader.

(** The converted rows of one chromosome, in file order. *)
Definition rows_of (chrom : string) (converted : list (string * CnvRegion))
    : list CnvRegion :=
  map snd (filter (fun cr : string * CnvRegion => String.eqb (fst cr) chrom) converted).

Definition start_le (a b : CnvRegion) : Prop := (start a <= start b)%Z.

(** The regions of a list that start at [s]. *)
Definition starting_at (s : Z) (l : list CnvRegion) : list CnvRegion :=
  filter (fun r => Z.eqb (start r) s) l.

End CnvFile.

(** ** Notions used to state the properties of the parsed variants *)

Module ParseSpec.
Import Variant Vcf Pipeline.

(** A record as [_parse_vcf] rewrites it. *)
Definition normalized (variant : VcfRecord) : VcfRecord :=
  set_chrom variant (normalize_chrom (r_CHROM variant)).

(** The sort key of an autosomal variant. *)
Definition autosomal_key (id : VariantId) : Prop :=
  exists k, variant_key id = Some (k, POS id) /\ (1 <= k <= 22)%Z.

(** An argument whose file is read, with what [list_variants]
    returns for it. *)
Definition parsed_by (fs : string -> option (list VcfRecord)) (args : Args)
    (vcf_file : string) (parsed : list (VcfRecord * Z * Z)) : Prop :=
  exists vcf_type vcf_fn variant_parser,
    Vcf.split_once "=" vcf_file = Some (vcf_type, vcf_fn) /\
    select_parser args vcf_type vcf_fn = Some variant_parser /\
    list_variants fs variant_parser = Ok parsed.

(** [all_variant_ids] before duplicates are removed. *)
Definition all_ids (parsed_variants : list (list (VcfRecord * Z * Z)))
    : list VariantId :=
  concat (map (map (fun v : VcfRecord * Z * Z => id_of (fst (fst v)))) parsed_variants).

(** Strictly ascending sort keys, and identities in strictly ascending
    order of their keys. *)
Definition key_lt (a b : Z * Z) : Prop := key_leb a b = true /\ a <> b.

Definition id_lt (a b : VariantId) : Prop :=
  exists ka kb, variant_key a = Some ka /\ variant_key b = Some kb /\ key_lt ka kb.

End ParseSpec.

(** ** Notions used to state the properties of the adapters *)

Module AdapterSpec.
Import Variant Vcf.

(** A field value that holds no negative number: an integer, each
    element of a list, or a string that [int] does not read as a
    negative number. *)
Definition nonneg_value (v : value) : Prop :=
  match v with
  | VInt z => (0 <= z)%Z
  | VStr s =>
      match int_of_string s with
      | Some z => (0 <= z)%Z
      | None => True
      end
  | VList l => Forall (fun z => (0 <= z)%Z) l
  end.

Definition nonneg_fields (fields : list (string * value)) : Prop :=
  Forall (fun kv : string * value => nonneg_value (snd kv)) fields.

(** A record none of whose INFO or sample fields is negative. *)
Definition nonneg_record (variant : VcfRecord) : Prop :=
  nonneg_fields (r_INFO variant) /\
  Forall (fun call => nonneg_fields (data call)) (r_samples variant).

(** The adapters that return the reference count together with the sum
    of the reference and the variant count. *)
Definition adds_counts (k : caller) : bool :=
  match k with
  | Muse _ | Strelka => false
  | _ => true
  end.

(** The sample columns that bear a name. *)
Definition named (name : string) (samples : list Call) : list Call :=
  filter (fun s => String.eqb (sample s) name) samples.

End AdapterSpec.

(** ** Notions used to state the properties of the binary64 formatter *)

Module Cnv64Spec.
Import F64 Cnv64.

(** [(1 - P/2) * total_reads] as Python evaluates it: the quotient,
    the difference and the product are each rounded to a double. *)
Definition product (P : float) (total_reads : Z) : option float :=
  t <- of_int total_reads ;;
  Some (mul (sub one (div P two)) t).

(** The integer part of the number a float stands for. *)
Definition integer_part (x : float) : Z :=
  if sign_clear x then Qfloor (to_Q x) else Qceiling (to_Q x).

(** [ref_reads] is the integer part of that product. *)
Definition agrees (f : FormattedCnv) : Prop :=
  exists x,
    product (f_prevalence f) (total_reads f) = Some x /\
    is_finite x = true /\
    ref_reads f = integer_part x.

(** What the formatter and the merge maintain on every row: its
    [ref_reads] is what [_calc_ref_reads] returns for its prevalence
    and its [total_reads]. *)
Definition kept (f : FormattedCnv) : Prop :=
  _calc_ref_reads (f_prevalence f) (total_reads f) = Some (ref_reads f).

(** A row that describes region [cnv] of chromosome [c]. *)
Definition row_of (c : string) (cnv : CnvRegion) (f : FormattedCnv) : Prop :=
  chrom f = c /\ f_start f = start cnv /\ f_end f = end_ cnv /\
  f_major_cn f = major_cn cnv /\ f_minor_cn f = minor_cn cnv /\
  f_prevalence f = cellular_prevalence cnv.

(** The double nearest to [n / d]. *)
Definition ratio (n d : Z) : float := div (of_Z n) (of_Z d).

End Cnv64Spec.

(** ** Notions used to state the properties of the binary64 imputation *)

Module Impute64Spec.
Import Impute F64 Impute64.

Section Gmean.
Variable gmean : list float -> float.

(** A sample's geometric-mean total read depth. *)
Definition sample_mean (m : matrix float) (j : nat) : option float :=
  masked_gmean gmean (column j m).

(** A variant's depth enrichment in each sample: its read count times
    the inverse of the sample's geometric mean, both operations
    rounded. *)
Definition enrichment (m : matrix float) (r : list float) : option (list float) :=
  sm <- sample_means_of gmean m ;;
  Some (zip_with (fun x s => mul x (div one s)) r sm).

(** A variant's geometric-mean depth enrichment across samples. *)
Definition variant_mean (m : matrix float) (r : list float) : option float :=
  e <- enrichment m r ;; masked_gmean gmean e.

(** The product of the two means, then the product with the
    confidence factor, each rounded to a double. *)
Definition scaled_product (v s conf : float) : float := mul (mul v s) conf.

End Gmean.

End Impute64Spec.

(** ** Sample inputs in binary64 *)

Module Examples64.
Import F64 Cnv64 Cnv64Spec.

(** The double nearest to 0.6, which is below 0.6. *)
Definition ex_prevalence : float := ratio 6 10.

(** A formatter with the read depth 50.0 that [np.nanmean] returns and
    reads of length 100. *)
Definition ex_formatter : CnvFormatter :=
  mkFormatter (ratio 1 2) ex_prevalence (DFloat (of_Z 50)) 100.

(** One region of copy number 2 + 1 on chromosome 1. *)
Definition ex_region : CnvRegion := mkRegion 1 1114 2 1 ex_prevalence.

Definition ex_cnvs : region_map := [("1"%string, [ex_region])].

(** The row the formatter yields for it. *)
Definition ex_row : FormattedCnv :=
  mkFCnv "1" 1 1114 2 1 ex_prevalence 62 90 [] None.

(** The total_reads matrix [[3, nan], [3, 3]]. *)
Definition three : float := of_Z 3.

Definition ex_threes : Impute.matrix float :=
  Impute.mkMatrix 2 [[three; SpecFloat.S754_nan]; [three; three]].

(** 3.0000000000000004, the double above 3, and 0.9999999999999998,
    the second double below 1. *)
Definition three_up : float := SpecFloat.S754_finite false 6755399441055745 (-51).

Definition below_one : float := SpecFloat.S754_finite false 9007199254740990 (-53).

(** [gmean] on the vectors that arise from [ex_threes]: a vector whose
    unmasked entries are all 3 has the mean [exp(log(3))], which the C
    library evaluates to 3.0000000000000004, and one whose unmasked
    entries are all 0.9999999999999998 has that number as its mean.
    No other vector is given a mean here. *)
Definition ex_gmean (xs : list float) : float :=
  let unmasked := filter (fun x => negb (is_nan x)) xs in
  if forallb (eqb three) unmasked then three_up
  else if forallb (eqb below_one) unmasked then below_one
  else SpecFloat.S754_nan.

(** The same matrix with exact numbers. *)
Definition ex_threes_exact : Impute.matrix Impute.cell :=
  Impute.mkMatrix 2 [[Some 3%R; None]; [Some 3%R; Some 3%R]].

End Examples64.

(** ** Facts about the numeric helpers *)

Module PyNumFacts.
Import PyNum.
Local Open Scope Q_scope.

Lemma Qle_bool_true (a b : Q) : Qle_bool a b = true -> a <= b.
Proof. apply Qle_bool_iff. Qed.

Lemma Qle_bool_false (a b : Q) : Qle_bool a b = false -> b < a.
Proof.
  intros H. apply Qnot_le_lt. intros Hle.
  apply Qle_bool_iff in Hle. congruence.
Qed.

Lemma py_int_nonneg (x : Q) : 0 <= x -> py_int x = Qfloor x.
Proof.
  intros H. unfold py_int.
  destruct (Qle_bool 0 x) eqn:E; [reflexivity|].
  apply Qle_bool_false in E. lra.
Qed.

Lemma Qfloor_nonneg (x : Q) : 0 <= x -> (0 <= Qfloor x)%Z.
Proof.
  intros H. change 0%Z with (Qfloor 0). now apply Qfloor_resp_le.
Qed.

Lemma py_round_nonneg (x : Q) : 0 <= x -> (0 <= py_round x)%Z.
Proof.
  intros H. unfold py_round.
  destruct (Qle_bool 0 x) eqn:E.
  - apply Qfloor_nonneg. lra.
  - apply Qle_bool_false in E. lra.
Qed.

Lemma py_min_nonneg (a b : Q) : 0 <= a -> 0 <= b -> 0 <= py_min a b.
Proof.
  intros Ha Hb. unfold py_min. now destruct (negb (Qle_bool a b)).
Qed.

Lemma Qdiv_nonneg (a b : Q) : 0 <= a -> 0 < b -> 0 <= a / b.
Proof.
  intros Ha Hb. unfold Qdiv. apply Qmult_le_0_compat; [assumption|].
  apply Qinv_le_0_compat. lra.
Qed.

Lemma inject_Z_nonneg (z : Z) : (0 <= z)%Z -> 0 <= inject_Z z.
Proof. intros H. change 0 with (inject_Z 0). now rewrite <- Zle_Qle. Qed.

Lemma inject_Z_pos (z : Z) : (0 < z)%Z -> 0 < inject_Z z.
Proof. intros H. change 0 with (inject_Z 0). now rewrite <- Zlt_Qlt. Qed.

(** [floor(q) <= z] as soon as [q <= z]; [z <= floor(q)] as soon as
    [z <= q]. *)
Lemma Qfloor_le_Z (q : Q) (z : Z) : q <= inject_Z z -> (Qfloor q <= z)%Z.
Proof.
  intros H. rewrite <- (Qfloor_Z z). now apply Qfloor_resp_le.
Qed.

Lemma Z_le_Qfloor (q : Q) (z : Z) : inject_Z z <= q -> (z <= Qfloor q)%Z.
Proof.
  intros H. rewrite <- (Qfloor_Z z). now apply Qfloor_resp_le.
Qed.

End PyNumFacts.

(** ** The exception monad on lists *)

Module ExcFacts.

Lemma mapM_Forall2 {A B : Type} (f : A -> option B) (l : list A) (ys : list B) :
  Exc.mapM f l = Some ys -> Forall2 (fun x y => f x = Some y) l ys.
Proof.
  revert ys. induction l as [|x t IH]; intros ys H; cbn in H.
  - injection H as <-. constructor.
  - destruct (f x) as [y|] eqn:Ex; [|discriminate].
    destruct (Exc.mapM f t) as [ys'|]; [|discriminate].
    injection H as <-. constructor; auto.
Qed.

Lemma mapM_total {A B : Type} (f : A -> option B) (l : list A) :
  Forall (fun x => exists y, f x = Some y) l -> exists ys, Exc.mapM f l = Some ys.
Proof.
  induction 1 as [|x t [y Ey] _ [ys Eys]]; cbn.
  - now exists [].
  - rewrite Ey, Eys. now eexists.
Qed.

Lemma Forall2_In_l {A B : Type} (R : A -> B -> Prop) (l : list A) (l' : list B) x :
  Forall2 R l l' -> In x l -> exists y, In y l' /\ R x y.
Proof.
  induction 1 as [|a b t t' Hab _ IH]; intros Hin; [destruct Hin|].
  destruct Hin as [->|Hin].
  - exists b. split; [now left | assumption].
  - destruct (IH Hin) as (y & Hy & Hxy). exists y. split; [now right | assumption].
Qed.

Lemma Forall2_In_r {A B : Type} (R : A -> B -> Prop) (l : list A) (l' : list B) y :
  Forall2 R l l' -> In y l' -> exists x, In x l /\ R x y.
Proof.
  induction 1 as [|a b t t' Hab _ IH]; intros Hin; [destruct Hin|].
  destruct Hin as [->|Hin].
  - exists a. split; [now left | assumption].
  - destruct (IH Hin) as (x & Hx & Hxy). exists x. split; [now right | assumption].
Qed.

End ExcFacts.

(** ** The CNV read-count formulas *)

Module CnvFacts.
Import PyNum PyNumFacts Variant Cnv CnvSpec.
Local Open Scope Q_scope.

Lemma ref_fraction_bounds (P t : Q) :
  0 <= P <= 1 -> 0 <= t -> t / 2 <= (1 - P / 2) * t <= t.
Proof.
  intros [HP0 HP1] Ht.
  assert (E : (1 - P / 2) * t == t - (P * t) / 2) by field.
  assert (H0 : 0 <= P * t) by (apply Qmult_le_0_compat; assumption).
  assert (H1 : P * t <= t).
  { setoid_replace t with (1 * t) at 2 by ring.
    apply Qmult_le_compat_r; assumption. }
  rewrite E. split.
  - assert (E2 : t - P * t / 2 - t / 2 == (t - P * t) / 2) by field.
    apply Qplus_le_l with (z := - (t / 2)).
    setoid_replace (t / 2 + - (t / 2)) with 0 by ring.
    setoid_replace (t - P * t / 2 + - (t / 2)) with ((t - P * t) / 2) by field.
    apply Qdiv_nonneg; lra.
  - assert (0 <= P * t / 2) by (apply Qdiv_nonneg; lra).
    lra.
Qed.

Lemma calc_ref_reads_floor (P : Q) (total : Z) :
  0 <= P <= 1 -> (0 <= total)%Z ->
  _calc_ref_reads P total = Qfloor ((1 - P / 2) * inject_Z total).
Proof.
  intros HP Ht. unfold _calc_ref_reads. apply py_int_nonneg.
  pose proof (ref_fraction_bounds HP (inject_Z_nonneg Ht)) as [Hlo _].
  assert (0 <= inject_Z total / 2)
    by (apply Qdiv_nonneg; [now apply inject_Z_nonneg | lra]).
  lra.
Qed.

Lemma calc_ref_reads_bounds (P : Q) (total : Z) :
  0 <= P <= 1 -> (0 <= total)%Z ->
  (total / 2 <= _calc_ref_reads P total <= total)%Z.
Proof.
  intros HP Ht. rewrite calc_ref_reads_floor by assumption.
  pose proof (ref_fraction_bounds HP (inject_Z_nonneg Ht)) as [Hlo Hhi].
  split.
  - rewrite Zdiv_Qdiv. now apply Qfloor_resp_le.
  - now apply Qfloor_le_Z.
Qed.

Lemma fragment_count_ok (self : CnvFormatter) (len : Z) :
  wf_formatter self -> (0 <= len)%Z ->
  exists fn, fragment_count self len = Some fn /\ 0 <= fn.
Proof.
  intros (Hd & Hl) Hlen. unfold fragment_count.
  destruct (Z.eqb_spec (read_length self) 0) as [E|_]; [lia|].
  unfold depth_value in Hd.
  destruct (read_depth self) as [z|q]; eexists; (split; [reflexivity|]).
  - apply inject_Z_nonneg. apply Z.div_pos; [|assumption].
    apply Z.mul_nonneg_nonneg; [|assumption].
    change 0 with (inject_Z 0) in Hd. now rewrite <- Zle_Qle in Hd.
  - apply Qdiv_nonneg; [|now apply inject_Z_pos].
    apply Qmult_le_0_compat; [assumption | now apply inject_Z_nonneg].
Qed.

Lemma guarded_prevalence (P : Q) :
  0 <= P <= 1 ->
  let P' := if Qeq_bool P 1 then 999 # 1000 else P in 0 <= P' /\ P' < 1.
Proof.
  intros [H0 H1]. cbv zeta.
  destruct (Qeq_bool P 1) eqn:E.
  - split; lra.
  - split; [assumption|].
    apply Qeq_bool_neq in E. apply Qle_lt_or_eq in H1. tauto.
Qed.

Lemma calc_total_reads_ok (self : CnvFormatter) (P : Q) (s e n : Z) :
  wf_formatter self -> 0 <= P <= 1 -> (s <= e)%Z -> (0 <= n)%Z ->
  exists t, _calc_total_reads self P s e n = Some t /\ (0 <= t)%Z.
Proof.
  intros Hself HP Hse Hn.
  assert (Hmax : 0 <= _max_reads self).
  { unfold _max_reads. apply Qmult_le_0_compat; [discriminate | apply Hself]. }
  destruct (fragment_count_ok (len := (e - s + 1)%Z) Hself ltac:(lia))
    as (fn & Efn & Hfn).
  pose proof (guarded_prevalence HP) as HP'. cbv zeta in HP'.
  unfold _calc_total_reads.
  set (dn := if Z.eqb n 2 then (1, true) else (inject_Z (n - 2), false)).
  assert (Hdelta : - (2) <= fst dn).
  { subst dn. destruct (Z.eqb n 2); cbn [fst]; [discriminate|].
    change (- (2)) with (inject_Z (-2)). rewrite <- Zle_Qle. lia. }
  destruct dn as [delta_cn no_net_change]. cbn [fst] in Hdelta.
  rewrite Efn. cbn [Exc.bind].
  set (P' := if Qeq_bool P 1 then 999 # 1000 else P) in *.
  destruct HP' as [HP0 HP1].
  assert (Hden : 0 < 1 + delta_cn * P' / 2).
  { assert (- P' <= delta_cn * P' / 2).
    { setoid_replace (delta_cn * P' / 2) with ((delta_cn / 2) * P') by field.
      setoid_replace (- P') with ((- (1)) * P') by ring.
      apply Qmult_le_compat_r; [|assumption].
      setoid_replace (- (1)) with ((- (2)) / 2) by field.
      unfold Qdiv. apply Qmult_le_compat_r; [assumption | discriminate]. }
    lra. }
  destruct (Qeq_bool (1 + delta_cn * P' / 2) 0) eqn:E.
  { apply Qeq_bool_eq in E. lra. }
  eexists; split; [reflexivity|].
  apply py_round_nonneg, py_min_nonneg; [|assumption].
  assert (Hd : 0 <= delta_cn * delta_cn / 4 * (fn * P' * (2 - P')) /
                    (1 + delta_cn * P' / 2)).
  { apply Qdiv_nonneg; [|assumption].
    apply Qmult_le_0_compat.
    - apply Qdiv_nonneg; [|lra].
      destruct (Qlt_le_dec delta_cn 0) as [Hneg|Hpos].
      + setoid_replace (delta_cn * delta_cn) with ((- delta_cn) * (- delta_cn)) by ring.
        apply Qmult_le_0_compat; lra.
      + apply Qmult_le_0_compat; assumption.
    - repeat apply Qmult_le_0_compat; try assumption; lra. }
  destruct no_net_change; [|assumption].
  apply Qmult_le_0_compat; [assumption|].
  apply Qdiv_nonneg; [|lra].
  apply inject_Z_nonneg. destruct Hself as (_ & Hl). lia.
Qed.

Lemma format_one_ok (self : CnvFormatter) (chrom : string)
    (variants : list FormattedVariant) (cnv : CnvRegion) :
  wf_formatter self -> wf_region cnv ->
  exists f, format_one self chrom variants cnv = Some f /\
            f_prevalence f = cellular_prevalence cnv /\
            (0 <= total_reads f)%Z /\
            ref_reads f = _calc_ref_reads (f_prevalence f) (total_reads f).
Proof.
  intros Hself (HP & Hse & Hmaj & Hmin).
  destruct (calc_total_reads_ok (s := start cnv) (e := end_ cnv)
              (n := (major_cn cnv + minor_cn cnv)%Z) Hself HP Hse ltac:(lia))
    as (t & Et & Ht).
  unfold format_one. rewrite Et. cbn [Exc.bind].
  eexists; split; [reflexivity|]. cbn. auto.
Qed.

Lemma format_one_consistent (self : CnvFormatter) (chrom : string)
    (variants : list FormattedVariant) (cnv : CnvRegion) :
  wf_formatter self -> wf_region cnv ->
  exists f, format_one self chrom variants cnv = Some f /\ consistent f.
Proof.
  intros Hself Hcnv.
  destruct (format_one_ok chrom variants Hself Hcnv) as (f & E & HP & Ht & Hr).
  exists f. split; [assumption|]. unfold consistent. rewrite HP.
  destruct Hcnv as (H & _). rewrite <- HP. rewrite HP at 1 2. auto.
Qed.

Lemma consistent_floor (f : FormattedCnv) :
  consistent f ->
  ref_reads f = Qfloor ((1 - f_prevalence f / 2) * inject_Z (total_reads f)).
Proof.
  intros (HP & Ht & ->). now apply calc_ref_reads_floor.
Qed.

Lemma consistent_bounds (f : FormattedCnv) :
  consistent f -> (total_reads f / 2 <= ref_reads f <= total_reads f)%Z.
Proof.
  intros (HP & Ht & ->). now apply calc_ref_reads_bounds.
Qed.

Lemma consistent_set_id (n : nat) (f : FormattedCnv) :
  consistent f -> consistent (set_id n f).
Proof. intros H. exact H. Qed.

Lemma consistent_absorb (l x : FormattedCnv) :
  consistent l -> consistent x -> consistent (absorb l x).
Proof.
  intros (HP & Ht & _) (_ & Hx & _). unfold consistent. cbn.
  repeat split; try apply HP. lia.
Qed.

End CnvFacts.

(** ** Sorting by prevalence and the cellularity *)

Module SortFacts.
Import PyNum PyNumFacts Cnv CnvSpec.
Local Open Scope Q_scope.

Lemma insert_by_prev_perm (x : FormattedCnv) (l : list FormattedCnv) :
  Permutation (x :: l) (insert_by_prev x l).
Proof.
  induction l as [|y t IH]; cbn; [reflexivity|].
  destruct (Qle_bool (f_prevalence x) (f_prevalence y)); [reflexivity|].
  rewrite perm_swap. now constructor.
Qed.

Lemma sort_by_prev_perm (l : list FormattedCnv) : Permutation l (sort_by_prev l).
Proof.
  induction l as [|x t IH]; cbn; [reflexivity|].
  rewrite <- insert_by_prev_perm. now constructor.
Qed.

Lemma insert_by_prev_sorted (x : FormattedCnv) (l : list FormattedCnv) :
  StronglySorted prev_le l -> StronglySorted prev_le (insert_by_prev x l).
Proof.
  induction 1 as [|y t Hs IH Hy]; cbn.
  - constructor; constructor.
  - destruct (Qle_bool (f_prevalence x) (f_prevalence y)) eqn:E.
    + apply Qle_bool_true in E. constructor; [now constructor|].
      constructor; [assumption|].
      eapply Forall_impl; [|exact Hy]. intros z Hz. unfold prev_le in *. lra.
    + apply Qle_bool_false in E. constructor; [assumption|].
      eapply Permutation_Forall; [apply insert_by_prev_perm|].
      constructor; [unfold prev_le; lra | assumption].
Qed.

Lemma sort_by_prev_sorted (l : list FormattedCnv) :
  StronglySorted prev_le (sort_by_prev l).
Proof.
  induction l as [|x t IH]; cbn; [constructor|].
  now apply insert_by_prev_sorted.
Qed.

Lemma find_cellularity_flat (cnvs : region_map) :
  find_cellularity cnvs = fold_left max_step (all_regions cnvs) 0.
Proof.
  unfold find_cellularity, all_regions. generalize 0.
  induction cnvs as [|[k regs] t IH]; intros q; cbn; [reflexivity|].
  rewrite fold_left_app. apply IH.
Qed.

Lemma fold_max_step_spec (l : list CnvRegion) (q : Q) :
  let m := fold_left max_step l q in
  q <= m /\ Forall (fun r => cellular_prevalence r <= m) l /\
  (m = q \/ exists r, In r l /\ m = cellular_prevalence r).
Proof.
  revert q. induction l as [|r t IH]; intros q; cbn.
  - repeat split; [lra | constructor | now left].
  - destruct (IH (max_step q r)) as (Hle & Hall & Hwit).
    assert (Hq : q <= max_step q r /\ cellular_prevalence r <= max_step q r).
    { unfold max_step. destruct (Qle_bool (cellular_prevalence r) q) eqn:E; cbn.
      - apply Qle_bool_true in E. split; lra.
      - apply Qle_bool_false in E. split; lra. }
    split; [lra|]. split.
    + constructor; [lra | assumption].
    + destruct Hwit as [E|(r' & Hin & E)].
      * assert (Hc : max_step q r = cellular_prevalence r \/ max_step q r = q).
        { unfold max_step.
          destruct (negb (Qle_bool (cellular_prevalence r) q)); auto. }
        rewrite E. destruct Hc as [Hc|Hc].
        -- right. exists r. split; [now left | assumption].
        -- now left.
      * right. exists r'. split; [now right | assumption].
Qed.

Lemma find_cellularity_upper (cnvs : region_map) (r : CnvRegion) :
  In r (all_regions cnvs) -> cellular_prevalence r <= find_cellularity cnvs.
Proof.
  intros Hin. rewrite find_cellularity_flat.
  destruct (fold_max_step_spec (all_regions cnvs) 0) as (_ & Hall & _).
  rewrite Forall_forall in Hall. now apply Hall.
Qed.

Lemma find_cellularity_nonneg (cnvs : region_map) : 0 <= find_cellularity cnvs.
Proof.
  rewrite find_cellularity_flat.
  now destruct (fold_max_step_spec (all_regions cnvs) 0) as (H & _ & _).
Qed.

(** With no negative prevalence, the cellularity is attained by some
    region as soon as there is one. *)
Lemma find_cellularity_attained (cnvs : region_map) :
  Forall (fun r => 0 <= cellular_prevalence r) (all_regions cnvs) ->
  all_regions cnvs <> [] ->
  exists r, In r (all_regions cnvs) /\ cellular_prevalence r == find_cellularity cnvs.
Proof.
  intros Hpos Hne. rewrite find_cellularity_flat.
  destruct (fold_max_step_spec (all_regions cnvs) 0) as (_ & Hall & [E|(r & Hin & E)]).
  - destruct (all_regions cnvs) as [|r t] eqn:El; [congruence|].
    exists r. split; [now left|].
    inversion Hpos; subst. inversion Hall; subst.
    cbn in *. rewrite E in *. lra.
  - exists r. split; [assumption|]. rewrite E. reflexivity.
Qed.

End SortFacts.

(** ** The merge pass *)

Module MergeFacts.
Import PyNum PyNumFacts Cnv CnvSpec SortFacts.
Local Open Scope Q_scope.

Section Merge.
Variable c : Q.

(** The test of the merge branch holds exactly when both regions sit at
    the cellularity. *)
Lemma merge_condition_iff (last current : FormattedCnv) :
  andb (Qeq_bool (f_prevalence current) (f_prevalence last))
       (Qeq_bool (f_prevalence last) c) = true <->
  (clonal c) current = true /\ (clonal c) last = true.
Proof.
  unfold clonal. rewrite andb_true_iff, !Qeq_bool_iff. split.
  - intros [H1 H2]. split; [now rewrite H1 | assumption].
  - intros [H1 H2]. split; [now rewrite H1, H2 | assumption].
Qed.

Lemma merge_step_nonclonal (last current : FormattedCnv) before n :
  (clonal c) current = false \/ (clonal c) last = false ->
  merge_step c (last :: before, n) current
  = (set_id n current :: last :: before, S n).
Proof.
  intros H. cbn.
  destruct (andb _ _) eqn:E; [|reflexivity].
  apply merge_condition_iff in E. destruct E, H; congruence.
Qed.

Lemma merge_step_clonal (last current : FormattedCnv) before n :
  (clonal c) current = true -> (clonal c) last = true ->
  merge_step c (last :: before, n) current = (absorb last current :: before, n).
Proof.
  intros H1 H2. cbn.
  destruct (andb _ _) eqn:E; [reflexivity|].
  assert (E' : andb (Qeq_bool (f_prevalence current) (f_prevalence last))
                    (Qeq_bool (f_prevalence last) c) = true)
    by now apply merge_condition_iff.
  congruence.
Qed.

Lemma number_app (l1 l2 : list FormattedCnv) n :
  number n (l1 ++ l2) = number n l1 ++ number (n + length l1) l2.
Proof.
  revert n. induction l1 as [|x t IH]; intros n; cbn.
  - now rewrite Nat.add_0_r.
  - rewrite IH. now rewrite Nat.add_succ_r.
Qed.

Lemma fold_merge_nonclonal (A : list FormattedCnv) :
  Forall (fun f => (clonal c) f = false) A ->
  forall last before n,
    fold_left (merge_step c) A (last :: before, n)
    = (rev (number n A) ++ last :: before, (n + length A)%nat).
Proof.
  induction 1 as [|a A' Ha _ IH]; intros last before n; cbn [fold_left].
  - cbn. now rewrite Nat.add_0_r.
  - rewrite merge_step_nonclonal by now left.
    rewrite IH. cbn [number rev length]. rewrite <- app_assoc. cbn.
    now rewrite Nat.add_succ_r.
Qed.

Lemma absorb_prevalence (l x : FormattedCnv) :
  f_prevalence (absorb l x) = f_prevalence l.
Proof. reflexivity. Qed.

Lemma fold_merge_clonal (B : list FormattedCnv) :
  Forall (fun f => (clonal c) f = true) B ->
  forall last before n, (clonal c) last = true ->
    fold_left (merge_step c) B (last :: before, n)
    = (fold_left absorb B last :: before, n).
Proof.
  induction 1 as [|b B' Hb _ IH]; intros last before n Hl; cbn [fold_left].
  - reflexivity.
  - rewrite merge_step_clonal by assumption. apply IH.
    unfold clonal in *. now rewrite absorb_prevalence.
Qed.

Lemma absorb_set_id (n : nat) (l x : FormattedCnv) :
  absorb (set_id n l) x = set_id n (absorb l x).
Proof. reflexivity. Qed.

Lemma fold_absorb_set_id (n : nat) (B : list FormattedCnv) (l : FormattedCnv) :
  fold_left absorb B (set_id n l) = set_id n (fold_left absorb B l).
Proof.
  revert l. induction B as [|b t IH]; intros l; cbn; [reflexivity|].
  now rewrite absorb_set_id, IH.
Qed.

Lemma clonal_set_id (n : nat) (f : FormattedCnv) : (clonal c) (set_id n f) = (clonal c) f.
Proof. reflexivity. Qed.

Lemma number_clonal (A : list FormattedCnv) n :
  Forall (fun f => (clonal c) f = false) A ->
  Forall (fun f => (clonal c) f = false) (number n A).
Proof.
  intros H. revert n. induction H as [|a t Ha _ IH]; intros n; cbn; constructor; auto.
Qed.

(** The merge pass on a list made of non-clonal regions followed by
    (clonal c) ones. *)
Lemma merge_sorted_split (A B : list FormattedCnv) :
  Forall (fun f => (clonal c) f = false) A ->
  Forall (fun f => (clonal c) f = true) B ->
  merge_sorted c (A ++ B) = number 0 (A ++ collapse B).
Proof.
  intros HA HB. destruct A as [|a0 A'].
  - cbn [app]. destruct B as [|b0 bs]; [reflexivity|].
    inversion HB as [|? ? Hb0 Hbs]; subst.
    cbn [merge_sorted collapse number].
    rewrite fold_merge_clonal by assumption.
    cbn. now rewrite fold_absorb_set_id.
  - inversion HA as [|? ? Ha0 HA']; subst.
    cbn [app merge_sorted]. rewrite fold_left_app.
    rewrite fold_merge_nonclonal by assumption.
    destruct B as [|b0 bs].
    + cbn [fold_left fst collapse]. rewrite app_nil_r.
      rewrite rev_app_distr, rev_involutive. reflexivity.
    + inversion HB as [|? ? Hb0 Hbs]; subst.
      cbn [fold_left collapse].
      assert (Hacc : exists last before,
                 rev (number 1 A') ++ [set_id 0 a0] = last :: before /\
                 (clonal c) last = false).
      { pose proof (number_clonal 1 HA') as Hn.
        destruct (rev (number 1 A')) as [|l r] eqn:Er.
        - exists (set_id 0 a0), []. now split.
        - exists l, (r ++ [set_id 0 a0]). split; [reflexivity|].
          assert (Hin : In l (number 1 A'))
            by (apply in_rev; rewrite Er; now left).
          rewrite Forall_forall in Hn. now apply Hn. }
      destruct Hacc as (last & before & Eacc & Hlast).
      rewrite Eacc. rewrite merge_step_nonclonal by now right.
      rewrite fold_merge_clonal by assumption.
      cbn [fst]. rewrite <- Eacc. cbn [rev].
      rewrite rev_app_distr, rev_involutive. cbn [rev app].
      change (a0 :: A' ++ [fold_left absorb bs b0])
        with ((a0 :: A') ++ [fold_left absorb bs b0]).
      rewrite number_app. cbn [number length app].
      rewrite fold_absorb_set_id. reflexivity.
Qed.

Lemma filter_all_clonal (l : list FormattedCnv) :
  Forall (fun f => (clonal c) f = true) l ->
  filter (nonclonal c) l = [] /\ filter (clonal c) l = l.
Proof.
  induction 1 as [|x t Hx _ [IH1 IH2]]; cbn [filter]; [now split|].
  assert (Hn : (nonclonal c) x = false) by (unfold nonclonal; now rewrite Hx).
  rewrite Hn, Hx, IH1, IH2. now split.
Qed.

(** A list sorted by ascending prevalence and bounded by [c] is its
    non-clonal regions followed by its (clonal c) regions. *)
Lemma sorted_split (F : list FormattedCnv) :
  StronglySorted prev_le F ->
  Forall (fun f => f_prevalence f <= c) F ->
  F = filter (nonclonal c) F ++ filter (clonal c) F.
Proof.
  induction 1 as [|x t Hs IH Hx]; intros Hb; [reflexivity|].
  inversion Hb as [|? ? Hxc Hbt]; subst. cbn [filter].
  unfold nonclonal at 1. destruct ((clonal c) x) eqn:Ex; cbn [negb].
  - assert (Hall : Forall (fun f => (clonal c) f = true) t).
    { rewrite Forall_forall in *. intros y Hy.
      specialize (Hx y Hy). specialize (Hbt y Hy).
      unfold clonal in *. apply Qeq_bool_iff in Ex. apply Qeq_bool_iff.
      unfold prev_le in Hx. lra. }
    destruct (filter_all_clonal Hall) as [-> ->]. reflexivity.
  - cbn [app]. f_equal. now apply IH.
Qed.

Lemma filter_clonal_Forall (F : list FormattedCnv) :
  Forall (fun f => (clonal c) f = true) (filter (clonal c) F) /\
  Forall (fun f => (clonal c) f = false) (filter (nonclonal c) F).
Proof.
  split; apply Forall_forall; intros f Hf; apply filter_In in Hf;
    destruct Hf as [_ Hf]; [assumption|].
  unfold nonclonal in Hf. now destruct ((clonal c) f).
Qed.

Lemma merge_sorted_spec (F : list FormattedCnv) :
  StronglySorted prev_le F ->
  Forall (fun f => f_prevalence f <= c) F ->
  merge_sorted c F = number 0 (filter (nonclonal c) F ++ collapse (filter (clonal c) F)).
Proof.
  intros Hs Hb. rewrite (sorted_split Hs Hb) at 1.
  destruct (filter_clonal_Forall F). now apply merge_sorted_split.
Qed.

(** What the accumulated region holds after absorbing [bs]. *)
Lemma fold_absorb_reads (bs : list FormattedCnv) (b : FormattedCnv) :
  let m := fold_left absorb bs b in
  f_prevalence m = f_prevalence b /\
  total_reads m = sum_total (b :: bs) /\
  (bs <> [] -> ref_reads m = _calc_ref_reads (f_prevalence b) (sum_total (b :: bs))).
Proof.
  revert b. induction bs as [|x t IH]; intros b; cbn [fold_left].
  - cbn. repeat split; [lia | congruence].
  - destruct (IH (absorb b x)) as (Hp & Ht & Hr).
    assert (Es : sum_total (absorb b x :: t) = sum_total (b :: x :: t))
      by (cbn; lia).
    cbv zeta. rewrite Hp, Ht, Es. repeat split.
    intros _. destruct t as [|y t'].
    + cbn. f_equal. lia.
    + rewrite Hr by discriminate. now rewrite Es.
Qed.

End Merge.

Section Invariant.
Variable Pr : FormattedCnv -> Prop.
Hypothesis Pr_set_id : forall n f, Pr f -> Pr (set_id n f).
Hypothesis Pr_absorb : forall l x, Pr l -> Pr x -> Pr (absorb l x).

Lemma merge_step_Forall (c : Q) (st : list FormattedCnv * nat) (cur : FormattedCnv) :
  Forall Pr (fst st) -> Pr cur -> Forall Pr (fst (merge_step c st cur)).
Proof.
  destruct st as [[|last before] n]; cbn; intros Hst Hcur.
  - constructor; auto.
  - inversion Hst; subst.
    destruct (andb _ _); cbn; repeat constructor; auto.
Qed.

Lemma fold_merge_Forall (c : Q) (l : list FormattedCnv) :
  Forall Pr l ->
  forall st, Forall Pr (fst st) -> Forall Pr (fst (fold_left (merge_step c) l st)).
Proof.
  induction 1 as [|x t Hx _ IH]; intros st Hst; cbn; [assumption|].
  apply IH. now apply merge_step_Forall.
Qed.

Lemma merge_sorted_Forall (c : Q) (l : list FormattedCnv) :
  Forall Pr l -> Forall Pr (merge_sorted c l).
Proof.
  intros H. destruct l as [|first rest]; cbn; [constructor|].
  inversion H; subst.
  apply Forall_rev. apply fold_merge_Forall; [assumption|].
  cbn. constructor; auto.
Qed.

End Invariant.

Lemma region_pairs_regions (cnvs : region_map) :
  map snd (region_pairs cnvs) = all_regions cnvs.
Proof.
  unfold region_pairs, all_regions.
  induction cnvs as [|[k regs] t IH]; cbn; [reflexivity|].
  rewrite map_app, IH. f_equal.
  rewrite map_map. cbn. apply map_id.
Qed.

Lemma wf_region_pairs (cnvs : region_map) :
  wf_region_map cnvs ->
  Forall (fun cr : string * CnvRegion => wf_region (snd cr)) (region_pairs cnvs).
Proof.
  unfold wf_region_map, region_pairs.
  induction 1 as [|[k regs] t Hk _ IH]; cbn; [constructor|].
  apply Forall_app. split; [|assumption].
  cbn in Hk. apply Forall_map. exact Hk.
Qed.

(** On well-formed input the formatter yields one consistent region
    per input region. *)
Lemma format_cnvs_ok (self : CnvFormatter) (cnvs : region_map)
    (variants : list Variant.FormattedVariant) :
  wf_formatter self -> wf_region_map cnvs ->
  exists formatted,
    _format_cnvs self cnvs variants = Some formatted /\
    Forall2 (fun (cr : string * CnvRegion) f =>
               format_one self (fst cr) variants (snd cr) = Some f)
            (region_pairs cnvs) formatted /\
    Forall consistent formatted.
Proof.
  intros Hself Hcnvs.
  pose proof (wf_region_pairs Hcnvs) as Hp.
  assert (Htot : exists formatted, _format_cnvs self cnvs variants = Some formatted).
  { apply ExcFacts.mapM_total.
    eapply Forall_impl; [|exact Hp]. intros cr Hcr. cbn beta.
    destruct (CnvFacts.format_one_ok (fst cr) variants Hself Hcr) as (f & E & _).
    now exists f. }
  destruct Htot as [formatted E]. exists formatted. split; [assumption|].
  pose proof (ExcFacts.mapM_Forall2 _ _ E) as H2. split; [exact H2|].
  apply Forall_forall. intros f Hf.
  destruct (ExcFacts.Forall2_In_r f H2 Hf) as (cr & Hcr & Ecr).
  rewrite Forall_forall in Hp. specialize (Hp cr Hcr).
  destruct (CnvFacts.format_one_consistent (fst cr) variants Hself Hp) as (f' & E' & Hc).
  cbn beta in Ecr. congruence.
Qed.

Lemma format_one_prevalence (self : CnvFormatter) chrom variants cnv f :
  format_one self chrom variants cnv = Some f ->
  f_prevalence f = cellular_prevalence cnv.
Proof.
  unfold format_one. destruct (_calc_total_reads _ _ _ _ _); cbn; [|discriminate].
  intros H. injection H as <-. reflexivity.
Qed.

End MergeFacts.

(** ** Subsampling *)

Module SubsampleFacts.
Import Variant Group GroupSpec.

Lemma key_leb_total (a b : Z * Z) : key_leb a b = false -> key_leb b a = true.
Proof.
  unfold key_leb. destruct a as [a1 a2], b as [b1 b2]. cbn.
  rewrite orb_false_iff, andb_false_iff, orb_true_iff, andb_true_iff.
  rewrite !Z.ltb_ge, !Z.ltb_lt, !Z.eqb_neq, !Z.eqb_eq, !Z.leb_gt, Z.leb_le. lia.
Qed.

Lemma key_le_trans (a b c : Z * Z) : key_le a b -> key_le b c -> key_le a c.
Proof.
  unfold key_le, key_leb. destruct a as [a1 a2], b as [b1 b2], c as [c1 c2]. cbn.
  rewrite !orb_true_iff, !andb_true_iff.
  rewrite !Z.ltb_lt, !Z.eqb_eq, !Z.leb_le. lia.
Qed.

Section Keyed.
Variable A : Type.

Definition fst_le (x y : (Z * Z) * A) : Prop := key_le (fst x) (fst y).

Lemma insert_by_key_perm (x : (Z * Z) * A) l : Permutation (x :: l) (insert_by_key x l).
Proof.
  induction l as [|y t IH]; cbn; [reflexivity|].
  destruct (key_leb (fst x) (fst y)); [reflexivity|].
  rewrite perm_swap. now constructor.
Qed.

Lemma sort_keyed_perm (l : list ((Z * Z) * A)) : Permutation l (sort_keyed l).
Proof.
  induction l as [|x t IH]; cbn; [reflexivity|].
  rewrite <- insert_by_key_perm. now constructor.
Qed.

Lemma insert_by_key_sorted (x : (Z * Z) * A) l :
  StronglySorted fst_le l -> StronglySorted fst_le (insert_by_key x l).
Proof.
  induction 1 as [|y t Hs IH Hy]; cbn.
  - constructor; constructor.
  - destruct (key_leb (fst x) (fst y)) eqn:E.
    + constructor; [now constructor|]. constructor; [exact E|].
      eapply Forall_impl; [|exact Hy]. intros z Hz.
      unfold fst_le in *. eapply key_le_trans; [exact E | exact Hz].
    + apply key_leb_total in E. constructor; [assumption|].
      eapply Permutation_Forall; [apply insert_by_key_perm|].
      constructor; assumption.
Qed.

Lemma sort_keyed_sorted (l : list ((Z * Z) * A)) : StronglySorted fst_le (sort_keyed l).
Proof.
  induction l as [|x t IH]; cbn; [constructor|].
  now apply insert_by_key_sorted.
Qed.

Lemma sorted_map_fst (l : list ((Z * Z) * A)) :
  StronglySorted fst_le l -> StronglySorted key_le (map fst l).
Proof.
  induction 1 as [|x t Hs IH Hx]; cbn; constructor; [assumption|].
  apply Forall_map. exact Hx.
Qed.

End Keyed.

Lemma mapM_map_snd {A K : Type} (f : A -> option K) (l : list (K * A)) :
  Forall (fun ka => f (snd ka) = Some (fst ka)) l ->
  Exc.mapM f (map snd l) = Some (map fst l).
Proof.
  induction 1 as [|[k a] t Hk _ IH]; cbn; [reflexivity|].
  cbn in Hk. now rewrite Hk, IH.
Qed.

(** [sort_idxs] rearranges its argument into ascending key order. *)
Lemma sort_idxs_spec (self : VariantAndCnvGroup) (idxs out : list nat) :
  sort_idxs self idxs = Some out ->
  Permutation idxs out /\ sorted_by_key self out.
Proof.
  unfold sort_idxs.
  destruct (Exc.mapM _ idxs) as [keyed|] eqn:E; cbn [Exc.bind]; [|discriminate].
  intros H. injection H as <-.
  apply ExcFacts.mapM_Forall2 in E.
  assert (Hkeyed : Forall (fun ka : (Z * Z) * nat => key_of self (snd ka) = Some (fst ka))
                     keyed /\ map snd keyed = idxs).
  { clear -E. induction E as [|i [k j] t t' Hik _ [IH1 IH2]]; cbn; [now split|].
    cbn beta in Hik.
    destruct (nth_error (_variants self) i) as [v|] eqn:Ev;
      cbn [Exc.bind] in Hik; [|discriminate].
    destruct (variant_key v) as [key|] eqn:Ek; cbn [Exc.bind] in Hik; [|discriminate].
    injection Hik as <- <-. split; [|now rewrite IH2].
    constructor; [|assumption]. cbn [fst snd]. unfold key_of.
    rewrite Ev. cbn [Exc.bind]. exact Ek. }
  destruct Hkeyed as [Hk <-]. split.
  - apply Permutation_map. apply sort_keyed_perm.
  - exists (map fst (sort_keyed keyed)). split.
    + apply mapM_map_snd.
      eapply Permutation_Forall; [apply sort_keyed_perm | exact Hk].
    + apply sorted_map_fst. apply sort_keyed_sorted.
Qed.

Section Selection.
Variable self : VariantAndCnvGroup.
Variable sample_size : Z.
Variable priority_ssms : list (string * Z).

Let p := prio_idx self priority_ssms.
Let np := fun i => negb (p i).
Let step := select_step self sample_size priority_ssms.

Lemma fold_select_None (L : list nat) : fold_left step L None = None.
Proof. induction L as [|x t IH]; cbn; [reflexivity | exact IH]. Qed.

Lemma below_size (k : nat) :
  Z.ltb (Z.of_nat k) sample_size = Nat.ltb k (Z.to_nat sample_size).
Proof.
  destruct (Z.ltb_spec (Z.of_nat k) sample_size);
    destruct (Nat.ltb_spec k (Z.to_nat sample_size)); try reflexivity; lia.
Qed.

(** The selection loop run over [L] from the state [(s, r)]. *)
Lemma select_fold (L : list nat) :
  forall s r st,
    fold_left step L (Some (s, r)) = Some st ->
    let k := (Z.to_nat sample_size - length s)%nat in
    rev (fst st) = rev s ++ firstn k (filter p L) /\
    Permutation (rev (snd st)) (rev r ++ skipn k (filter p L) ++ filter np L) /\
    ((length (filter p L) <= k)%nat -> rev (snd st) = rev r ++ filter np L).
Proof.
  induction L as [|x t IH]; intros s r st H; cbn [fold_left] in H.
  - injection H as <-. cbn [fst snd filter]. rewrite firstn_nil, skipn_nil, !app_nil_r. auto.
  - unfold step at 2 in H. unfold select_step in H. cbn [Exc.bind fst snd] in H.
    destruct (nth_error (_variants self) x) as [variant|] eqn:Ex; cbn [Exc.bind] in H;
      [|fold step in H; rewrite fold_select_None in H; discriminate].
    assert (Epx : p x = is_priority priority_ssms variant).
    { unfold p, prio_idx. now rewrite Ex. }
    rewrite <- Epx, below_size in H. fold step in H.
    cbv zeta. cbn [filter]. change (np x) with (negb (p x)).
    destruct (Nat.ltb_spec (length s) (Z.to_nat sample_size)) as [Hlt|Hge];
      destruct (p x) eqn:Hpx; cbn [andb negb] in H |- *;
      destruct (IH _ _ _ H) as (H1 & H2 & H3); cbv zeta in H1, H2, H3;
      clear IH H; cbn [fst snd length rev] in H1, H2, H3;
      repeat rewrite <- app_assoc in H1; repeat rewrite <- app_assoc in H2;
      repeat rewrite <- app_assoc in H3; cbn [app] in H1, H2, H3.
    + replace (Z.to_nat sample_size - length s)%nat
        with (S (Z.to_nat sample_size - S (length s))) by lia.
      cbn [firstn skipn length].
      split; [assumption|]. split; [assumption|]. intros Hl. apply H3. lia.
    + split; [assumption|]. split; [|assumption].
      rewrite H2. apply Permutation_app_head. apply Permutation_middle.
    + replace (Z.to_nat sample_size - length s)%nat with 0%nat in * by lia.
      cbn [firstn skipn length] in *.
      split; [assumption|]. split; [|intros Hl; lia].
      rewrite H2. apply Permutation_app_head. reflexivity.
    + split; [assumption|]. split; [|assumption].
      rewrite H2. apply Permutation_app_head. apply Permutation_middle.
Qed.

End Selection.

Lemma In_firstn {A : Type} (n : nat) (l : list A) (x : A) :
  In x (firstn n l) -> In x l.
Proof.
  intros H. rewrite <- (firstn_skipn n l). apply in_or_app. now left.
Qed.

Lemma filter_partition_perm {A : Type} (f : A -> bool) (l : list A) :
  Permutation (filter f l ++ filter (fun x => negb (f x)) l) l.
Proof.
  induction l as [|x t IH]; cbn; [reflexivity|].
  destruct (f x); cbn.
  - now constructor.
  - rewrite <- Permutation_middle. now constructor.
Qed.

Lemma format_variants_ids (counter : nat) (e : Q)
    (rs : list (VariantId * list Z * list Z)) :
  map (fun f => mkVariantId (v_chrom f) (v_pos f)) (Variant.format_variants counter e rs)
  = map (fun r => fst (fst r)) rs /\
  map ssm_id (Variant.format_variants counter e rs) = seq counter (length rs).
Proof.
  revert counter. induction rs as [|[[v a] b] t IH]; intros counter; cbn; [now split|].
  destruct (IH (S counter)) as [-> ->]. destruct v. now split.
Qed.

Lemma rows_at_variants (self : VariantAndCnvGroup) (idxs : list nat) rs :
  rows_at self idxs = Some rs ->
  variants_at self idxs = Some (map (fun r => fst (fst r)) rs) /\
  length rs = length idxs.
Proof.
  unfold rows_at, variants_at. revert rs.
  induction idxs as [|i t IH]; intros rs H; cbn in H |- *.
  - injection H as <-. now split.
  - destruct (nth_error (_variants self) i) as [v|]; cbn [Exc.bind] in H; [|discriminate].
    destruct (nth_error (Impute.rows (_ref_read_counts self)) i);
      cbn [Exc.bind] in H; [|discriminate].
    destruct (nth_error (Impute.rows (_total_read_counts self)) i);
      cbn [Exc.bind] in H; [|discriminate].
    destruct (Exc.mapM _ t) as [rs'|]; [|discriminate].
    injection H as <-. destruct (IH _ eq_refl) as [-> Hl]. cbn. now rewrite Hl.
Qed.

End SubsampleFacts.

(** ** The caller adapters and the parsing loop *)

Module VcfFacts.
Import Variant Vcf VcfSpec.

Lemma tame_bind {A B : Type} (m : result A) (k : A -> result B) :
  tame m -> (forall a, tame (k a)) -> tame (rbind m k).
Proof.
  unfold tame. destruct m as [a| |]; cbn; intros Hm Hk; [apply Hk | congruence | discriminate].
Qed.

Lemma tame_of_option {A : Type} (o : option A) : tame (of_option o).
Proof. destruct o; discriminate. Qed.

Lemma tame_Ok {A : Type} (a : A) : tame (Ok a).
Proof. discriminate. Qed.

Lemma tame_Fatal {A : Type} : tame (@Fatal A).
Proof. discriminate. Qed.

Lemma tame_assert (b : bool) : tame (assert b).
Proof. destruct b; discriminate. Qed.

Lemma tame_field (call : Call) (key : string) : tame (field call key).
Proof. apply tame_of_option. Qed.

Lemma tame_to_int (v : value) : tame (to_int v).
Proof. destruct v; cbn; try discriminate. apply tame_of_option. Qed.

Lemma tame_item (v : value) (i : Z) : tame (item v i).
Proof.
  unfold item. destruct (Z.ltb i 0); [discriminate|].
  destruct v; try discriminate; apply tame_of_option.
Qed.

Lemma tame_int_item (v : value) (i : Z) : tame (int_item v i).
Proof. apply tame_bind; [apply tame_item | intros; apply tame_to_int]. Qed.

Lemma tame_sample_at (samples : list Call) (i : Z) : tame (sample_at samples i).
Proof.
  unfold sample_at. repeat destruct (andb _ _); try discriminate; apply tame_of_option.
Qed.

Lemma tame_get_tumor_index (self : VariantParser) (variant : VcfRecord) :
  tame (_get_tumor_index self variant).
Proof.
  unfold _get_tumor_index. destruct (truthy _); [|discriminate].
  destruct (indices_where _ _ _) as [|i [|j t]]; discriminate.
Qed.

Lemma tame_tumor_call (self : VariantParser) (variant : VcfRecord) :
  tame (tumor_call self variant).
Proof.
  apply tame_bind; [apply tame_get_tumor_index | intros; apply tame_sample_at].
Qed.

Lemma tame_collect {A : Type} (l : list (result A)) :
  Forall tame l -> tame (collect l).
Proof.
  induction 1 as [|x t Hx _ IH]; cbn; [discriminate|].
  apply tame_bind; [assumption|]. intros a.
  apply tame_bind; [assumption|]. intros; discriminate.
Qed.

Lemma tame_all_ok {A : Type} (l : list (result A)) : Forall tame l -> tame (all_ok l).
Proof.
  induction 1 as [|x t Hx _ IH]; cbn; [discriminate|].
  destruct x; [assumption | now elim Hx | discriminate].
Qed.

Lemma tame_get_normal_genotype (self : VariantParser) (variant : VcfRecord) :
  tame (_get_normal_genotype self variant).
Proof.
  unfold _get_normal_genotype.
  apply tame_bind; [apply tame_get_tumor_index | intros tumor_i].
  apply tame_bind; [apply tame_assert | intros _].
  apply tame_bind; [apply tame_sample_at | intros normal].
  apply tame_bind; [apply tame_field | intros gt].
  destruct gt; try discriminate.
  apply tame_bind; [|intros; discriminate].
  apply tame_collect, Forall_map, Forall_forall. intros; apply tame_of_option.
Qed.

Ltac tame_step :=
  first [ apply tame_Ok | apply tame_Fatal | apply tame_of_option
        | apply tame_field | apply tame_to_int | apply tame_int_item
        | apply tame_tumor_call | apply tame_assert
        | apply tame_get_normal_genotype
        | apply tame_bind; [|intros ?] ].

(** Of the adapters, only the PCAWG-consensus one raises
    [ReadCountsUnavailableError]. *)
Lemma only_pcawg_consensus_unavailable (self : VariantParser) (variant : VcfRecord) :
  _calc_read_counts self variant = Unavailable -> kind self = PcawgConsensus.
Proof.
  unfold _calc_read_counts. destruct (kind self); intros H; try reflexivity; exfalso;
    revert H; change (tame ?x) with (x <> Unavailable).
  - unfold sanger_counts.
    apply tame_bind; [apply tame_of_option | intros _].
    apply tame_bind; [apply tame_of_option | intros tumor].
    apply tame_bind.
    { unfold _find_ref_and_variant_nt.
      destruct (r_REF variant) as [|c [|]]; try discriminate.
      destruct (r_ALT variant) as [|a [|]]; discriminate. }
    intros nts. apply tame_bind.
    { apply tame_all_ok, Forall_map, Forall_forall. intros key _.
      repeat tame_step. }
    intros _.
    assert (Hr : forall strand nt,
               tame (key <~ strand_field strand nt ;; v <~ field tumor key ;; to_int v)).
    { intros strand nt. apply tame_bind.
      - unfold strand_field. destruct (existsb _ _); discriminate.
      - intros key. repeat tame_step. }
    repeat (apply tame_bind; [apply Hr | intros ?]). discriminate.
  - unfold mutect_pcawg_counts. repeat tame_step.
  - unfold mutect_smchet_counts. repeat tame_step.
  - unfold mutect_tcga_counts. repeat tame_step.
    destruct a0 as [| |[|x [|y [|]]]]; discriminate.
  - unfold muse_counts. repeat tame_step.
    destruct a as [|gt [|]]; try discriminate. repeat tame_step.
  - unfold dkfz_counts. repeat tame_step.
  - unfold strelka_counts. repeat tame_step.
    destruct a; repeat tame_step.
  - unfold mutect_smchet_counts. repeat tame_step.
Qed.

End VcfFacts.

(** ** The imputation of missing read counts *)

Module ImputeFacts.
Import Impute ImputeSpec.
Local Open Scope R_scope.

Lemma nth_error_zip_with {A B C : Type} (f : A -> B -> C) (l1 : list A) (l2 : list B)
    (i : nat) :
  nth_error (zip_with f l1 l2) i
  = match nth_error l1 i, nth_error l2 i with
    | Some a, Some b => Some (f a b)
    | _, _ => None
    end.
Proof.
  revert l2 i. induction l1 as [|a t IH]; intros l2 i.
  - cbn. now destruct i.
  - destruct l2 as [|b t2]; destruct i as [|i]; cbn; try reflexivity.
    + now destruct (nth_error t i).
    + apply IH.
Qed.

Lemma Int_part_IZR (z : Z) : Int_part (IZR z) = z.
Proof. symmetry. apply Int_part_spec. lra. Qed.


Lemma Int_part_pos (x : R) : 1 <= x -> (0 < Int_part x)%Z.
Proof.
  intros H. destruct (base_Int_part x) as [_ Hlo].
  apply lt_IZR. lra.
Qed.


Lemma astype_int_IZR (z : Z) : astype_int (IZR z) = z.
Proof.
  unfold astype_int. destruct (Rle_dec 0 (IZR z)).
  - apply Int_part_IZR.
  - rewrite <- opp_IZR, Int_part_IZR. lia.
Qed.

Lemma Rpos_b_true (x : R) : Rpos_b x = true <-> 0 < x.
Proof. unfold Rpos_b. destruct (Rlt_dec 0 x); split; auto; discriminate. Qed.

Lemma forallb_Rpos (l : list R) : forallb Rpos_b l = true <-> Forall (fun x => 0 < x) l.
Proof.
  rewrite forallb_forall, Forall_forall.
  split; intros H x Hx; apply Rpos_b_true; auto.
Qed.

Lemma observed_In (xs : list cell) (x : R) : In x (observed xs) <-> In (Some x) xs.
Proof.
  induction xs as [|[y|] t IH]; cbn; [tauto| |].
  - rewrite IH. split; intros [H|H]; auto; left; congruence.
  - rewrite IH. split; [auto|]. intros [H|H]; [discriminate | assumption].
Qed.

(** A geometric mean, when there is one, is positive. *)
Lemma gmean_pos (xs : list cell) (g : R) : gmean xs = Some g -> 0 < g.
Proof.
  unfold gmean. destruct (observed xs); [discriminate|].
  destruct (forallb _ _); [|discriminate].
  intros H. injection H as <-. apply exp_pos.
Qed.

(** There is one as soon as some entry is observed and all observed
    entries are positive. *)
Lemma gmean_defined (xs : list cell) :
  (exists x, In (Some x) xs) -> (forall x, In (Some x) xs -> 0 < x) ->
  exists g, gmean xs = Some g.
Proof.
  intros [x Hx] Hpos. unfold gmean.
  apply observed_In in Hx.
  destruct (observed xs) as [|y t] eqn:E; [destruct Hx|].
  assert (Hall : forallb Rpos_b (y :: t) = true).
  { apply forallb_Rpos, Forall_forall. intros z Hz.
    apply Hpos, observed_In. now rewrite E. }
  rewrite Hall. now eexists.
Qed.

Lemma assert_positive_spec (means : list cell) (ms : list R) :
  assert_positive means = Some ms ->
  Forall2 (fun (c : cell) m => c = Some m /\ 0 < m) means ms.
Proof.
  intros H. apply ExcFacts.mapM_Forall2 in H.
  eapply Forall2_impl; [|exact H]. cbn beta. intros [m|] m' Hm; [|discriminate].
  destruct (Rlt_dec 0 m); [|discriminate]. injection Hm as <-. now split.
Qed.

Lemma assert_positive_defined (means : list cell) :
  Forall (fun c : cell => exists m, c = Some m /\ 0 < m) means ->
  exists ms, assert_positive means = Some ms.
Proof.
  intros H. apply ExcFacts.mapM_total.
  eapply Forall_impl; [|exact H]. cbn beta. intros c (m & -> & Hm).
  destruct (Rlt_dec 0 m); [|contradiction]. now eexists.
Qed.

Lemma Forall2_nth_error {A B : Type} (R : A -> B -> Prop) (l : list A) (l' : list B) :
  Forall2 R l l' ->
  forall i a, nth_error l i = Some a -> exists b, nth_error l' i = Some b /\ R a b.
Proof.
  induction 1 as [|x y t t' Hxy _ IH]; intros [|i] a Ha; cbn in *; try discriminate.
  - injection Ha as <-. now exists y.
  - now apply IH.
Qed.

(** The steps of [impute_missing_total_reads] when it returns. *)
Lemma impute_total_unfold (m : matrix cell) (conf : R) (res : matrix Z) :
  impute_missing_total_reads m conf = Some res ->
  exists sm vm,
    assert_positive (sample_means_of m) = Some sm /\
    assert_positive (map gmean (normalize sm m)) = Some vm /\
    let imputed := map (fun v => map (fun s => v * s) sm) vm in
    let filled := zip_with (zip_with fill) (rows m) imputed in
    forallb (forallb Rpos_b) filled = true /\
    res = mkMatrix (n_samples m)
            (map (map Int_part)
               (zip_with (zip_with (scale_missing conf)) (rows m) filled)).
Proof.
  unfold impute_missing_total_reads. intros H.
  destruct (assert_positive (sample_means_of m)) as [sm|] eqn:Es; cbn [Exc.bind] in H;
    [|discriminate].
  destruct (assert_positive (map gmean (normalize sm m))) as [vm|] eqn:Ev;
    cbn [Exc.bind] in H; [|discriminate].
  exists sm, vm. split; [reflexivity|]. split; [exact Ev|]. cbv zeta.
  destruct (forallb _ _); [|discriminate].
  injection H as <-. now split.
Qed.

(** A cell of the arrays built from the two mean vectors. *)
Lemma filled_cell (rws : list (list cell)) (sm vm : list R) (i j : nat) :
  let imputed := map (fun v => map (fun s => v * s) sm) vm in
  match nth_error (zip_with (zip_with fill) rws imputed) i with
  | Some f => nth_error f j
  | None => None
  end
  = match nth_error rws i, nth_error vm i with
    | Some r, Some v =>
        match nth_error r j, nth_error sm j with
        | Some c, Some s => Some (fill c (v * s))
        | _, _ => None
        end
    | _, _ => None
    end.
Proof.
  cbv zeta. rewrite nth_error_zip_with, nth_error_map.
  destruct (nth_error rws i) as [r|]; [|reflexivity].
  destruct (nth_error vm i) as [v|]; cbn [option_map]; [|reflexivity].
  rewrite nth_error_zip_with, nth_error_map.
  destruct (nth_error r j); [|reflexivity].
  now destruct (nth_error sm j).
Qed.

Lemma scaled_cell (conf : R) (n : nat) (rws : list (list cell)) (sm vm : list R)
    (i j : nat) :
  let imputed := map (fun v => map (fun s => v * s) sm) vm in
  let filled := zip_with (zip_with fill) rws imputed in
  cell_at (mkMatrix n
             (map (map Int_part) (zip_with (zip_with (scale_missing conf)) rws filled)))
          i j
  = match nth_error rws i, nth_error vm i with
    | Some r, Some v =>
        match nth_error r j, nth_error sm j with
        | Some c, Some s => Some (Int_part (scale_missing conf c (fill c (v * s))))
        | _, _ => None
        end
    | _, _ => None
    end.
Proof.
  cbv zeta. unfold cell_at. cbn [rows].
  rewrite nth_error_map, nth_error_zip_with.
  pose proof (filled_cell rws sm vm i j) as Hf. cbv zeta in Hf.
  destruct (nth_error rws i) as [r|] eqn:Er; [|reflexivity].
  destruct (nth_error (zip_with (zip_with fill) rws _) i) as [f|] eqn:Ef.
  - cbn [option_map]. rewrite nth_error_map, nth_error_zip_with, Hf.
    destruct (nth_error vm i) as [v|]; [|now destruct (nth_error r j)].
    destruct (nth_error r j) as [c|]; [|reflexivity].
    now destruct (nth_error sm j).
  - cbn [option_map]. rewrite nth_error_zip_with, Er in Ef.
    rewrite nth_error_map in Ef.
    destruct (nth_error vm i); [discriminate | reflexivity].
Qed.

Lemma forallb_filled (filled : list (list R)) :
  forallb (forallb Rpos_b) filled = true ->
  forall i f j x, nth_error filled i = Some f -> nth_error f j = Some x -> 0 < x.
Proof.
  intros H i f j x Hf Hx.
  rewrite forallb_forall in H. specialize (H f (nth_error_In _ _ Hf)).
  rewrite forallb_forall in H. apply Rpos_b_true, H. eapply nth_error_In; eauto.
Qed.

Lemma sample_means_nth (m : matrix cell) (j : nat) :
  nth_error (sample_means_of m) j
  = if Nat.ltb j (n_samples m) then Some (sample_mean m j) else None.
Proof.
  unfold sample_means_of. rewrite nth_error_map.
  destruct (Nat.ltb_spec j (n_samples m)) as [H|H].
  - rewrite nth_error_seq. apply Nat.ltb_lt in H. now rewrite H.
  - rewrite nth_error_seq. apply Nat.ltb_ge in H. now rewrite H.
Qed.

(** The asserted sample means are the samples' geometric means. *)
Lemma sample_means_spec (m : matrix cell) (sm : list R) :
  assert_positive (sample_means_of m) = Some sm ->
  length sm = n_samples m /\
  (forall j s, nth_error sm j = Some s -> sample_mean m j = Some s /\ 0 < s) /\
  (forall r, zip_with (fun (c : cell) g => option_map (fun x => x * (1 / g)) c) r sm
             = enrichment m r).
Proof.
  intros H. apply assert_positive_spec in H.
  assert (Hlen : length sm = n_samples m).
  { rewrite <- (Forall2_length H). unfold sample_means_of.
    now rewrite length_map, length_seq. }
  split; [assumption|]. split.
  - intros j s Hs.
    assert (Hj : (j < n_samples m)%nat)
      by (rewrite <- Hlen; apply nth_error_Some; congruence).
    pose proof (sample_means_nth m j) as Hn.
    apply Nat.ltb_lt in Hj. rewrite Hj in Hn.
    destruct (Forall2_nth_error H _ Hn) as (s' & Hs' & E & Hpos).
    rewrite Hs in Hs'. injection Hs' as <-. now split.
  - intros r. unfold enrichment. clear Hlen.
    revert r. induction H as [|c g t t' [-> Hg] _ IH]; intros [|x r]; cbn;
      try reflexivity.
    rewrite IH. now destruct x.
Qed.

Lemma column_In (m : matrix cell) (j : nat) (x : R) :
  In (Some x) (column j m) <->
  exists i, cell_at m i j = Some (Some x).
Proof.
  unfold column, cell_at. rewrite in_map_iff. split.
  - intros (r & Hr & Hin). apply In_nth_error in Hin. destruct Hin as [i Hi].
    exists i. unfold cell in *. rewrite Hi.
    destruct (nth_error r j) as [c|] eqn:E.
    + rewrite (nth_error_nth _ _ None E) in Hr. now subst.
    + apply nth_error_None in E. rewrite nth_overflow in Hr by assumption. discriminate.
  - intros (i & Hi). destruct (nth_error (rows m) i) as [r|] eqn:Er; [|discriminate].
    exists r. split; [now apply nth_error_nth | eapply nth_error_In; eauto].
Qed.

Lemma zip_with_In {A B C : Type} (f : A -> B -> C) (l1 : list A) (l2 : list B) (y : C) :
  In y (zip_with f l1 l2) <->
  exists j a b, nth_error l1 j = Some a /\ nth_error l2 j = Some b /\ y = f a b.
Proof.
  split.
  - intros H. apply In_nth_error in H. destruct H as [j Hj].
    rewrite nth_error_zip_with in Hj.
    destruct (nth_error l1 j) as [a|] eqn:Ea; [|discriminate].
    destruct (nth_error l2 j) as [b|] eqn:Eb; [|discriminate].
    injection Hj as <-. now exists j, a, b.
  - intros (j & a & b & Ha & Hb & ->).
    apply (nth_error_In _ j). now rewrite nth_error_zip_with, Ha, Hb.
Qed.

(** On an imputable matrix both vectors of means exist. *)
Lemma means_defined (m : matrix cell) :
  wf_matrix m -> imputable m ->
  exists sm vm,
    assert_positive (sample_means_of m) = Some sm /\
    assert_positive (map gmean (normalize sm m)) = Some vm.
Proof.
  intros Hwf (Hcol & Hrow & Hpos).
  assert (Hsm : exists sm, assert_positive (sample_means_of m) = Some sm).
  { apply assert_positive_defined, Forall_forall. intros c Hc.
    apply In_nth_error in Hc. destruct Hc as [j Hj].
    rewrite sample_means_nth in Hj.
    destruct (Nat.ltb_spec j (n_samples m)) as [Hlt|]; [|discriminate].
    injection Hj as <-. unfold sample_mean.
    destruct (gmean_defined (column j m)) as [g Hg].
    - destruct (Hcol j Hlt) as (i & x & Hx). exists x. apply column_In. now exists i.
    - intros x Hx. apply column_In in Hx. destruct Hx as [i Hi]. eapply Hpos; eauto.
    - exists g. split; [assumption | eapply gmean_pos; eauto]. }
  destruct Hsm as [sm Esm]. exists sm.
  destruct (sample_means_spec _ Esm) as (Hlen & Hs & _).
  assert (Hvm : exists vm, assert_positive (map gmean (normalize sm m)) = Some vm).
  { apply assert_positive_defined, Forall_forall. intros c Hc.
    apply in_map_iff in Hc. destruct Hc as (nr & <- & Hnr).
    unfold normalize in Hnr. apply in_map_iff in Hnr. destruct Hnr as (r & <- & Hr).
    apply In_nth_error in Hr. destruct Hr as [i Hi].
    destruct (gmean_defined
                (zip_with (fun (c : cell) g => option_map (fun x => x * (1 / g)) c) r sm))
      as [g Hg].
    - destruct (Hrow i r Hi) as (j & x & Hx).
      assert (Hj : (j < length sm)%nat).
      { rewrite Hlen. unfold wf_matrix in Hwf. rewrite Forall_forall in Hwf.
        rewrite <- (Hwf r (nth_error_In _ _ Hi)). apply nth_error_Some. congruence. }
      destruct (nth_error sm j) as [s|] eqn:Es;
        [|apply nth_error_None in Es; lia].
      exists (x * (1 / s)). apply zip_with_In. now exists j, (Some x), s.
    - intros y Hy. apply zip_with_In in Hy.
      destruct Hy as (j & [x|] & s & Hx & Hsj & Ey); [|discriminate].
      cbn in Ey. injection Ey as ->.
      assert (0 < x) by (eapply (Hpos i j); unfold cell_at; now rewrite Hi).
      destruct (Hs j s Hsj) as [_ Hspos].
      apply Rmult_lt_0_compat; [assumption|].
      apply Rdiv_lt_0_compat; lra.
    - exists g. split; [exact Hg | eapply gmean_pos; eauto]. }
  destruct Hvm as [vm Evm]. exists vm. now split.
Qed.

(** The two mean vectors at a cell of the matrix. *)
Lemma means_at_cell (m : matrix cell) (sm vm : list R) (i j : nat) (r : list cell)
    (c : cell) :
  wf_matrix m ->
  assert_positive (sample_means_of m) = Some sm ->
  assert_positive (map gmean (normalize sm m)) = Some vm ->
  nth_error (rows m) i = Some r -> nth_error r j = Some c ->
  exists v s,
    nth_error vm i = Some v /\ nth_error sm j = Some s /\
    variant_mean m r = Some v /\ sample_mean m j = Some s /\ 0 < v /\ 0 < s.
Proof.
  intros Hwf Esm Evm Hr Hc.
  destruct (sample_means_spec _ Esm) as (Hlen & Hs & Henr).
  apply assert_positive_spec in Evm.
  assert (Hn : nth_error (map gmean (normalize sm m)) i
               = Some (variant_mean m r)).
  { unfold normalize. rewrite !nth_error_map. unfold cell in *. rewrite Hr.
    cbn [option_map]. unfold variant_mean. now rewrite <- Henr. }
  destruct (Forall2_nth_error Evm _ Hn) as (v & Hv & Ev & Hvpos).
  assert (Hj : (j < length sm)%nat).
  { rewrite Hlen. unfold wf_matrix in Hwf. rewrite Forall_forall in Hwf.
    rewrite <- (Hwf r (nth_error_In _ _ Hr)). apply nth_error_Some. congruence. }
  destruct (nth_error sm j) as [s|] eqn:Es; [|apply nth_error_None in Es; lia].
  destruct (Hs j s Es) as [Hsm Hspos].
  exists v, s. repeat split; assumption.
Qed.

(** What [impute_missing_total_reads] returns, cell by cell. *)
Lemma impute_total_cells (m : matrix cell) (conf : R) (res : matrix Z) :
  wf_matrix m -> impute_missing_total_reads m conf = Some res ->
  n_samples res = n_samples m /\
  forall i j r c,
    nth_error (rows m) i = Some r -> nth_error r j = Some c ->
    exists v s,
      variant_mean m r = Some v /\ sample_mean m j = Some s /\ 0 < v /\ 0 < s /\
      0 < fill c (v * s) /\
      cell_at res i j = Some (Int_part (scale_missing conf c (fill c (v * s)))).
Proof.
  intros Hwf H.
  destruct (impute_total_unfold _ _ H) as (sm & vm & Esm & Evm & Hfilled & ->).
  cbv zeta in Hfilled. split; [reflexivity|].
  intros i j r c Hr Hc.
  destruct (means_at_cell _ _ Hwf Esm Evm Hr Hc)
    as (v & s & Hv & Hs & Evar & Esam & Hvpos & Hspos).
  exists v, s. repeat (split; [assumption|]).
  pose proof (filled_cell (rows m) sm vm i j) as Hf. cbv zeta in Hf.
  pose proof (scaled_cell conf (n_samples m) (rows m) sm vm i j) as Hsc. cbv zeta in Hsc.
  unfold cell in *. rewrite Hr, Hv, Hc, Hs in Hf, Hsc. split; [|exact Hsc].
  match type of Hf with
  | match ?t with _ => _ end = _ => destruct t as [f|] eqn:Ef; [|discriminate]
  end.
  eapply forallb_filled; eauto.
Qed.

(** On an imputable matrix [impute_missing_total_reads] returns. *)
Lemma impute_total_defined (m : matrix cell) (conf : R) :
  wf_matrix m -> imputable m ->
  exists res, impute_missing_total_reads m conf = Some res.
Proof.
  intros Hwf Himp.
  destruct (means_defined Hwf Himp) as (sm & vm & Esm & Evm).
  unfold impute_missing_total_reads. rewrite Esm. cbn [Exc.bind]. rewrite Evm.
  cbn [Exc.bind].
  assert (Hall : forallb (forallb Rpos_b)
                   (zip_with (zip_with fill) (rows m)
                      (map (fun v => map (fun s => v * s) sm) vm)) = true).
  { apply forallb_forall. intros f Hf. apply forallb_forall. intros x Hx.
    apply Rpos_b_true.
    apply In_nth_error in Hf. destruct Hf as [i Hi].
    apply In_nth_error in Hx. destruct Hx as [j Hj].
    pose proof (filled_cell (rows m) sm vm i j) as Hc. cbv zeta in Hc.
    unfold cell in *. rewrite Hi, Hj in Hc.
    destruct (nth_error (rows m) i) as [r|] eqn:Er; [|discriminate].
    destruct (nth_error vm i) as [v|] eqn:Ev; [|discriminate].
    destruct (nth_error r j) as [c|] eqn:Ec; [|discriminate].
    destruct (nth_error sm j) as [s|] eqn:Es; [|discriminate].
    injection Hc as ->.
    destruct (means_at_cell _ _ Hwf Esm Evm Er Ec)
      as (v' & s' & Hv & Hs & _ & _ & Hvpos & Hspos).
    assert (v' = v) by congruence. assert (s' = s) by congruence. subst.
    destruct c as [x|]; cbn [fill].
    - destruct Himp as (_ & _ & Hpos). apply (Hpos i j).
      unfold cell_at. unfold cell in *. now rewrite Er.
    - now apply Rmult_lt_0_compat. }
  rewrite Hall. now eexists.
Qed.

Lemma mapM_index_spec {A B : Type} (f : nat -> A -> option B) (l : list A) :
  forall i ys,
    mapM_index f i l = Some ys ->
    length ys = length l /\
    forall k, match nth_error l k, nth_error ys k with
              | Some x, Some y => f (i + k)%nat x = Some y
              | None, None => True
              | _, _ => False
              end.
Proof.
  induction l as [|x t IH]; intros i ys H; cbn in H.
  - injection H as <-. split; [reflexivity|]. intros [|k]; exact I.
  - destruct (f i x) as [y|] eqn:Ey; cbn [Exc.bind] in H; [|discriminate].
    destruct (mapM_index f (S i) t) as [ys'|] eqn:Et; cbn [Exc.bind] in H; [|discriminate].
    injection H as <-. destruct (IH _ _ Et) as [Hl Hk]. split; [cbn; now rewrite Hl|].
    intros [|k]; cbn.
    + now rewrite Nat.add_0_r.
    + specialize (Hk k). now rewrite Nat.add_succ_r.
Qed.


(** What [impute_missing_ref_reads] returns, cell by cell. *)
Lemma impute_ref_cells (ref_reads : matrix cell) (total_reads res : matrix Z) :
  impute_missing_ref_reads ref_reads total_reads = Some res ->
  n_samples res = n_samples ref_reads /\
  forall i j,
    match cell_at ref_reads i j, cell_at res i j with
    | Some c, Some z => impute_ref_cell total_reads i j c = Some z
    | None, None => True
    | _, _ => False
    end.
Proof.
  unfold impute_missing_ref_reads. intros H.
  destruct (mapM_index _ 0 (rows ref_reads)) as [new_rows|] eqn:E; cbn [Exc.bind] in H;
    [|discriminate].
  injection H as <-. split; [reflexivity|].
  destruct (mapM_index_spec _ _ _ E) as [_ Hrows].
  intros i j. specialize (Hrows i). unfold cell_at. cbn [rows].
  unfold cell in *.
  destruct (nth_error (rows ref_reads) i) as [r|];
    destruct (nth_error new_rows i) as [r'|]; try contradiction; [|exact I].
  cbn [Nat.add] in Hrows.
  destruct (mapM_index_spec _ _ _ Hrows) as [_ Hcells]. exact (Hcells j).
Qed.



(** An observed count that is not positive fails an assertion. *)
Lemma impute_rejects_nonpositive (m : matrix cell) (conf : R) (i j : nat) (x : R) :
  wf_matrix m -> cell_at m i j = Some (Some x) -> x <= 0 ->
  impute_missing_total_reads m conf = None.
Proof.
  intros Hwf Hc Hx.
  destruct (impute_missing_total_reads m conf) as [res|] eqn:E; [|reflexivity].
  exfalso. destruct (@impute_total_cells m conf res Hwf E) as [_ Hcells].
  unfold cell_at in Hc. destruct (nth_error (rows m) i) as [r|] eqn:Er; [|discriminate].
  destruct (Hcells i j r (Some x) Er Hc) as (v & s & _ & _ & _ & _ & Hf & _).
  cbn [fill] in Hf. lra.
Qed.


End ImputeFacts.

(** ** Properties of the CNV formatter and of the merge pass *)

Module CnvTheorems.
Import PyNum PyNumFacts Variant Cnv CnvSpec CnvFacts SortFacts MergeFacts Examples.
Local Open Scope Q_scope.

Lemma merge_cnvs_consistent (self : CnvFormatter) (cnvs : region_map)
    (variants : list FormattedVariant) :
  wf_formatter self -> wf_region_map cnvs ->
  exists formatted merged,
    _format_cnvs self cnvs variants = Some formatted /\
    merge_cnvs self cnvs variants = Some merged /\
    Forall consistent formatted /\ Forall consistent merged.
Proof.
  intros Hself Hcnvs.
  destruct (format_cnvs_ok variants Hself Hcnvs) as (formatted & E & _ & Hc).
  exists formatted, (merge_sorted (find_cellularity cnvs) (sort_by_prev formatted)).
  unfold merge_cnvs. rewrite E. cbn [Exc.bind].
  repeat split; try assumption.
  apply merge_sorted_Forall.
  - apply consistent_set_id.
  - apply consistent_absorb.
  - eapply Permutation_Forall; [apply sort_by_prev_perm | assumption].
Qed.

Lemma ex_formatter_wf : wf_formatter ex_formatter.
Proof. split; [cbn; lra | cbn; lia]. Defined.

Lemma ex_cnvs_wf : wf_region_map ex_cnvs.
Proof.
  repeat constructor; cbn; try lra; try lia.
Defined.



(** The two outcomes of one iteration of the merge loop. *)
Lemma merge_step_cases (c : Q) (last current : FormattedCnv) before n :
  (clonal c current = true /\ clonal c last = true /\
   merge_step c (last :: before, n) current = (absorb last current :: before, n))
  \/
  ((clonal c current = false \/ clonal c last = false) /\
   merge_step c (last :: before, n) current
   = (set_id n current :: last :: before, S n)).
Proof.
  destruct (clonal c current) eqn:Ec; destruct (clonal c last) eqn:El.
  - left. repeat split. now apply merge_step_clonal.
  - right. split; [now right|]. apply merge_step_nonclonal. now right.
  - right. split; [now left|]. apply merge_step_nonclonal. now left.
  - right. split; [now left|]. apply merge_step_nonclonal. now left.
Qed.

(** The merge pass of [format_and_merge_cnvs] on the regions it is
    given, sorted by ascending cellular prevalence, where [c] is the
    greatest prevalence among these regions (not the cellularity of the
    whole CNV list): an iteration merges the current region into the
    last accumulated one if and only if both have prevalence [c];
    merging sums the two total_reads and recomputes ref_reads from the
    sum with [_calc_ref_reads]; every region whose prevalence is not
    [c] comes out alone, and the regions at [c] come out as one
    region. *)
Lemma merge_pass_on_its_argument (self : CnvFormatter) (cnvs : region_map)
    (variants : list FormattedVariant) :
  wf_formatter self -> wf_region_map cnvs ->
  exists formatted,
    _format_cnvs self cnvs variants = Some formatted /\
    let c := find_cellularity cnvs in
    let F := sort_by_prev formatted in
    (Permutation formatted F /\ StronglySorted prev_le F) /\
    ((forall r, In r (all_regions cnvs) -> cellular_prevalence r <= c) /\
     (all_regions cnvs <> [] ->
      exists r, In r (all_regions cnvs) /\ cellular_prevalence r == c)) /\
    (forall last current before n,
        (clonal c current = true /\ clonal c last = true /\
         merge_step c (last :: before, n) current
         = (absorb last current :: before, n))
        \/
        ((clonal c current = false \/ clonal c last = false) /\
         merge_step c (last :: before, n) current
         = (set_id n current :: last :: before, S n))) /\
    (forall last current,
        total_reads (absorb last current)
        = (total_reads current + total_reads last)%Z /\
        ref_reads (absorb last current)
        = _calc_ref_reads (f_prevalence last) (total_reads current + total_reads last)) /\
    merge_cnvs self cnvs variants
    = Some (number 0 (filter (nonclonal c) F ++ collapse (filter (clonal c) F))) /\
    format_and_merge_cnvs self cnvs variants
    = Some (map (scale self)
              (number 0 (filter (nonclonal c) F ++ collapse (filter (clonal c) F)))) /\
    (forall b bs, filter (clonal c) F = b :: bs -> bs <> [] ->
       total_reads (fold_left absorb bs b) = sum_total (b :: bs) /\
       ref_reads (fold_left absorb bs b)
       = _calc_ref_reads (f_prevalence b) (sum_total (b :: bs))).
Proof.
  intros Hself Hcnvs.
  destruct (format_cnvs_ok variants Hself Hcnvs) as (formatted & E & H2 & _).
  exists formatted. split; [assumption|]. cbv zeta.
  set (c := find_cellularity cnvs). set (F := sort_by_prev formatted).
  assert (Hperm : Permutation formatted F) by apply sort_by_prev_perm.
  assert (Hsorted : StronglySorted prev_le F) by apply sort_by_prev_sorted.
  assert (Hupper : forall r, In r (all_regions cnvs) -> cellular_prevalence r <= c)
    by (intros r Hr; now apply find_cellularity_upper).
  assert (Hbound : Forall (fun f => f_prevalence f <= c) F).
  { apply Forall_forall. intros f Hf.
    apply (Permutation_in _ (Permutation_sym Hperm)) in Hf.
    destruct (ExcFacts.Forall2_In_r f H2 Hf) as (cr & Hcr & Ecr).
    rewrite (format_one_prevalence _ _ _ _ Ecr). apply Hupper.
    rewrite <- region_pairs_regions. now apply in_map. }
  assert (Hmerge : merge_cnvs self cnvs variants
                   = Some (number 0 (filter (nonclonal c) F
                                     ++ collapse (filter (clonal c) F)))).
  { unfold merge_cnvs. rewrite E. cbn [Exc.bind]. f_equal.
    now apply merge_sorted_spec. }
  split; [now split|]. split.
  { split; [assumption|]. intros Hne.
    apply find_cellularity_attained; [|assumption].
    rewrite <- region_pairs_regions. apply Forall_map.
    eapply Forall_impl; [|apply (wf_region_pairs Hcnvs)].
    intros cr (HP & _). apply HP. }
  split; [intros; apply merge_step_cases|].
  split; [intros; split; reflexivity|].
  split; [assumption|]. split.
  { unfold format_and_merge_cnvs. rewrite Hmerge. reflexivity. }
  intros b bs _ Hbs.
  destruct (fold_absorb_reads bs b) as (_ & Ht & Hr). split; [assumption|].
  now apply Hr.
Qed.

Lemma merge_pass_on_its_argument_example :
  exists merged,
    format_and_merge_cnvs ex_formatter ex_cnvs ex_variants = Some merged /\
    map f_prevalence merged = [3 # 10; 8 # 10] /\
    map cnv_id merged = [Some 0%nat; Some 1%nat].
Proof.
  destruct (merge_pass_on_its_argument ex_variants ex_formatter_wf ex_cnvs_wf)
    as (formatted & E & _ & _ & _ & _ & _ & Em & _).
  eexists. split; [exact Em|].
  assert (Ef : formatted
               = match _format_cnvs ex_formatter ex_cnvs ex_variants with
                 | Some l => l
                 | None => []
                 end) by now rewrite E.
  rewrite Ef. split; vm_compute; reflexivity.
Qed.

(** C2. [write_cnvs] hands [format_and_merge_cnvs] only the retained
    regions of abnormal copy number, and the merge pass takes as the
    cellularity the greatest prevalence among the regions it is handed,
    not the cellularity of the group that the formatter was built with.
    For a CNV list with a region of normal copy number at prevalence
    0.9 and two regions of abnormal copy number at prevalence 0.5, the
    cellularity is 0.9, all three regions are retained, neither of the
    two abnormal regions is at the cellularity, and yet the two come
    out as one row, with the sum of their total_reads before the
    scaling and the first one's coordinates. *)
Theorem subclonal_regions_merged_in_table :
  let self := ex_mixed_group in
  let formatter :=
    mkFormatter (1 # 2) (9 # 10) (Group._estimated_read_depth self) 100 in
  Group._cellularity self = Some (9 # 10) /\
  find_cellularity ex_mixed_cnvs == 9 # 10 /\
  Group._filter_multiple_abnormal_cn_regions self ex_mixed_cnvs = Some ex_mixed_cnvs /\
  Group.at_cellularity self ex_gain = false /\
  Group.at_cellularity self ex_amplification = false /\
  find_cellularity [("1"%string, [ex_gain; ex_amplification])] == 5 # 10 /\
  exists a b merged row,
    format_one formatter "1" ex_mixed_variants ex_gain = Some a /\
    format_one formatter "1" ex_mixed_variants ex_amplification = Some b /\
    merge_cnvs formatter [("1"%string, [ex_gain; ex_amplification])] ex_mixed_variants
    = Some [merged] /\
    total_reads merged = (total_reads a + total_reads b)%Z /\
    ref_reads merged = _calc_ref_reads (5 # 10) (total_reads a + total_reads b) /\
    Group.write_cnvs self ex_mixed_variants (1 # 2) 100 = Some [row] /\
    cnv_id row = Some 0%nat /\ f_prevalence row == 5 # 10 /\
    (f_start row, f_end row) = (2001%Z, 3000%Z) /\
    TableSpec.listed row = [0%nat; 1%nat].
Proof.
  cbv zeta.
  split; [reflexivity|]. split; [vm_compute; reflexivity|].
  split; [vm_compute; reflexivity|].
  split; [vm_compute; reflexivity|]. split; [vm_compute; reflexivity|].
  split; [vm_compute; reflexivity|].
  destruct (format_one
              (mkFormatter (1 # 2) (9 # 10) (Group._estimated_read_depth ex_mixed_group) 100)
              "1" ex_mixed_variants ex_gain) as [a|] eqn:Ea;
    [|vm_compute in Ea; discriminate].
  destruct (format_one
              (mkFormatter (1 # 2) (9 # 10) (Group._estimated_read_depth ex_mixed_group) 100)
              "1" ex_mixed_variants ex_amplification) as [b|] eqn:Eb;
    [|vm_compute in Eb; discriminate].
  destruct (merge_cnvs
              (mkFormatter (1 # 2) (9 # 10) (Group._estimated_read_depth ex_mixed_group) 100)
              [("1"%string, [ex_gain; ex_amplification])] ex_mixed_variants)
    as [[|merged [|? ?]]|] eqn:Em; try (vm_compute in Em; discriminate).
  destruct (Group.write_cnvs ex_mixed_group ex_mixed_variants (1 # 2) 100)
    as [[|row [|? ?]]|] eqn:Ew; try (vm_compute in Ew; discriminate).
  exists a, b, merged, row.
  vm_compute in Ea. injection Ea as <-.
  vm_compute in Eb. injection Eb as <-.
  vm_compute in Em. injection Em as <-.
  vm_compute in Ew. injection Ew as <-.
  repeat split; vm_compute; reflexivity.
Qed.

End CnvTheorems.

(** ** Reconciliation of variants against CNV regions *)

Module ReconcileTheorems.
Import Variant Cnv Group Examples.
Local Open Scope Q_scope.

(** The outer loop keeps a region at the cellularity that it meets at
    [idx]. *)
Lemma filter_chrom_clonal (self : VariantAndCnvGroup) (region : CnvRegion)
    (rest : list CnvRegion) :
  at_cellularity self region = true ->
  filter_chrom self 0 (region :: rest)
  = (good <- filter_chrom self 0 rest ;; Some (region :: good)).
Proof. intros H. cbn. now rewrite H. Qed.

(** A kept variant index lies in a region of the map it is filtered
    against, and conversely. *)
Lemma filter_variants_spec (self self' : VariantAndCnvGroup) (regions : region_map) :
  _filter_variants_outside_regions self regions = Some self' ->
  forall vidx,
    In vidx (_variant_idxs self') <->
    In vidx (_variant_idxs self) /\
    exists variant region,
      nth_error (_variants self) vidx = Some variant /\
      In region (regions_of regions (CHROM variant)) /\
      (start region <= POS variant <= end_ region)%Z.
Proof.
  unfold _filter_variants_outside_regions.
  destruct (Exc.mapM _ _) as [flags|] eqn:E; cbn [Exc.bind]; [|discriminate].
  intros H. injection H as <-. cbn [_variant_idxs set_variant_idxs].
  apply ExcFacts.mapM_Forall2 in E.
  intros vidx. rewrite in_map_iff. split.
  - intros ([i b] & <- & Hin). apply filter_In in Hin. destruct Hin as [Hin Hb].
    cbn in Hb. subst b. cbn [fst].
    destruct (ExcFacts.Forall2_In_r _ E Hin) as (v & Hv & Ev). cbn beta in Ev.
    destruct (nth_error (_variants self) v) as [variant|] eqn:En;
      cbn [Exc.bind] in Ev; [|discriminate].
    injection Ev as -> Hex. split; [assumption|].
    apply existsb_exists in Hex. destruct Hex as (region & Hr & Hin').
    exists variant, region. repeat split; try assumption;
      unfold in_region in Hin'; apply andb_true_iff in Hin'; lia.
  - intros (Hin & variant & region & En & Hr & Hpos).
    destruct (ExcFacts.Forall2_In_l _ E Hin) as ([i b] & Hib & Ev). cbn beta in Ev.
    rewrite En in Ev. cbn [Exc.bind] in Ev. injection Ev as <- <-.
    eexists. split; [|apply filter_In; split; [exact Hib|]]; [reflexivity|].
    cbn [snd]. apply existsb_exists. exists region. split; [assumption|].
    unfold in_region. apply andb_true_iff. lia.
Qed.

(** C3, at a sub-clonal region followed at the same coordinates by a
    region at the cellularity, both of abnormal copy number: the region
    at clonal prevalence is not retained, and the variant inside it is
    discarded. Listed in the other order, both regions are retained. *)
Theorem clonal_region_dropped_after_subclonal :
  at_cellularity (ex_group [ex_subclonal; ex_clonal]) ex_clonal = true /\
  _filter_multiple_abnormal_cn_regions (ex_group [ex_subclonal; ex_clonal])
    [("1"%string, [ex_subclonal; ex_clonal])] = Some [("1"%string, [])] /\
  option_map _variant_idxs
    (exclude_variants_in_subclonal_cnvs (ex_group [ex_subclonal; ex_clonal]))
  = Some [] /\
  _filter_multiple_abnormal_cn_regions (ex_group [ex_clonal; ex_subclonal])
    [("1"%string, [ex_clonal; ex_subclonal])]
  = Some [("1"%string, [ex_clonal; ex_subclonal])] /\
  option_map _variant_idxs
    (exclude_variants_in_subclonal_cnvs (ex_group [ex_clonal; ex_subclonal]))
  = Some [0%nat].
Proof. repeat split; vm_compute; reflexivity. Qed.

End ReconcileTheorems.

(** ** Properties of subsampling *)

Module SubsampleTheorems.
Import Variant Group GroupSpec SubsampleFacts Examples.

(** The membership of the two groups. *)
Lemma subsample_spec (shuffle : list nat -> list nat) (self : VariantAndCnvGroup)
    (n : Z) (priority_ssms : list (string * Z)) (sub nonsub : list nat) :
  subsample shuffle self (Some n) priority_ssms = Some (sub, nonsub) ->
  let sh := shuffle (_variant_idxs self) in
  let p := prio_idx self priority_ssms in
  (0 <= n)%Z /\
  sort_idxs self (firstn (Z.to_nat n) (ranked p sh)) = Some sub /\
  exists rest, sort_idxs self rest = Some nonsub /\
               Permutation rest (skipn (Z.to_nat n) (ranked p sh)).
Proof.
  unfold subsample. intros H. cbv zeta.
  set (sh := shuffle (_variant_idxs self)) in *.
  set (p := prio_idx self priority_ssms).
  destruct (fold_left _ sh _) as [st|] eqn:Ef; cbn [Exc.bind] in H; [|discriminate].
  destruct (@select_fold self n priority_ssms sh [] [] st Ef) as (H1 & H2 & H3).
  cbv zeta in H1, H2, H3. cbn [length rev app] in H1, H2, H3.
  rewrite Nat.sub_0_r in H1, H2, H3. fold p in H1, H2, H3.
  set (N := Z.to_nat n) in *.
  set (fp := filter p sh) in *.
  set (fnp := filter (fun i => negb (p i)) sh) in *.
  destruct (Z.leb_spec (Z.of_nat (length (rev (fst st)))) n) as [Hle|]; [|discriminate].
  assert (Hn : (0 <= n)%Z) by lia.
  assert (Hlen : length (rev (fst st)) = Nat.min N (length fp))
    by (rewrite H1; apply length_firstn).
  replace (Z.to_nat (n - Z.of_nat (length (rev (fst st)))))
    with (N - length (rev (fst st)))%nat in H by lia.
  rewrite Hlen in H.
  destruct (sort_idxs self (rev (fst st) ++ _)) as [sub'|] eqn:Es;
    cbn [Exc.bind] in H; [|discriminate].
  destruct (sort_idxs self (skipn _ _)) as [nonsub'|] eqn:En;
    cbn [Exc.bind] in H; [|discriminate].
  injection H as <- <-.
  split; [assumption|]. unfold ranked. fold fp fnp. split.
  - rewrite <- Es. f_equal. rewrite firstn_app, H1. f_equal.
    destruct (Nat.le_gt_cases (length fp) N) as [Hc|Hc].
    + rewrite (H3 Hc). f_equal. lia.
    + replace (N - Nat.min N (length fp))%nat with 0%nat by lia.
      replace (N - length fp)%nat with 0%nat by lia. reflexivity.
  - eexists. split; [exact En|]. rewrite skipn_app.
    destruct (Nat.le_gt_cases (length fp) N) as [Hc|Hc].
    + rewrite (H3 Hc). rewrite (skipn_all2 fp) by assumption. cbn [app].
      replace (N - Nat.min N (length fp))%nat with (N - length fp)%nat by lia.
      reflexivity.
    + replace (N - Nat.min N (length fp))%nat with 0%nat by lia.
      replace (N - length fp)%nat with 0%nat by lia. cbn [skipn]. exact H2.
Qed.

(** C6. When a target sample size [n] is given, the variant indices
    are shuffled; the subsample is the first [n] of the shuffled
    indices taken with the priority variants first, that is, every
    priority variant met while fewer than [n] are chosen, backfilled
    from the remaining shuffled variants; what is left over is the
    nonsubsampled group; and each group is in ascending (chromosome,
    position) order when it is formatted. *)
Theorem subsample_prefers_priority (shuffle : list nat -> list nat)
    (self : VariantAndCnvGroup) (n : Z) (error_rate : Q)
    (priority_ssms : list (string * Z))
    (subsampled nonsubsampled : list FormattedVariant) :
  format_variants shuffle self (Some n) error_rate priority_ssms
  = Some (subsampled, nonsubsampled) ->
  let sh := shuffle (_variant_idxs self) in
  let p := prio_idx self priority_ssms in
  exists sub nonsub,
    subsample shuffle self (Some n) priority_ssms = Some (sub, nonsub) /\
    (0 <= n)%Z /\
    sort_idxs self (firstn (Z.to_nat n) (ranked p sh)) = Some sub /\
    Permutation nonsub (skipn (Z.to_nat n) (ranked p sh)) /\
    Permutation (sub ++ nonsub) sh /\
    length sub = Nat.min (Z.to_nat n) (length sh) /\
    ((length (filter p sh) <= Z.to_nat n)%nat ->
     forall i, In i sh -> p i = true -> In i sub) /\
    ((Z.to_nat n <= length (filter p sh))%nat ->
     forall i, In i sub -> p i = true) /\
    sorted_by_key self sub /\ sorted_by_key self nonsub /\
    variants_at self sub
    = Some (map (fun f => mkVariantId (v_chrom f) (v_pos f)) subsampled) /\
    variants_at self nonsub
    = Some (map (fun f => mkVariantId (v_chrom f) (v_pos f)) nonsubsampled) /\
    map ssm_id (subsampled ++ nonsubsampled) = seq 0 (length sub + length nonsub).
Proof.
  unfold format_variants. intros H. cbv zeta.
  destruct (subsample shuffle self (Some n) priority_ssms) as [[sub nonsub]|] eqn:Es;
    cbn [Exc.bind fst snd] in H; [|discriminate].
  destruct (rows_at self sub) as [rs|] eqn:Ers; cbn [Exc.bind] in H; [|discriminate].
  destruct (rows_at self nonsub) as [rn|] eqn:Ern; cbn [Exc.bind] in H; [|discriminate].
  injection H as <- <-.
  exists sub, nonsub. split; [reflexivity|].
  destruct (@subsample_spec shuffle self n priority_ssms sub nonsub Es)
    as (Hn & Esub & rest & Erest & Hrest).
  cbv zeta in Esub, Hrest.
  set (sh := shuffle (_variant_idxs self)) in *.
  set (p := prio_idx self priority_ssms) in *.
  destruct (@sort_idxs_spec self _ sub Esub) as [Psub Ssub].
  destruct (@sort_idxs_spec self rest nonsub Erest) as [Prest Srest].
  assert (Pnon : Permutation nonsub (skipn (Z.to_nat n) (ranked p sh)))
    by (now rewrite <- Prest).
  assert (Pranked : Permutation (ranked p sh) sh) by apply filter_partition_perm.
  destruct (@rows_at_variants self sub rs Ers) as [Evs Hls].
  destruct (@rows_at_variants self nonsub rn Ern) as [Evn Hln].
  destruct (format_variants_ids 0 error_rate rs) as [Eis Ens].
  destruct (format_variants_ids (length rs) error_rate rn) as [Ein Enn].
  repeat (split; [first [assumption | idtac]|]).
  - rewrite <- Psub, Pnon, firstn_skipn. exact Pranked.
  - rewrite <- (Permutation_length Psub), length_firstn.
    now rewrite (Permutation_length Pranked).
  - intros Hfit i Hi Hpi. apply (Permutation_in _ Psub).
    unfold ranked. rewrite firstn_app, (firstn_all2 (filter p sh)) by assumption.
    apply in_or_app. left. apply filter_In. now split.
  - intros Hfull i Hi. apply (Permutation_in _ (Permutation_sym Psub)) in Hi.
    unfold ranked in Hi. rewrite firstn_app in Hi.
    replace (Z.to_nat n - length (filter p sh))%nat with 0%nat in Hi by lia.
    cbn [firstn] in Hi. rewrite app_nil_r in Hi.
    apply In_firstn in Hi. apply filter_In in Hi. apply Hi.
  - now rewrite Eis.
  - now rewrite Ein.
  - rewrite map_app, Ens, Enn, Hls, Hln. symmetry. apply seq_app.
Qed.

Lemma subsample_prefers_priority_witness :
  exists subsampled nonsubsampled,
    format_variants ex_shuffle ex_sub_group (Some 3%Z) (1 # 1000) ex_priority
    = Some (subsampled, nonsubsampled) /\
    exists sub nonsub,
      subsample ex_shuffle ex_sub_group (Some 3%Z) ex_priority = Some (sub, nonsub) /\
      sub = [1; 4; 5]%nat /\ nonsub = [0; 2; 3]%nat /\
      Permutation (sub ++ nonsub) (ex_shuffle (_variant_idxs ex_sub_group)).
Proof.
  destruct (format_variants ex_shuffle ex_sub_group (Some 3%Z) (1 # 1000) ex_priority)
    as [[subsampled nonsubsampled]|] eqn:E; [|vm_compute in E; discriminate].
  exists subsampled, nonsubsampled. split; [reflexivity|].
  destruct (@subsample_prefers_priority ex_shuffle ex_sub_group 3%Z (1 # 1000)
              ex_priority subsampled nonsubsampled E)
    as (sub & nonsub & Es & _ & _ & _ & Hp & _).
  exists sub, nonsub. split; [exact Es|].
  vm_compute in Es. injection Es as <- <-.
  repeat split. exact Hp.
Defined.

End SubsampleTheorems.

(** ** Properties of the imputation *)

Module ImputeTheorems.
Import Impute ImputeSpec ImputeFacts Examples.
Local Open Scope R_scope.











End ImputeTheorems.

(** ** Properties of the parsing loop *)

Module ParseTheorems.
Import Variant Vcf VcfSpec VcfFacts Pipeline Examples.

Lemma pcawg_unavailable_iff (variant : VcfRecord) :
  pcawg_consensus_counts variant = Unavailable <-> counts_unavailable variant.
Proof.
  unfold pcawg_consensus_counts, counts_unavailable.
  destruct (lookup "t_alt_count" (r_INFO variant)) as [alt|]; [|split; auto].
  destruct (lookup "t_ref_count" (r_INFO variant)) as [ref|]; [|split; auto].
  split.
  - intros H. right. right. exists alt, ref.
    destruct (value_length alt) as [la| |] eqn:Ea; cbn [rbind] in H; try discriminate.
    + destruct (value_length ref) as [lr| |] eqn:Er; cbn [rbind] in H; try discriminate.
      * destruct (andb (Nat.eqb la lr) (Nat.eqb lr 1)) eqn:El; cbn [assert rbind] in H;
          [|discriminate].
        apply andb_true_iff in El. destruct El as [E1 E2].
        apply Nat.eqb_eq in E1, E2. subst.
        destruct (int_item alt 0) as [a| |] eqn:Eia; cbn [rbind] in H; try discriminate.
        -- destruct (int_item ref 0) as [r| |] eqn:Eir; cbn [rbind] in H;
             try discriminate.
           ++ exists a, r. destruct (Z.eqb_spec (a + r) 0); [|discriminate].
              repeat split; auto.
           ++ now elim (tame_int_item ref 0).
        -- now elim (tame_int_item alt 0).
      * destruct ref; discriminate.
    + destruct alt; discriminate.
  - intros [H|[H|(alt' & ref' & a & r & E1 & E2 & La & Lr & Ia & Ir & Hz)]];
      try discriminate.
    injection E1 as <-. injection E2 as <-.
    rewrite La, Lr. cbn [rbind Nat.eqb andb assert]. rewrite Ia, Ir. cbn [rbind].
    now rewrite Hz.
Qed.

Lemma read_counts_kept (self : VariantParser) (variants : list VcfRecord) :
  Forall (fun v => _calc_read_counts self v <> Fatal) variants ->
  read_counts self variants = Ok (kept self variants).
Proof.
  induction 1 as [|v t Hv _ IH]; cbn; [reflexivity|].
  destruct (_calc_read_counts self v) as [[r tot]| |]; [| |congruence].
  - rewrite IH. reflexivity.
  - exact IH.
Qed.

Lemma kept_In (self : VariantParser) (variants : list VcfRecord) v r t :
  In (v, r, t) (kept self variants) <->
  In v variants /\ _calc_read_counts self v = Ok (r, t).
Proof.
  unfold kept. rewrite in_flat_map. split.
  - intros (x & Hx & Hin).
    destruct (_calc_read_counts self x) as [[r' t']| |] eqn:E; try destruct Hin.
    + injection H as -> -> ->. now split.
    + destruct H.
  - intros [Hin E]. exists v. split; [assumption|]. rewrite E. now left.
Qed.

(** C7, as the code has it. The loop of [list_variants] drops a record
    exactly when its adapter raises [ReadCountsUnavailableError], and
    dropping never fails the loop: the records kept are those for which
    the adapter returns counts, with these counts. The PCAWG-consensus
    adapter raises it exactly for a record whose INFO lacks
    [t_alt_count] or [t_ref_count] or whose two counts add up to
    zero. *)
Theorem only_unavailable_records_are_skipped (self : VariantParser)
    (variants : list VcfRecord) :
  Forall (fun v => _calc_read_counts self v <> Fatal) variants ->
  read_counts self variants = Ok (kept self variants) /\
  (forall v r t, In (v, r, t) (kept self variants) <->
                 In v variants /\ _calc_read_counts self v = Ok (r, t)) /\
  (forall v, In v variants -> _calc_read_counts self v = Unavailable ->
             forall r t, ~ In (v, r, t) (kept self variants)) /\
  (kind self = PcawgConsensus ->
   forall v, _calc_read_counts self v = Unavailable <-> counts_unavailable v).
Proof.
  intros H. split; [now apply read_counts_kept|]. split; [apply kept_In|]. split.
  - intros v _ E r t Hin. apply kept_In in Hin. destruct Hin as [_ Hin]. congruence.
  - intros Hk v. unfold _calc_read_counts. rewrite Hk. apply pcawg_unavailable_iff.
Qed.

Lemma only_unavailable_records_are_skipped_witness :
  let self := mkParser PcawgConsensus "pcawg.vcf" None in
  let variants := [ex_pcawg_absent; ex_pcawg_zero; ex_pcawg_counts] in
  Forall (fun v => _calc_read_counts self v <> Fatal) variants /\
  read_counts self variants = Ok [(ex_pcawg_counts, 30%Z, 40%Z)].
Proof.
  cbv zeta.
  assert (H : Forall (fun v => _calc_read_counts
                                 (mkParser PcawgConsensus "pcawg.vcf" None) v <> Fatal)
                [ex_pcawg_absent; ex_pcawg_zero; ex_pcawg_counts])
    by (repeat constructor; vm_compute; discriminate).
  split; [exact H|].
  destruct (@only_unavailable_records_are_skipped _ _ H) as [E _].
  rewrite E. vm_compute. reflexivity.
Defined.

(** C7 as stated fails: the Strelka adapter returns the counts (0, 0)
    for a record with zero depth, [list_variants] keeps the record with
    these zeros, and [parse_variants] then fails on them; a record that
    lacks the field an adapter reads ([AD] for MuTect) is an exception
    that ends [list_variants]. *)
Lemma strelka_zero_reads_record_is_kept :
  _calc_read_counts (mkParser Strelka "strelka.vcf" None) ex_strelka_zero = Ok (0%Z, 0%Z) /\
  list_variants ex_fs (mkParser Strelka "strelka.vcf" None)
  = Ok [(ex_strelka_zero, 0%Z, 0%Z)] /\
  snd (parse_variants ex_fs ex_strelka_args) = Fatal /\
  list_variants ex_fs (mkParser MutectSmchet "smchet.vcf" None) = Fatal.
Proof.
  split; [vm_compute; reflexivity|]. split; [vm_compute; reflexivity|].
  split; [|vm_compute; reflexivity].
  unfold parse_variants.
  assert (E : parse_files ex_fs ex_strelka_args (vcf_files ex_strelka_args)
              = (["strelka.vcf"%string], Ok [[(ex_strelka_zero, 0%Z, 0%Z)]]))
    by (vm_compute; reflexivity).
  rewrite E. cbn [snd rbind].
  assert (Es : sort_ids
                 (distinct
                    (concat
                       (map (map (fun v : VcfRecord * Z * Z => id_of (fst (fst v))))
                            [[(ex_strelka_zero, 0%Z, 0%Z)]])))
               = Some [mkVariantId "1" 100]) by (vm_compute; reflexivity).
  rewrite Es. cbn [of_option rbind].
  rewrite (@ImputeFacts.impute_rejects_nonpositive _ _ 0%nat 0%nat 0%R).
  - reflexivity.
  - repeat constructor.
  - reflexivity.
  - apply Rle_refl.
Qed.

Lemma parse_files_unknown (fs : string -> option (list VcfRecord)) (args : Args)
    (pre post : list string) (bad : string) :
  unknown_type args bad ->
  snd (parse_files fs args (pre ++ bad :: post)) = Fatal /\
  (exists rest, map file_of pre = fst (parse_files fs args (pre ++ bad :: post)) ++ rest) /\
  (Forall (parses fs args) pre ->
   fst (parse_files fs args (pre ++ bad :: post)) = map file_of pre).
Proof.
  intros (vcf_type & vcf_fn & Es & Ep).
  induction pre as [|f pre IH]; cbn [app parse_files map].
  - rewrite Es, Ep. cbn [fst snd].
    split; [reflexivity|]. split; [now exists [] | reflexivity].
  - assert (Hfail : forall opened : list string,
               (opened = [] \/ opened = [file_of f]) ->
               ~ parses fs args f ->
               snd (opened, @Fatal (list (list (VcfRecord * Z * Z)))) = Fatal /\
               (exists rest, file_of f :: map file_of pre = opened ++ rest) /\
               (Forall (parses fs args) (f :: pre) -> opened = file_of f :: map file_of pre)).
    { intros opened Ho Hn. split; [reflexivity|]. split.
      - destruct Ho as [->| ->]; now eexists.
      - intros H. inversion H; subst. contradiction. }
    destruct (split_once "=" f) as [[t fn]|] eqn:Ef.
    2:{ apply Hfail; [now left|].
        intros (? & ? & ? & ? & E1 & _). congruence. }
    destruct (select_parser args t fn) as [variant_parser|] eqn:Esel.
    2:{ apply Hfail; [now left|].
        intros (? & ? & ? & ? & E1 & E2 & _). congruence. }
    assert (Hfn : file_of f = fn) by (unfold file_of; now rewrite Ef).
    destruct (list_variants fs variant_parser) as [parsed| |] eqn:El.
    + destruct (parse_files fs args (pre ++ bad :: post)) as [opened r] eqn:Er.
      cbn [fst snd] in IH |- *. destruct IH as (IH1 & (rest & IH2) & IH3).
      subst r. split; [reflexivity|]. split.
      * exists rest. cbn [app]. now rewrite IH2, Hfn.
      * intros H. inversion H; subst. cbn [fst]. f_equal. now apply IH3.
    + apply Hfail; [right; now rewrite Hfn|].
      intros (? & ? & ? & ? & E1 & E2 & E3). congruence.
    + apply Hfail; [right; now rewrite Hfn|].
      intros (? & ? & ? & ? & E1 & E2 & E3). congruence.
Qed.

(** C8, as the code has it. When the list of VCF files holds an unknown
    caller-type keyword, [parse_variants] ends with an exception and
    returns no matrices; the file of that argument and of every later
    one is never opened; the files opened are those of the arguments
    before it, in order, up to the first that fails, all of them when
    none fails. *)
Theorem unknown_type_aborts (fs : string -> option (list VcfRecord)) (args : Args)
    (pre post : list string) (bad : string) :
  vcf_files args = pre ++ bad :: post -> unknown_type args bad ->
  snd (parse_variants fs args) = Fatal /\
  (exists rest, map file_of pre = fst (parse_variants fs args) ++ rest) /\
  (pre = [] -> fst (parse_variants fs args) = []) /\
  (Forall (parses fs args) pre -> fst (parse_variants fs args) = map file_of pre).
Proof.
  intros Hfiles Hbad.
  destruct (parse_files_unknown fs pre post Hbad) as (H1 & H2 & H3).
  unfold parse_variants. rewrite Hfiles.
  destruct (parse_files fs args (pre ++ bad :: post)) as [opened r].
  cbn [fst snd] in *. subst r. cbn [rbind].
  repeat split; try assumption.
  intros ->. destruct H2 as [rest H2]. cbn in H2.
  destruct opened; [reflexivity | discriminate].
Qed.

Lemma ex_args_unknown : unknown_type ex_args "varscan=strelka.vcf".
Proof. exists "varscan"%string, "strelka.vcf"%string. split; reflexivity. Defined.

Lemma unknown_type_aborts_witness :
  vcf_files ex_args
  = ["pcawg_consensus=pcawg.vcf"%string] ++ "varscan=strelka.vcf"%string
    :: ["strelka=strelka.vcf"%string] /\
  unknown_type ex_args "varscan=strelka.vcf" /\
  snd (parse_variants ex_fs ex_args) = Fatal /\
  exists rest, map file_of ["pcawg_consensus=pcawg.vcf"%string]
               = fst (parse_variants ex_fs ex_args) ++ rest.
Proof.
  split; [reflexivity|]. split; [exact ex_args_unknown|].
  destruct (@unknown_type_aborts ex_fs ex_args ["pcawg_consensus=pcawg.vcf"%string]
              ["strelka=strelka.vcf"%string] "varscan=strelka.vcf"%string
              eq_refl ex_args_unknown) as (H1 & H2 & _).
  split; assumption.
Defined.

(** C8 as stated fails: with the unknown keyword in second place, the
    first file has been opened and parsed when the exception is
    raised. *)
Lemma file_read_before_unknown_type :
  unknown_type ex_args "varscan=strelka.vcf" /\
  parse_files ex_fs ex_args (vcf_files ex_args) = (["pcawg.vcf"%string], Fatal) /\
  fst (parse_variants ex_fs ex_args) = ["pcawg.vcf"%string] /\
  list_variants ex_fs (mkParser PcawgConsensus "pcawg.vcf" None)
  = Ok [(set_chrom ex_pcawg_counts "2", 30%Z, 40%Z)].
Proof.
  split; [exact ex_args_unknown|].
  assert (E : parse_files ex_fs ex_args (vcf_files ex_args)
              = (["pcawg.vcf"%string], Fatal)) by (vm_compute; reflexivity).
  split; [exact E|]. split.
  - unfold parse_variants. rewrite E. reflexivity.
  - vm_compute. reflexivity.
Qed.

End ParseTheorems.

(** ** Further properties of the reconciliation *)

Module ReconcileExtra.
Import Variant Cnv Group ReconcileSpec Examples.
Local Open Scope Z_scope.

Lemma flags_of_valid (self : VariantAndCnvGroup) (regions : region_map)
    (idxs : list nat) :
  Forall (fun vidx => (vidx < length (_variants self))%nat) idxs ->
  Exc.mapM
    (fun vidx =>
       variant <- nth_error (_variants self) vidx ;;
       Some (vidx, existsb (in_region (POS variant))
                           (regions_of regions (CHROM variant))))
    idxs
  = Some (map (fun vidx => (vidx, inside self regions vidx)) idxs).
Proof.
  induction 1 as [|i t Hi _ IH]; cbn [Exc.mapM map]; [reflexivity|].
  unfold inside at 1.
  destruct (nth_error (_variants self) i) as [v|] eqn:E;
    [|apply nth_error_None in E; lia].
  cbn [Exc.bind]. now rewrite IH.
Qed.

Lemma kept_of_flags (f : nat -> bool) (idxs : list nat) :
  map fst (filter snd (map (fun vidx => (vidx, f vidx)) idxs)) = filter f idxs.
Proof.
  induction idxs as [|i t IH]; cbn; [reflexivity|].
  destruct (f i); cbn; now rewrite IH.
Qed.

Lemma filter_variants_idxs (self : VariantAndCnvGroup) (regions : region_map) :
  valid_idxs self ->
  _filter_variants_outside_regions self regions
  = Some (set_variant_idxs self (filter (inside self regions) (_variant_idxs self))).
Proof.
  intros Hv. unfold _filter_variants_outside_regions.
  rewrite (flags_of_valid self regions Hv). cbn [Exc.bind].
  now rewrite kept_of_flags.
Qed.

(** The filter against a region map keeps, in their order, the indices
    of the variants that lie in a region the map holds for their
    chromosome, and changes nothing else of the group; the indices it
    keeps are among those it was given (the subset that
    [_print_variant_differences] asserts). *)
Theorem filter_keeps_variants_inside (self : VariantAndCnvGroup)
    (regions : region_map) :
  valid_idxs self ->
  exists self',
    _filter_variants_outside_regions self regions = Some self' /\
    _variant_idxs self' = filter (inside self regions) (_variant_idxs self) /\
    incl (_variant_idxs self') (_variant_idxs self) /\
    valid_idxs self' /\
    _variants self' = _variants self /\
    _ref_read_counts self' = _ref_read_counts self /\
    _total_read_counts self' = _total_read_counts self /\
    _cn_regions self' = _cn_regions self /\
    _cellularity self' = _cellularity self.
Proof.
  intros Hv. rewrite (filter_variants_idxs regions Hv).
  eexists. split; [reflexivity|].
  cbn [_variant_idxs _variants set_variant_idxs _ref_read_counts _total_read_counts
       _cn_regions _cellularity].
  split; [reflexivity|]. split.
  - intros i Hi. apply filter_In in Hi. apply Hi.
  - split; [|repeat split].
    unfold valid_idxs in *. cbn [_variant_idxs _variants set_variant_idxs].
    rewrite Forall_forall in *. intros i Hi.
    apply filter_In in Hi. apply Hv, Hi.
Qed.

Lemma ex_group_valid (regions : list CnvRegion) : valid_idxs (ex_group regions).
Proof. repeat constructor. Defined.

Lemma filter_keeps_variants_inside_witness :
  valid_idxs (ex_group [ex_clonal]) /\
  exists self',
    _filter_variants_outside_regions (ex_group [ex_clonal])
      [("1"%string, [ex_clonal])] = Some self' /\
    _variant_idxs self' = [0%nat].
Proof.
  split; [apply ex_group_valid|].
  destruct (@filter_keeps_variants_inside (ex_group [ex_clonal])
              [("1"%string, [ex_clonal])] (ex_group_valid _))
    as (self' & E & Hidx & _).
  exists self'. split; [exact E|]. rewrite Hidx. reflexivity.
Defined.

Lemma regions_of_map_filter (test : CnvRegion -> bool) (cn : region_map) (chrom : string) :
  regions_of
    (map (fun kv : string * list CnvRegion => (fst kv, filter test (snd kv))) cn) chrom
  = filter test (regions_of cn chrom).
Proof.
  induction cn as [|[k regs] t IH]; cbn; [reflexivity|].
  destruct (String.eqb k chrom); [reflexivity | exact IH].
Qed.

Lemma existsb_filter {A : Type} (f g : A -> bool) (l : list A) :
  existsb f (filter g l) = existsb (fun x => andb (f x) (g x)) l.
Proof.
  induction l as [|x t IH]; cbn; [reflexivity|].
  destruct (g x); cbn; rewrite IH.
  - now rewrite andb_true_r.
  - now rewrite andb_false_r.
Qed.

(** [retain_only_variants_in_normal_cn_regions] raises when no CNV
    regions were added; otherwise it keeps, in their order, exactly the
    variants that lie in a region of their chromosome that has normal
    copy number and sits at the cellularity. *)
Theorem normal_cn_mode_keeps_normal_clonal (self : VariantAndCnvGroup) :
  valid_idxs self ->
  match _cn_regions self with
  | None => retain_only_variants_in_normal_cn_regions self = None
  | Some cn_regions =>
      exists self',
        retain_only_variants_in_normal_cn_regions self = Some self' /\
        _variant_idxs self'
        = filter (inside_where self (normal_clonal self) cn_regions)
                 (_variant_idxs self)
  end.
Proof.
  intros Hv. unfold retain_only_variants_in_normal_cn_regions.
  destruct (_cn_regions self) as [cn|]; cbn [Exc.bind]; [|reflexivity].
  rewrite (filter_variants_idxs _ Hv).
  eexists. split; [reflexivity|]. cbn [_variant_idxs set_variant_idxs].
  apply filter_ext. intros i. unfold inside, inside_where.
  destruct (nth_error (_variants self) i) as [v|]; [|reflexivity].
  rewrite regions_of_map_filter, existsb_filter. reflexivity.
Qed.

Lemma normal_cn_mode_keeps_normal_clonal_witness :
  valid_idxs (ex_group [mkRegion 1 10 1 1 (8 # 10)]) /\
  exists self',
    retain_only_variants_in_normal_cn_regions (ex_group [mkRegion 1 10 1 1 (8 # 10)])
    = Some self' /\
    _variant_idxs self' = [0%nat].
Proof.
  split; [apply ex_group_valid|].
  pose proof (@normal_cn_mode_keeps_normal_clonal
                (ex_group [mkRegion 1 10 1 1 (8 # 10)]) (ex_group_valid _)) as H.
  cbn [_cn_regions ex_group add_cnvs] in H.
  destruct H as (self' & E & Hidx).
  exists self'. split; [exact E|]. rewrite Hidx. reflexivity.
Defined.

Lemma subseq_refl {A : Type} (l : list A) : subseq l l.
Proof. induction l; [constructor | now apply subseq_keep]. Qed.

Lemma subseq_nil_l {A : Type} (l : list A) : subseq [] l.
Proof. induction l; [constructor | now apply subseq_skip]. Qed.

Lemma subseq_app {A : Type} (a b c d : list A) :
  subseq a b -> subseq c d -> subseq (a ++ c) (b ++ d).
Proof.
  induction 1 as [|x l1 l2 _ IH|x l1 l2 _ IH]; intros Hcd; cbn [app].
  - assumption.
  - apply subseq_skip. now apply IH.
  - apply subseq_keep. now apply IH.
Qed.

Lemma subseq_In {A : Type} (l1 l2 : list A) (x : A) : subseq l1 l2 -> In x l1 -> In x l2.
Proof.
  induction 1 as [|y l1 l2 _ IH|y l1 l2 _ IH]; intros Hin; [assumption| |].
  - right. auto.
  - destruct Hin as [->|Hin]; [now left | right; auto].
Qed.

Lemma subseq_filter {A : Type} (f : A -> bool) (l : list A) : subseq (filter f l) l.
Proof.
  induction l as [|x t IH]; cbn; [constructor|].
  destruct (f x); [now apply subseq_keep | now apply subseq_skip].
Qed.

(** The inner loop takes a prefix of the rest, all at the coordinates
    of the region that opens the block. *)
Lemma same_coords_prefix (region : CnvRegion) (rest more : list CnvRegion) :
  same_coords region rest = Some more ->
  rest = more ++ skipn (length more) rest /\
  Forall (fun r => start r = start region /\ end_ r = end_ region) more.
Proof.
  revert more. induction rest as [|r t IH]; intros more H; cbn in H.
  - injection H as <-. now split.
  - destruct (Z.eqb_spec (start r) (start region)) as [Es|_];
      [|injection H as <-; now split].
    destruct (Z.eqb_spec (end_ r) (end_ region)) as [Ee|_]; [|discriminate].
    destruct (same_coords region t) as [more'|]; cbn [Exc.bind] in H; [|discriminate].
    injection H as <-. destruct (IH _ eq_refl) as [Ht Hall]. cbn [length skipn app].
    split; [now rewrite <- Ht | now constructor].
Qed.

(** One round of the outer loop. *)
Lemma filter_chrom_round (self : VariantAndCnvGroup) (region : CnvRegion)
    (rest : list CnvRegion) :
  filter_chrom self 0 (region :: rest)
  = if at_cellularity self region
    then good <- filter_chrom self 0 rest ;; Some (region :: good)
    else more <- same_coords region rest ;;
         good <- filter_chrom self (length more) rest ;;
         Some (block_result (region :: more) good).
Proof.
  cbn [filter_chrom]. destruct (at_cellularity self region); [reflexivity|].
  destruct (same_coords region rest) as [more|]; cbn [Exc.bind]; [|reflexivity].
  destruct (filter_chrom self (length more) rest) as [good|]; cbn [Exc.bind];
    [|reflexivity].
  unfold block_result, abnormal.
  now destruct (filter (fun r => negb (_is_region_normal_cn r)) (region :: more))
    as [|a [|b t]].
Qed.

Lemma block_result_subseq (block good rest : list CnvRegion) :
  subseq good rest -> subseq (block_result block good) (block ++ rest).
Proof.
  intros H. unfold block_result.
  pose proof (subseq_filter abnormal block) as Hf.
  destruct (filter abnormal block) as [|a [|b t]].
  - apply (@subseq_app _ [] block good rest (subseq_nil_l block) H).
  - apply (@subseq_app _ [a] block good rest Hf H).
  - apply (@subseq_app _ [] block good rest (subseq_nil_l block) H).
Qed.

Lemma block_result_retainable (self : VariantAndCnvGroup) (block good : list CnvRegion) :
  Forall (fun r => retainable self r = true) good ->
  Forall (fun r => retainable self r = true) (block_result block good).
Proof.
  intros H. unfold block_result.
  assert (Ha : Forall (fun r => abnormal r = true) (filter abnormal block))
    by (apply Forall_forall; intros r Hr; now apply filter_In in Hr).
  destruct (filter abnormal block) as [|a [|b t]]; try assumption.
  constructor; [|assumption]. inversion Ha as [|? ? Hab _]; subst.
  unfold retainable. rewrite Hab. apply orb_true_r.
Qed.

Lemma filter_chrom_retained (self : VariantAndCnvGroup) (reg : list CnvRegion) :
  forall skip good,
    filter_chrom self skip reg = Some good ->
    subseq good (skipn skip reg) /\ Forall (fun r => retainable self r = true) good.
Proof.
  induction reg as [|region rest IH]; intros skip good H.
  - cbn in H. injection H as <-. rewrite skipn_nil. split; constructor.
  - destruct skip as [|k]; [|cbn [skipn filter_chrom] in *; now apply IH].
    rewrite filter_chrom_round in H. cbn [skipn].
    destruct (at_cellularity self region) eqn:Ec.
    + destruct (filter_chrom self 0 rest) as [good'|] eqn:Eg; cbn [Exc.bind] in H;
        [|discriminate].
      injection H as <-. destruct (IH _ _ Eg) as [Hs Hr]. cbn [skipn] in Hs. split.
      * now apply subseq_keep.
      * constructor; [|assumption]. unfold retainable. now rewrite Ec.
    + destruct (same_coords region rest) as [more|] eqn:Em; cbn [Exc.bind] in H;
        [|discriminate].
      destruct (filter_chrom self (length more) rest) as [good'|] eqn:Eg;
        cbn [Exc.bind] in H; [|discriminate].
      injection H as <-. destruct (IH _ _ Eg) as [Hs Hr].
      destruct (same_coords_prefix _ _ Em) as [Hrest _].
      split; [|now apply block_result_retainable].
      rewrite Hrest at 1.
      change (region :: more ++ skipn (length more) rest)
        with ((region :: more) ++ skipn (length more) rest).
      now apply block_result_subseq.
Qed.

(** The regions kept on a chromosome are regions of the input, in their
    order, each once; every kept region is at the cellularity or has
    abnormal copy number, so a sub-clonal region of normal copy number
    is never kept. *)
Theorem retained_regions_are_input_regions (self : VariantAndCnvGroup)
    (reg good : list CnvRegion) :
  filter_chrom self 0 reg = Some good ->
  subseq good reg /\
  (forall r, In r good -> In r reg) /\
  (forall r, In r good -> at_cellularity self r = true \/ _is_region_normal_cn r = false) /\
  (forall r, In r reg -> at_cellularity self r = false ->
             _is_region_normal_cn r = true -> ~ In r good).
Proof.
  intros H. destruct (filter_chrom_retained _ _ _ H) as [Hs Hr]. cbn [skipn] in Hs.
  rewrite Forall_forall in Hr.
  assert (Hret : forall r, In r good ->
                   at_cellularity self r = true \/ _is_region_normal_cn r = false).
  { intros r Hin. specialize (Hr r Hin). unfold retainable, abnormal in Hr.
    apply orb_true_iff in Hr. destruct Hr as [Hr|Hr]; [now left | right].
    now apply negb_true_iff in Hr. }
  split; [assumption|]. split; [intros r; now apply subseq_In|]. split; [assumption|].
  intros r _ Hc Hn Hin. destruct (Hret r Hin); congruence.
Qed.

Lemma retained_regions_are_input_regions_witness :
  exists good,
    filter_chrom (ex_group [ex_clonal; ex_subclonal]) 0 [ex_clonal; ex_subclonal]
    = Some good /\ subseq good [ex_clonal; ex_subclonal].
Proof.
  destruct (filter_chrom (ex_group [ex_clonal; ex_subclonal]) 0 [ex_clonal; ex_subclonal])
    as [good|] eqn:E; [|vm_compute in E; discriminate].
  exists good. split; [reflexivity|].
  apply (@retained_regions_are_input_regions _ _ _ E).
Defined.

Lemma filter_chrom_distinct (self : VariantAndCnvGroup) (reg : list CnvRegion) :
  distinct_starts reg ->
  filter_chrom self 0 reg = Some (filter (retainable self) reg).
Proof.
  induction reg as [|region rest IH]; intros Hd; [reflexivity|].
  destruct Hd as [Hhead Hrest]. rewrite filter_chrom_round.
  cbn [filter]. unfold retainable at 1.
  destruct (at_cellularity self region); cbn [orb].
  - rewrite (IH Hrest). reflexivity.
  - assert (Em : same_coords region rest = Some []).
    { destruct rest as [|b t]; [reflexivity|]. cbn.
      destruct (Z.eqb_spec (start b) (start region)); [congruence | reflexivity]. }
    rewrite Em. cbn [Exc.bind length]. rewrite (IH Hrest). cbn [Exc.bind].
    unfold block_result. cbn [filter]. now destruct (abnormal region).
Qed.

(** When no two neighbouring regions of a chromosome start at the same
    coordinate (one record per region), no assertion can fail and the
    regions kept are exactly those at the cellularity and those of
    abnormal copy number. *)
Theorem one_record_per_region (self : VariantAndCnvGroup) (reg : list CnvRegion) :
  distinct_starts reg ->
  filter_chrom self 0 reg = Some (filter (retainable self) reg).
Proof. exact (@filter_chrom_distinct self reg). Qed.

Lemma one_record_per_region_witness :
  distinct_starts [ex_clonal; mkRegion 20 30 1 1 (3 # 10); mkRegion 40 50 3 1 (3 # 10)] /\
  filter_chrom (ex_group [ex_clonal]) 0
    [ex_clonal; mkRegion 20 30 1 1 (3 # 10); mkRegion 40 50 3 1 (3 # 10)]
  = Some [ex_clonal; mkRegion 40 50 3 1 (3 # 10)].
Proof.
  assert (H : distinct_starts
                [ex_clonal; mkRegion 20 30 1 1 (3 # 10); mkRegion 40 50 3 1 (3 # 10)])
    by (cbn; repeat split; discriminate).
  split; [exact H|].
  rewrite (@one_record_per_region (ex_group [ex_clonal]) _ H). reflexivity.
Defined.

Lemma same_coords_block (region : CnvRegion) (more rest : list CnvRegion) :
  Forall (fun r => start r = start region /\ end_ r = end_ region) more ->
  match rest with
  | next :: _ => start next <> start region
  | [] => True
  end ->
  same_coords region (more ++ rest) = Some more.
Proof.
  intros Hm Hn. induction Hm as [|r t [Hs He] _ IH]; cbn [app].
  - destruct rest as [|next t]; [reflexivity|]. cbn.
    destruct (Z.eqb_spec (start next) (start region)); [contradiction | reflexivity].
  - cbn. rewrite Hs, He, !Z.eqb_refl, IH. reflexivity.
Qed.

Lemma filter_chrom_skip (self : VariantAndCnvGroup) (more rest : list CnvRegion) :
  filter_chrom self (length more) (more ++ rest) = filter_chrom self 0 rest.
Proof. induction more as [|r t IH]; [reflexivity | exact IH]. Qed.

(** A block opened by a sub-clonal region, made of all the following
    regions at its coordinates: when exactly one region of the block has
    abnormal copy number, that region is kept, and otherwise (none, or
    two or more) nothing of the block is kept; the loop goes on after
    the block. This holds whatever the prevalence of the regions that
    follow the first in the block. *)
Theorem subclonal_block (self : VariantAndCnvGroup) (region : CnvRegion)
    (more rest : list CnvRegion) :
  at_cellularity self region = false ->
  Forall (fun r => start r = start region /\ end_ r = end_ region) more ->
  match rest with
  | next :: _ => start next <> start region
  | [] => True
  end ->
  filter_chrom self 0 (region :: more ++ rest)
  = (good <- filter_chrom self 0 rest ;;
     Some (match filter abnormal (region :: more) with
           | [only] => only :: good
           | _ => good
           end)).
Proof.
  intros Hc Hm Hn. rewrite filter_chrom_round, Hc.
  rewrite (@same_coords_block region more rest Hm Hn). cbn [Exc.bind].
  rewrite filter_chrom_skip. reflexivity.
Qed.

Lemma subclonal_block_witness :
  at_cellularity (ex_group [ex_clonal]) ex_subclonal = false /\
  Forall (fun r => start r = start ex_subclonal /\ end_ r = end_ ex_subclonal)
    [mkRegion 1 10 1 1 (5 # 10)] /\
  filter_chrom (ex_group [ex_clonal]) 0
    (ex_subclonal :: [mkRegion 1 10 1 1 (5 # 10)] ++ [mkRegion 20 30 2 0 (8 # 10)])
  = Some [ex_subclonal; mkRegion 20 30 2 0 (8 # 10)].
Proof.
  assert (Hc : at_cellularity (ex_group [ex_clonal]) ex_subclonal = false)
    by reflexivity.
  assert (Hm : Forall (fun r => start r = start ex_subclonal /\
                                end_ r = end_ ex_subclonal)
                 [mkRegion 1 10 1 1 (5 # 10)])
    by (repeat constructor).
  split; [exact Hc|]. split; [exact Hm|].
  rewrite (@subclonal_block (ex_group [ex_clonal]) ex_subclonal
             [mkRegion 1 10 1 1 (5 # 10)] [mkRegion 20 30 2 0 (8 # 10)] Hc Hm).
  - reflexivity.
  - cbn. discriminate.
Defined.

Lemma filter_regions_distinct (self : VariantAndCnvGroup) (cn : region_map) :
  Forall (fun kv : string * list CnvRegion => distinct_starts (snd kv)) cn ->
  _filter_multiple_abnormal_cn_regions self cn
  = Some (map (fun kv : string * list CnvRegion =>
                 (fst kv, filter (retainable self) (snd kv))) cn).
Proof.
  unfold _filter_multiple_abnormal_cn_regions.
  induction 1 as [|kv t Hkv _ IH]; cbn [Exc.mapM map]; [reflexivity|].
  rewrite (@filter_chrom_distinct self (snd kv) Hkv). cbn [Exc.bind]. now rewrite IH.
Qed.

(** The default mode, [exclude_variants_in_subclonal_cnvs], on a CNV
    list with one record per region: it raises when no CNV regions were
    added, and otherwise keeps, in their order, exactly the variants
    that lie in a region of their chromosome that is at the cellularity
    or has abnormal copy number. A variant covered only by sub-clonal
    regions of normal copy number, or by no region, is dropped. *)
Theorem default_mode_keeps_retainable (self : VariantAndCnvGroup) :
  valid_idxs self ->
  (_cn_regions self = None -> exclude_variants_in_subclonal_cnvs self = None) /\
  (forall cn_regions,
      _cn_regions self = Some cn_regions ->
      Forall (fun kv : string * list CnvRegion => distinct_starts (snd kv))
             cn_regions ->
      exists self',
        exclude_variants_in_subclonal_cnvs self = Some self' /\
        _variant_idxs self'
        = filter (inside_where self (retainable self) cn_regions)
                 (_variant_idxs self)).
Proof.
  intros Hv. unfold exclude_variants_in_subclonal_cnvs. split.
  - intros ->. reflexivity.
  - intros cn -> Hd. cbn [Exc.bind].
    rewrite (@filter_regions_distinct self cn Hd). cbn [Exc.bind].
    rewrite (filter_variants_idxs _ Hv).
    eexists. split; [reflexivity|]. cbn [_variant_idxs set_variant_idxs].
    apply filter_ext. intros i. unfold inside, inside_where.
    destruct (nth_error (_variants self) i) as [v|]; [|reflexivity].
    rewrite regions_of_map_filter, existsb_filter. reflexivity.
Qed.

Lemma default_mode_keeps_retainable_witness :
  valid_idxs (ex_group [ex_clonal]) /\
  Forall (fun kv : string * list CnvRegion => distinct_starts (snd kv))
         [("1"%string, [ex_clonal])] /\
  exists self',
    exclude_variants_in_subclonal_cnvs (ex_group [ex_clonal]) = Some self' /\
    _variant_idxs self' = [0%nat].
Proof.
  assert (Hd : Forall (fun kv : string * list CnvRegion => distinct_starts (snd kv))
                 [("1"%string, [ex_clonal])]) by (repeat constructor).
  split; [apply ex_group_valid|]. split; [exact Hd|].
  destruct (@default_mode_keeps_retainable (ex_group [ex_clonal]) (ex_group_valid _))
    as [_ H].
  destruct (H [("1"%string, [ex_clonal])] eq_refl Hd) as (self' & E & Hidx).
  exists self'. split; [exact E|]. rewrite Hidx. reflexivity.
Defined.

End ReconcileExtra.

(** ** Further properties of the CNV table *)

Module TableExtra.
Import PyNum PyNumFacts Variant Cnv CnvSpec CnvFacts SortFacts MergeFacts TableSpec
       Examples.
Local Open Scope Q_scope.

Lemma Qceiling_nonpos (x : Q) : x <= 0 -> (Qceiling x <= 0)%Z.
Proof.
  intros H. change 0%Z with (Qceiling 0). now apply Qceiling_resp_le.
Qed.

(** Python's [round] is monotone. *)
Lemma py_round_mono (a b : Q) : a <= b -> (py_round a <= py_round b)%Z.
Proof.
  intros H. unfold py_round.
  destruct (Qle_bool 0 a) eqn:Ea; destruct (Qle_bool 0 b) eqn:Eb.
  - apply Qfloor_resp_le. lra.
  - apply Qle_bool_true in Ea. apply Qle_bool_false in Eb. lra.
  - apply Qle_bool_false in Ea. apply Qle_bool_true in Eb.
    transitivity 0%Z; [apply Qceiling_nonpos; lra | apply Qfloor_nonneg; lra].
  - apply Qceiling_resp_le. lra.
Qed.

Lemma py_min_le_r (a b : Q) : py_min a b <= b.
Proof.
  unfold py_min. destruct (Qle_bool a b) eqn:E; cbn [negb].
  - now apply Qle_bool_true.
  - lra.
Qed.

Lemma floor_half (z : Z) : Qfloor (inject_Z z + (1 # 2)) = z.
Proof.
  apply Z.le_antisymm.
  - apply Z.lt_succ_r. rewrite Zlt_Qlt.
    eapply Qle_lt_trans; [apply Qfloor_le|].
    unfold Z.succ. rewrite inject_Z_plus. change (inject_Z 1) with 1. lra.
  - rewrite <- (Qfloor_Z z) at 1. apply Qfloor_resp_le. lra.
Qed.

Lemma ceiling_half (z : Z) : Qceiling (inject_Z z - (1 # 2)) = z.
Proof.
  unfold Qceiling.
  assert (E : - (inject_Z z - (1 # 2)) == inject_Z (- z) + (1 # 2))
    by (rewrite inject_Z_opp; ring).
  rewrite (Qfloor_comp _ _ E), floor_half. lia.
Qed.

(** [round] of an integer is that integer. *)
Lemma py_round_Z (z : Z) : py_round (inject_Z z) = z.
Proof.
  unfold py_round.
  destruct (Qle_bool 0 (inject_Z z)); [apply floor_half | apply ceiling_half].
Qed.

(** [_calc_total_reads] never returns more than the cap
    [round(1e6 * read_depth)]; for a well-formed region and formatter
    it returns, and what it returns is not negative. This covers a
    prevalence of exactly 1 with both copies lost, where the guard on
    [P == 1.0] keeps the divisor away from zero. *)
Theorem total_reads_capped (self : CnvFormatter) (P : Q) (s e n : Z) :
  wf_formatter self -> 0 <= P <= 1 -> (s <= e)%Z -> (0 <= n)%Z ->
  (forall P' s' e' n' t,
      _calc_total_reads self P' s' e' n' = Some t ->
      (t <= py_round (_max_reads self))%Z) /\
  exists t, _calc_total_reads self P s e n = Some t /\
            (0 <= t <= py_round (_max_reads self))%Z.
Proof.
  intros Hself HP Hse Hn.
  assert (Hcap : forall P' s' e' n' t,
             _calc_total_reads self P' s' e' n' = Some t ->
             (t <= py_round (_max_reads self))%Z).
  { intros P' s' e' n' t. unfold _calc_total_reads.
    destruct (if Z.eqb n' 2 then (1, true) else (inject_Z (n' - 2), false))
      as [delta_cn no_net_change].
    destruct (fragment_count self (e' - s' + 1)) as [fn|]; cbn [Exc.bind];
      [|discriminate].
    destruct (Qeq_bool _ 0); [discriminate|].
    intros H. injection H as <-. apply py_round_mono, py_min_le_r. }
  split; [exact Hcap|].
  destruct (@calc_total_reads_ok self P s e n Hself HP Hse Hn) as (t & Et & Ht).
  exists t. split; [exact Et|]. split; [assumption | eapply Hcap; eauto].
Qed.

Lemma total_reads_capped_witness :
  wf_formatter ex_formatter /\ 0 <= 1 <= 1 /\ (1 <= 1000)%Z /\ (0 <= 0)%Z /\
  exists t, _calc_total_reads ex_formatter 1 1 1000 0 = Some t /\
            (0 <= t <= py_round (_max_reads ex_formatter))%Z.
Proof.
  assert (HP : 0 <= 1 <= 1) by (split; lra).
  assert (Hse : (1 <= 1000)%Z) by lia.
  assert (Hn : (0 <= 0)%Z) by lia.
  split; [exact CnvTheorems.ex_formatter_wf|].
  split; [exact HP|]. split; [exact Hse|]. split; [exact Hn|].
  apply (@total_reads_capped ex_formatter 1 1 1000 0 CnvTheorems.ex_formatter_wf
           HP Hse Hn).
Defined.

Lemma Forall2_length_eq {A B : Type} (R : A -> B -> Prop) (l : list A) (l' : list B) :
  Forall2 R l l' -> length l = length l'.
Proof. induction 1; cbn; congruence. Qed.

(** The ids handed out by the merge loop. *)
Lemma fold_merge_ids (c : Q) (l : list FormattedCnv) :
  forall acc n,
    map cnv_id (rev acc) = ids_upto n ->
    let st := fold_left (merge_step c) l (acc, n) in
    map cnv_id (rev (fst st)) = ids_upto (snd st) /\
    (n <= snd st <= n + length l)%nat.
Proof.
  unfold ids_upto.
  induction l as [|x t IH]; intros acc n Hacc; cbn [fold_left].
  - cbn. split; [assumption | lia].
  - assert (Hstep : map cnv_id (rev (fst (merge_step c (acc, n) x)))
                    = map Some (seq 0 (snd (merge_step c (acc, n) x))) /\
                    (n <= snd (merge_step c (acc, n) x) <= S n)%nat).
    { assert (Happ : map cnv_id (rev (set_id n x :: acc)) = map Some (seq 0 (S n))).
      { cbn [rev]. rewrite map_app, Hacc, seq_S, map_app. reflexivity. }
      destruct acc as [|last before]; cbn [merge_step].
      - split; [exact Happ | cbn; lia].
      - destruct (andb _ _); cbn [fst snd]; [|split; [exact Happ | lia]].
        split; [|lia]. cbn [rev] in *. rewrite map_app in *. exact Hacc. }
    destruct Hstep as [H1 H2].
    destruct (merge_step c (acc, n) x) as [acc' n'] eqn:E. cbn [fst snd] in H1, H2.
    destruct (IH acc' n' H1) as [H3 H4]. cbv zeta in H3, H4.
    split; [exact H3 | cbn [length]; lia].
Qed.

Lemma merge_sorted_ids (c : Q) (F : list FormattedCnv) :
  map cnv_id (merge_sorted c F) = ids_upto (length (merge_sorted c F)) /\
  (length (merge_sorted c F) <= length F)%nat /\
  (F <> [] -> merge_sorted c F <> []).
Proof.
  destruct F as [|first rest]; [cbn; repeat split; [lia | congruence]|].
  cbn [merge_sorted].
  destruct (@fold_merge_ids c rest [set_id 0 first] 1%nat eq_refl) as [H1 H2].
  cbv zeta in H1, H2.
  set (st := fold_left (merge_step c) rest ([set_id 0 first], 1%nat)) in *.
  assert (Hlen : length (rev (fst st)) = snd st).
  { rewrite <- (length_map cnv_id), H1. unfold ids_upto.
    now rewrite length_map, length_seq. }
  rewrite Hlen. split; [assumption|]. split; [cbn [length]; lia|].
  intros _ E. rewrite E in Hlen. cbn in Hlen. lia.
Qed.

(** The rows of the CNV table carry the ids c0, c1, ... in order,
    without gaps; there are never more rows than regions given, and
    there is no row exactly when no region is given. *)
Theorem cnv_ids_are_consecutive (self : CnvFormatter) (cnvs : region_map)
    (variants : list FormattedVariant) (out : list FormattedCnv) :
  format_and_merge_cnvs self cnvs variants = Some out ->
  map cnv_id out = ids_upto (length out) /\
  (length out <= length (region_pairs cnvs))%nat /\
  (out = [] <-> region_pairs cnvs = []).
Proof.
  unfold format_and_merge_cnvs, merge_cnvs. intros H.
  destruct (_format_cnvs self cnvs variants) as [formatted|] eqn:E;
    cbn [Exc.bind] in H; [|discriminate].
  injection H as <-.
  pose proof (Forall2_length_eq (ExcFacts.mapM_Forall2 _ _ E)) as Hlen.
  change (length (region_pairs cnvs) = length formatted) in Hlen.
  pose proof (Permutation_length (sort_by_prev_perm formatted)) as Hp.
  destruct (merge_sorted_ids (find_cellularity cnvs) (sort_by_prev formatted))
    as (H1 & H2 & H3).
  rewrite length_map, map_map. split; [|split].
  - rewrite <- H1. apply map_ext. reflexivity.
  - lia.
  - split.
    + intros Hnil. apply map_eq_nil in Hnil.
      destruct (region_pairs cnvs) as [|cr t]; [reflexivity|]. exfalso.
      apply H3; [|assumption]. intros Es. rewrite Es in Hp. cbn in *. lia.
    + intros Hnil. rewrite Hnil in Hlen. cbn in Hlen.
      destruct formatted; [reflexivity | discriminate].
Qed.

Lemma cnv_ids_are_consecutive_witness :
  exists out,
    format_and_merge_cnvs ex_formatter ex_cnvs ex_variants = Some out /\
    map cnv_id out = [Some 0%nat; Some 1%nat].
Proof.
  destruct (format_and_merge_cnvs ex_formatter ex_cnvs ex_variants) as [out|] eqn:E;
    [|vm_compute in E; discriminate].
  exists out. split; [reflexivity|].
  destruct (@cnv_ids_are_consecutive ex_formatter ex_cnvs ex_variants out E) as [H _].
  rewrite H. vm_compute in E. injection E as <-. reflexivity.
Defined.

(** A property of single rows that numbering, absorbing and scaling
    keep holds of every row of the table when the formatter gives it to
    every row it yields. *)
Lemma format_and_merge_Forall (Pr : FormattedCnv -> Prop) (self : CnvFormatter)
    (cnvs : region_map) (variants : list FormattedVariant) (out : list FormattedCnv) :
  (forall n f, Pr f -> Pr (set_id n f)) ->
  (forall l x, Pr l -> Pr x -> Pr (absorb l x)) ->
  (forall f, Pr f -> Pr (scale self f)) ->
  (forall cr f, In cr (region_pairs cnvs) ->
                format_one self (fst cr) variants (snd cr) = Some f -> Pr f) ->
  format_and_merge_cnvs self cnvs variants = Some out ->
  Forall Pr out.
Proof.
  intros Hid Hab Hsc Hone H.
  unfold format_and_merge_cnvs, merge_cnvs in H.
  destruct (_format_cnvs self cnvs variants) as [formatted|] eqn:E;
    cbn [Exc.bind] in H; [|discriminate].
  injection H as <-.
  pose proof (ExcFacts.mapM_Forall2 _ _ E) as H2.
  assert (Hf : Forall Pr formatted).
  { apply Forall_forall. intros f Hin.
    destruct (ExcFacts.Forall2_In_r f H2 Hin) as (cr & Hcr & Ecr).
    exact (Hone cr f Hcr Ecr). }
  apply Forall_map.
  eapply Forall_impl; [exact Hsc|].
  apply merge_sorted_Forall; [assumption | assumption |].
  eapply Permutation_Forall; [apply sort_by_prev_perm | assumption].
Qed.

Lemma scale_bounds (self : CnvFormatter) (f : FormattedCnv) :
  0 <= cnv_confidence self <= 1 -> consistent f ->
  (0 <= ref_reads (scale self f) <= total_reads (scale self f))%Z /\
  (total_reads (scale self f) <= total_reads f)%Z.
Proof.
  intros [Hc0 Hc1] Hf.
  pose proof (consistent_bounds Hf) as [Hlo Hhi].
  destruct Hf as (_ & Ht & _).
  assert (Hr : (0 <= ref_reads f)%Z).
  { etransitivity; [|exact Hlo]. apply Z.div_pos; lia. }
  assert (Qr : 0 <= inject_Z (ref_reads f)) by now apply inject_Z_nonneg.
  assert (Qt : inject_Z (ref_reads f) <= inject_Z (total_reads f))
    by now rewrite <- Zle_Qle.
  assert (Q0 : 0 <= inject_Z (total_reads f)) by now apply inject_Z_nonneg.
  cbn [scale ref_reads total_reads]. repeat split.
  - rewrite <- (py_round_Z 0). apply py_round_mono.
    change (inject_Z 0) with 0. now apply Qmult_le_0_compat.
  - apply py_round_mono. now apply Qmult_le_compat_r.
  - rewrite <- (py_round_Z (total_reads f)) at 2. apply py_round_mono.
    rewrite <- (Qmult_1_r (inject_Z (total_reads f))) at 2.
    rewrite (Qmult_comm _ (cnv_confidence self)), (Qmult_comm _ 1).
    now apply Qmult_le_compat_r.
Qed.

(** With a confidence between 0 and 1 and well-formed regions, the
    table is produced and every row of it has
    [0 <= ref_reads <= total_reads]: rounding the two scaled counts
    separately never puts the reference count above the total. *)
Theorem scaled_rows_are_read_counts (self : CnvFormatter) (cnvs : region_map)
    (variants : list FormattedVariant) :
  wf_formatter self -> wf_region_map cnvs -> 0 <= cnv_confidence self <= 1 ->
  exists out,
    format_and_merge_cnvs self cnvs variants = Some out /\
    Forall (fun f => (0 <= ref_reads f <= total_reads f)%Z) out.
Proof.
  intros Hself Hcnvs Hconf.
  destruct (CnvTheorems.merge_cnvs_consistent variants Hself Hcnvs)
    as (formatted & merged & _ & E & _ & Hm).
  exists (map (scale self) merged). split.
  - unfold format_and_merge_cnvs. now rewrite E.
  - apply Forall_map. eapply Forall_impl; [|exact Hm].
    intros f Hf. now destruct (@scale_bounds self f Hconf Hf).
Qed.

Lemma scaled_rows_are_read_counts_witness :
  wf_formatter ex_formatter /\ wf_region_map ex_cnvs /\
  0 <= cnv_confidence ex_formatter <= 1 /\
  exists out,
    format_and_merge_cnvs ex_formatter ex_cnvs ex_variants = Some out /\
    Forall (fun f => (0 <= ref_reads f <= total_reads f)%Z) out.
Proof.
  assert (Hc : 0 <= cnv_confidence ex_formatter <= 1) by (cbn; lra).
  split; [exact CnvTheorems.ex_formatter_wf|].
  split; [exact CnvTheorems.ex_cnvs_wf|].
  split; [exact Hc|].
  exact (@scaled_rows_are_read_counts ex_formatter ex_cnvs ex_variants
           CnvTheorems.ex_formatter_wf CnvTheorems.ex_cnvs_wf Hc).
Defined.

Lemma In_region_pairs (m : region_map) (c : string) (r : CnvRegion) :
  In (c, r) (region_pairs m) <-> exists regs, In (c, regs) m /\ In r regs.
Proof.
  unfold region_pairs. rewrite in_flat_map. split.
  - intros ([k regs] & Hkv & Hin). cbn [fst snd] in Hin.
    apply in_map_iff in Hin. destruct Hin as (r' & E & Hr).
    injection E as <- <-. now exists regs.
  - intros (regs & Hkv & Hr). exists (c, regs). split; [assumption|].
    cbn [fst snd]. apply in_map_iff. now exists r.
Qed.

Lemma format_one_row (self : CnvFormatter) (c : string)
    (variants : list FormattedVariant) (r : CnvRegion) (f : FormattedCnv) :
  format_one self c variants r = Some f ->
  row_of c r f /\
  listed f = _find_overlapping_variants c r variants.
Proof.
  unfold format_one. destruct (_calc_total_reads _ _ _ _ _); cbn [Exc.bind];
    [|discriminate].
  intros H. injection H as <-. split; [repeat split|].
  unfold listed, _format_overlapping_variants. cbn [overlapping_variants].
  rewrite map_map. cbn [fst]. apply map_id.
Qed.

(** The regions that [write_cnvs] hands to the formatter. *)
Lemma written_regions (self : Group.VariantAndCnvGroup) (cn filtered : region_map)
    (c : string) (r : CnvRegion) :
  Group._filter_multiple_abnormal_cn_regions self cn = Some filtered ->
  In (c, r)
     (region_pairs
        (map (fun kv : string * list CnvRegion =>
                (fst kv,
                 filter (fun r => negb (Group._is_region_normal_cn r)) (snd kv)))
             filtered)) ->
  Group._is_region_normal_cn r = false /\ In (c, r) (region_pairs cn).
Proof.
  intros Hf Hin. apply In_region_pairs in Hin. destruct Hin as (regs & Hkv & Hr).
  apply in_map_iff in Hkv. destruct Hkv as ([k good] & E & Hgood).
  cbn [fst snd] in E. injection E as -> <-.
  apply filter_In in Hr. destruct Hr as [Hr Hab].
  split; [now destruct (Group._is_region_normal_cn r)|].
  pose proof (ExcFacts.mapM_Forall2 _ _ Hf) as H2.
  destruct (ExcFacts.Forall2_In_r (c, good) H2 Hgood) as ([k' reg] & Hreg & E).
  cbn [fst snd] in E.
  destruct (Group.filter_chrom self 0 reg) as [good'|] eqn:Eg; cbn [Exc.bind] in E;
    [|discriminate].
  injection E as -> ->.
  destruct (ReconcileExtra.filter_chrom_retained _ _ _ Eg) as [Hs _].
  cbn [skipn] in Hs.
  apply In_region_pairs. exists reg. split; [assumption|].
  eapply ReconcileExtra.subseq_In; eassumption.
Qed.

(** Every row of the table that [write_cnvs] produces describes a
    region of the group's CNV list, with that region's chromosome,
    coordinates, copy numbers and prevalence, and none of them has the
    normal copy number 1/1. *)
Theorem written_rows_are_abnormal_regions (self : Group.VariantAndCnvGroup)
    (variants : list FormattedVariant) (cnv_confidence : Q) (read_length : Z)
    (out : list FormattedCnv) :
  Group.write_cnvs self variants cnv_confidence read_length = Some out ->
  exists cn_regions,
    Group._cn_regions self = Some cn_regions /\
    forall f, In f out ->
      f_is_normal f = false /\
      exists c r, In (c, r) (region_pairs cn_regions) /\ row_of c r f.
Proof.
  unfold Group.write_cnvs. intros H.
  destruct (Group._cn_regions self) as [cn|]; cbn [Exc.bind] in H; [|discriminate].
  destruct (Group._cellularity self) as [cell|]; cbn [Exc.bind] in H; [|discriminate].
  destruct (Group._filter_multiple_abnormal_cn_regions self cn) as [filtered|] eqn:Ef;
    cbn [Exc.bind] in H; [|discriminate].
  exists cn. split; [reflexivity|].
  apply Forall_forall.
  refine (format_and_merge_Forall
            (fun f => f_is_normal f = false /\
                      exists c r, In (c, r) (region_pairs cn) /\ row_of c r f)
            _ _ _ _ _ _ _ H).
  - intros n f Hf. exact Hf.
  - intros l x Hl _. exact Hl.
  - intros f Hf. exact Hf.
  - intros [c r] f Hin Hone. cbn [fst snd] in Hone.
    destruct (@written_regions self cn filtered c r Ef Hin) as [Hab Hcn].
    destruct (format_one_row _ _ _ _ Hone) as [Hrow _].
    split; [|now exists c, r].
    destruct Hrow as (_ & _ & _ & Hmaj & Hmin & _).
    unfold f_is_normal. rewrite Hmaj, Hmin. exact Hab.
Qed.

Lemma written_rows_are_abnormal_regions_witness :
  exists out,
    Group.write_cnvs (ex_group [ex_clonal; ex_subclonal]) ex_variants (1 # 2) 100
    = Some out /\
    length out = 2%nat /\
    Forall (fun f => f_is_normal f = false) out.
Proof.
  destruct (Group.write_cnvs (ex_group [ex_clonal; ex_subclonal]) ex_variants (1 # 2) 100)
    as [out|] eqn:E; [|vm_compute in E; discriminate].
  exists out. split; [reflexivity|].
  split; [vm_compute in E; injection E as <-; reflexivity|].
  destruct (@written_rows_are_abnormal_regions _ _ _ _ _ E) as (cn & _ & H).
  apply Forall_forall. intros f Hf. now destruct (H f Hf).
Defined.

Lemma NoDup_app_disjoint {A : Type} (l1 l2 : list A) :
  NoDup l1 -> NoDup l2 -> (forall a, In a l2 -> ~ In a l1) -> NoDup (l1 ++ l2).
Proof.
  induction 1 as [|x t Hx Ht IH]; intros H2 Hd; cbn [app]; [assumption|].
  constructor.
  - rewrite in_app_iff. intros [Hin | Hin]; [now apply Hx|].
    apply (Hd x Hin). now left.
  - apply IH; [assumption|]. intros a Ha Hin. apply (Hd a Ha). now right.
Qed.

(** Filtering keeps the keys of a list distinct. *)
Lemma filter_keeps_keys_distinct {A B : Type} (key : A -> B) (keep : A -> bool) :
  forall xs : list A, NoDup (map key xs) -> NoDup (map key (filter keep xs)).
Proof.
  intros xs. induction xs as [|x t IH]; cbn [map filter]; intros H; [constructor|].
  inversion H as [|? ? Hx Ht]; subst.
  destruct (keep x); cbn [map]; [|now apply IH].
  constructor; [|now apply IH].
  intros Hin. apply Hx. apply in_map_iff in Hin. destruct Hin as (y & E & Hy).
  apply filter_In in Hy. apply in_map_iff. exists y. now split; [|apply Hy].
Qed.

(** What the row that absorbs another one lists. *)
Lemma listed_absorb (l x : FormattedCnv) :
  listed (absorb l x)
  = listed l ++ filter (fun n => negb (existsb (Nat.eqb n) (listed l))) (listed x).
Proof.
  unfold listed, absorb, _merge_variants. cbn [overlapping_variants].
  rewrite map_app. f_equal.
  induction (overlapping_variants x) as [|v t IH]; cbn [filter map]; [reflexivity|].
  destruct (negb _); cbn [map]; now rewrite IH.
Qed.

Lemma In_listed_absorb (l x : FormattedCnv) (id : nat) :
  In id (listed (absorb l x)) <-> In id (listed l) \/ In id (listed x).
Proof.
  rewrite listed_absorb, in_app_iff, filter_In. split.
  - intros [H | [H _]]; [now left | now right].
  - intros [H | H]; [now left|].
    destruct (existsb (Nat.eqb id) (listed l)) eqn:E.
    + left. apply existsb_exists in E. destruct E as (y & Hy & E).
      apply Nat.eqb_eq in E. now subst.
    + right. now split.
Qed.

Lemma NoDup_listed_absorb (l x : FormattedCnv) :
  NoDup (listed l) -> NoDup (listed x) -> NoDup (listed (absorb l x)).
Proof.
  intros Hl Hx. rewrite listed_absorb. apply NoDup_app_disjoint.
  - assumption.
  - rewrite <- (map_id (filter _ (listed x))). apply filter_keeps_keys_distinct.
    now rewrite map_id.
  - intros a Ha Hin. apply filter_In in Ha. destruct Ha as [_ Ha].
    assert (E : existsb (Nat.eqb a) (listed l) = true).
    { apply existsb_exists. exists a. split; [assumption | apply Nat.eqb_refl]. }
    rewrite E in Ha. discriminate.
Qed.

(** No row of the table lists an SSM twice, merged rows included, and
    every SSM a row lists is one of the variants given; the ids of the
    variants are distinct, as [VariantFormatter] numbers them. *)
Theorem rows_list_each_ssm_once (self : CnvFormatter) (cnvs : region_map)
    (variants : list FormattedVariant) (out : list FormattedCnv) :
  NoDup (map ssm_id variants) ->
  format_and_merge_cnvs self cnvs variants = Some out ->
  Forall (fun f => NoDup (listed f) /\ incl (listed f) (map ssm_id variants)) out.
Proof.
  intros Hnd H.
  refine (format_and_merge_Forall
            (fun f => NoDup (listed f) /\ incl (listed f) (map ssm_id variants))
            _ _ _ _ _ _ _ H).
  - intros n f Hf. exact Hf.
  - intros l x [Hl1 Hl2] [Hx1 Hx2]. split; [now apply NoDup_listed_absorb|].
    intros id Hid. apply In_listed_absorb in Hid. destruct Hid; auto.
  - intros f Hf. exact Hf.
  - intros [c r] f _ Hone. cbn [fst snd] in Hone.
    destruct (format_one_row _ _ _ _ Hone) as [_ ->].
    unfold _find_overlapping_variants. split; [now apply filter_keeps_keys_distinct|].
    intros id Hid. apply in_map_iff in Hid. destruct Hid as (v & E & Hv).
    apply filter_In in Hv. apply in_map_iff. exists v. now split; [|apply Hv].
Qed.

Lemma rows_list_each_ssm_once_witness :
  NoDup (map ssm_id ex_variants) /\
  exists out,
    format_and_merge_cnvs ex_formatter ex_cnvs ex_variants = Some out /\
    map listed out = [[1%nat]; [0%nat]] /\
    Forall (fun f => NoDup (listed f) /\ incl (listed f) (map ssm_id ex_variants)) out.
Proof.
  assert (Hnd : NoDup (map ssm_id ex_variants)).
  { cbn. repeat constructor; cbn; intuition discriminate. }
  split; [exact Hnd|].
  destruct (format_and_merge_cnvs ex_formatter ex_cnvs ex_variants) as [out|] eqn:E;
    [|vm_compute in E; discriminate].
  exists out. split; [reflexivity|].
  split; [vm_compute in E; injection E as <-; reflexivity|].
  exact (@rows_list_each_ssm_once ex_formatter ex_cnvs ex_variants out Hnd E).
Defined.

Lemma In_all_listed (l : list FormattedCnv) (id : nat) :
  In id (all_listed l) <-> exists f, In f l /\ In id (listed f).
Proof. unfold all_listed. apply in_flat_map. Qed.

Lemma sum_total_app (l1 l2 : list FormattedCnv) :
  sum_total (l1 ++ l2) = (sum_total l1 + sum_total l2)%Z.
Proof.
  unfold sum_total. induction l1 as [|x t IH]; cbn [app fold_right]; lia.
Qed.

Lemma sum_total_perm (l l' : list FormattedCnv) :
  Permutation l l' -> sum_total l = sum_total l'.
Proof. unfold sum_total. induction 1; cbn [fold_right]; lia. Qed.

Lemma all_listed_perm (l l' : list FormattedCnv) (id : nat) :
  Permutation l l' -> In id (all_listed l) <-> In id (all_listed l').
Proof.
  intros Hp. rewrite !In_all_listed.
  split; intros (f & Hf & Hid); exists f; (split; [|assumption]).
  - eapply Permutation_in; eassumption.
  - eapply Permutation_in; [apply Permutation_sym|]; eassumption.
Qed.

(** One iteration of the merge loop neither adds nor loses reads or
    listed SSMs. *)
Lemma merge_step_conserves (c : Q) (st : list FormattedCnv * nat) (x : FormattedCnv) :
  sum_total (fst (merge_step c st x)) = (sum_total (fst st) + total_reads x)%Z /\
  forall id, In id (all_listed (fst (merge_step c st x)))
             <-> In id (all_listed (fst st)) \/ In id (listed x).
Proof.
  unfold sum_total.
  destruct st as [[|last before] n]; cbn [merge_step fst].
  - split; [cbn; lia|]. intros id. cbn. rewrite app_nil_r. tauto.
  - destruct (andb _ _); cbn [fst].
    + split; [cbn; lia|]. intros id. unfold all_listed. cbn [flat_map].
      rewrite !in_app_iff, In_listed_absorb. tauto.
    + split; [cbn; lia|]. intros id. unfold all_listed. cbn [flat_map].
      rewrite !in_app_iff. change (listed (set_id n x)) with (listed x). tauto.
Qed.

Lemma fold_merge_conserves (c : Q) (l : list FormattedCnv) :
  forall st,
    sum_total (fst (fold_left (merge_step c) l st))
    = (sum_total (fst st) + sum_total l)%Z /\
    forall id, In id (all_listed (fst (fold_left (merge_step c) l st)))
               <-> In id (all_listed (fst st)) \/ In id (all_listed l).
Proof.
  induction l as [|x t IH]; intros st; cbn [fold_left].
  - split; [cbn; lia|]. intros id. cbn. tauto.
  - destruct (IH (merge_step c st x)) as [H1 H2].
    destruct (merge_step_conserves c st x) as [S1 S2].
    split; [rewrite H1, S1; unfold sum_total; cbn [fold_right]; lia|].
    intros id. rewrite H2, S2. unfold all_listed at 4. cbn [flat_map].
    rewrite in_app_iff. tauto.
Qed.

Lemma merge_sorted_conserves (c : Q) (F : list FormattedCnv) :
  sum_total (merge_sorted c F) = sum_total F /\
  forall id, In id (all_listed (merge_sorted c F)) <-> In id (all_listed F).
Proof.
  destruct F as [|first rest]; [now split|]. cbn [merge_sorted].
  destruct (fold_merge_conserves c rest ([set_id 0 first], 1%nat)) as [H1 H2].
  split.
  - rewrite <- (sum_total_perm (Permutation_rev _)), H1.
    unfold sum_total. cbn. lia.
  - intros id. rewrite <- (all_listed_perm id (Permutation_rev _)), H2.
    unfold all_listed. cbn [flat_map fst]. rewrite app_nil_r, in_app_iff.
    change (listed (set_id 0 first)) with (listed first). tauto.
Qed.

(** Merging moves reads between rows and never changes their sum:
    before the confidence scaling, the merged table holds as many total
    reads as the regions the formatter yielded. *)
Theorem merging_conserves_reads (self : CnvFormatter) (cnvs : region_map)
    (variants : list FormattedVariant) (formatted : list FormattedCnv) :
  _format_cnvs self cnvs variants = Some formatted ->
  exists merged,
    merge_cnvs self cnvs variants = Some merged /\
    sum_total merged = sum_total formatted.
Proof.
  intros E. unfold merge_cnvs. rewrite E. cbn [Exc.bind].
  eexists. split; [reflexivity|].
  destruct (merge_sorted_conserves (find_cellularity cnvs) (sort_by_prev formatted))
    as [H _].
  rewrite H. symmetry. apply sum_total_perm, sort_by_prev_perm.
Qed.

Lemma merging_conserves_reads_witness :
  exists formatted merged,
    _format_cnvs ex_formatter ex_cnvs ex_variants = Some formatted /\
    merge_cnvs ex_formatter ex_cnvs ex_variants = Some merged /\
    length formatted = 3%nat /\ length merged = 2%nat /\
    sum_total merged = sum_total formatted.
Proof.
  destruct (_format_cnvs ex_formatter ex_cnvs ex_variants) as [formatted|] eqn:E;
    [|vm_compute in E; discriminate].
  destruct (@merging_conserves_reads ex_formatter ex_cnvs ex_variants formatted E)
    as (merged & Em & Hs).
  exists formatted, merged. split; [reflexivity|]. split; [exact Em|].
  split; [vm_compute in E; injection E as <-; reflexivity|].
  split; [vm_compute in Em; injection Em as <-; reflexivity | exact Hs].
Defined.

Lemma all_listed_scale (self : CnvFormatter) (l : list FormattedCnv) :
  all_listed (map (scale self) l) = all_listed l.
Proof.
  unfold all_listed. induction l as [|x t IH]; cbn [map flat_map]; [reflexivity|].
  now rewrite IH.
Qed.

(** An SSM is listed somewhere in the table exactly when it is the id
    of a variant that overlaps one of the regions given: on the
    region's chromosome, compared without regard to case, and at a
    position within the region's inclusive bounds. Merging drops no
    SSM and invents none. *)
Theorem listed_iff_overlapping (self : CnvFormatter) (cnvs : region_map)
    (variants : list FormattedVariant) (out : list FormattedCnv) (id : nat) :
  format_and_merge_cnvs self cnvs variants = Some out ->
  In id (all_listed out) <->
  exists v c r,
    In v variants /\ ssm_id v = id /\
    In (c, r) (region_pairs cnvs) /\ overlaps c r v = true.
Proof.
  unfold format_and_merge_cnvs, merge_cnvs. intros H.
  destruct (_format_cnvs self cnvs variants) as [formatted|] eqn:E;
    cbn [Exc.bind] in H; [|discriminate].
  injection H as <-.
  pose proof (ExcFacts.mapM_Forall2 _ _ E) as H2.
  change (Forall2 (fun (cr : string * CnvRegion) f =>
                     format_one self (fst cr) variants (snd cr) = Some f)
                  (region_pairs cnvs) formatted) in H2.
  destruct (merge_sorted_conserves (find_cellularity cnvs) (sort_by_prev formatted))
    as [_ Hm].
  rewrite all_listed_scale, Hm,
    <- (all_listed_perm id (sort_by_prev_perm formatted)), In_all_listed.
  split.
  - intros (f & Hf & Hid).
    destruct (ExcFacts.Forall2_In_r f H2 Hf) as ([c r] & Hcr & Ecr).
    cbn [fst snd] in Ecr. destruct (format_one_row _ _ _ _ Ecr) as [_ El].
    rewrite El in Hid. unfold _find_overlapping_variants in Hid.
    apply in_map_iff in Hid. destruct Hid as (v & Ev & Hv).
    apply filter_In in Hv. destruct Hv as [Hv Ho].
    exists v, c, r. repeat split; assumption.
  - intros (v & c & r & Hv & Ev & Hcr & Ho).
    destruct (ExcFacts.Forall2_In_l (c, r) H2 Hcr) as (f & Hf & Ef).
    cbn [fst snd] in Ef. destruct (format_one_row _ _ _ _ Ef) as [_ El].
    exists f. split; [assumption|]. rewrite El.
    unfold _find_overlapping_variants. apply in_map_iff. exists v.
    split; [assumption|]. apply filter_In. now split.
Qed.

Lemma listed_iff_overlapping_witness :
  exists out,
    format_and_merge_cnvs ex_formatter ex_cnvs ex_variants = Some out /\
    In 0%nat (all_listed out).
Proof.
  destruct (format_and_merge_cnvs ex_formatter ex_cnvs ex_variants) as [out|] eqn:E;
    [|vm_compute in E; discriminate].
  exists out. split; [reflexivity|].
  apply (@listed_iff_overlapping ex_formatter ex_cnvs ex_variants out 0%nat E).
  exists (Variant.format_variant 0 (1 # 1000) (mkVariantId "1" 500) [30%Z] [40%Z]),
         "1"%string, (mkRegion 1 1000 2 1 (8 # 10)).
  repeat split; try reflexivity; cbn; auto.
Defined.

Lemma nanmean_nonneg (m : Impute.matrix Z) :
  Forall (Forall (fun z => (0 <= z)%Z)) (Impute.rows m) -> 0 <= Group.nanmean m.
Proof.
  intros H. unfold Group.nanmean.
  assert (Hsum : (0 <= fold_right Z.add 0%Z (concat (Impute.rows m)))%Z).
  { induction H as [|r t Hr _ IH]; cbn [concat]; [cbn; lia|].
    rewrite fold_right_app.
    induction Hr as [|z r' Hz _ IHr]; cbn [fold_right]; [exact IH | lia]. }
  unfold Qdiv. apply Qmult_le_0_compat.
  - now apply inject_Z_nonneg.
  - apply Qinv_le_0_compat, inject_Z_nonneg. lia.
Qed.

Lemma wf_map_filter (test : CnvRegion -> bool) (cn : region_map) :
  wf_region_map cn ->
  wf_region_map
    (map (fun kv : string * list CnvRegion => (fst kv, filter test (snd kv))) cn).
Proof.
  unfold wf_region_map. intros H. apply Forall_map.
  eapply Forall_impl; [|exact H]. intros [k regs] Hk. cbn [fst snd] in *.
  rewrite Forall_forall in *. intros r Hr. apply filter_In in Hr. now apply Hk.
Qed.

(** From the parsed matrices to the CNV table: for a group built by
    [add_variants] and [add_cnvs] from read counts that are not
    negative and a well-formed CNV list with one record per region,
    [write_cnvs] with a confidence in [0,1] and a positive read length
    raises nothing, and every row it writes has
    [0 <= ref_reads <= total_reads]. *)
Theorem write_cnvs_rows_are_counts (ids : list VariantId)
    (ref_read_counts total_read_counts : Impute.matrix Z) (cn_regions : region_map)
    (variants : list FormattedVariant) (cnv_confidence : Q) (read_length : Z) :
  Forall (Forall (fun z => (0 <= z)%Z)) (Impute.rows total_read_counts) ->
  wf_region_map cn_regions ->
  Forall (fun kv : string * list CnvRegion => ReconcileSpec.distinct_starts (snd kv))
         cn_regions ->
  0 <= cnv_confidence <= 1 -> (0 < read_length)%Z ->
  exists out,
    Group.write_cnvs
      (Group.add_cnvs (Group.add_variants ids ref_read_counts total_read_counts)
                      cn_regions)
      variants cnv_confidence read_length = Some out /\
    Forall (fun f => (0 <= ref_reads f <= total_reads f)%Z) out.
Proof.
  intros Htot Hwf Hd Hconf Hlen.
  set (self := Group.add_cnvs
                 (Group.add_variants ids ref_read_counts total_read_counts) cn_regions).
  unfold Group.write_cnvs.
  change (Group._cn_regions self) with (Some cn_regions).
  change (Group._cellularity self) with (Some (find_cellularity cn_regions)).
  cbn [Exc.bind].
  rewrite (@ReconcileExtra.filter_regions_distinct self cn_regions Hd). cbn [Exc.bind].
  set (formatter := mkFormatter cnv_confidence (find_cellularity cn_regions)
                      (Group._estimated_read_depth self) read_length).
  assert (Hf : wf_formatter formatter).
  { split; [|exact Hlen]. cbn [read_depth formatter].
    change (Group._estimated_read_depth self)
      with (Group._estimate_read_depth ids total_read_counts).
    unfold Group._estimate_read_depth.
    destruct ids; cbn [depth_value];
      [apply inject_Z_nonneg; lia | now apply nanmean_nonneg]. }
  match goal with
  | |- exists out, format_and_merge_cnvs _ ?regs _ = _ /\ _ =>
      assert (Hregs : wf_region_map regs) by (now apply wf_map_filter, wf_map_filter);
      destruct (CnvTheorems.merge_cnvs_consistent variants Hf Hregs)
        as (formatted & merged & _ & E & _ & Hm)
  end.
  exists (map (scale formatter) merged). split.
  - unfold format_and_merge_cnvs. now rewrite E.
  - apply Forall_map. eapply Forall_impl; [|exact Hm].
    intros f Hc. now destruct (@scale_bounds formatter f Hconf Hc).
Qed.

Lemma write_cnvs_rows_are_counts_witness :
  exists out,
    Group.write_cnvs (ex_group [ex_clonal]) ex_variants (1 # 2) 100 = Some out /\
    length out = 1%nat /\
    Forall (fun f => (0 <= ref_reads f <= total_reads f)%Z) out.
Proof.
  assert (Ht : Forall (Forall (fun z => (0 <= z)%Z)) (Impute.rows (Impute.mkMatrix 1 [[40%Z]])))
    by (repeat constructor; lia).
  assert (Hwf : wf_region_map [("1"%string, [ex_clonal])]).
  { repeat constructor; cbn; try lia; lra. }
  assert (Hd : Forall (fun kv : string * list CnvRegion =>
                         ReconcileSpec.distinct_starts (snd kv))
                 [("1"%string, [ex_clonal])]) by (repeat constructor).
  assert (Hc : 0 <= 1 # 2 <= 1) by lra.
  destruct (@write_cnvs_rows_are_counts [mkVariantId "1" 5]
              (Impute.mkMatrix 1 [[30%Z]]) (Impute.mkMatrix 1 [[40%Z]])
              [("1"%string, [ex_clonal])] ex_variants (1 # 2) 100%Z Ht Hwf Hd Hc eq_refl)
    as (out & E & H).
  exists out. split; [exact E|]. split; [|exact H].
  vm_compute in E. injection E as <-. reflexivity.
Defined.

End TableExtra.

(** ** Further properties of the parsing code *)

Module ParseExtra.
Import Variant Vcf Pipeline VcfSpec ParseSpec VcfFacts Examples.

Lemma filter_records_In (self : VariantParser) (all_variants : list VcfRecord) :
  forall variants,
    filter_records self all_variants = Ok variants ->
    forall v, In v variants <->
              In v all_variants /\ _is_good_chrom (r_CHROM v) = true /\
              _does_variant_pass_filters self v = Ok true.
Proof.
  induction all_variants as [|x t IH]; intros variants H v; cbn [filter_records] in H.
  - injection H as <-. cbn. tauto.
  - destruct (_is_good_chrom (r_CHROM x)) eqn:Eg; cbn [negb] in H.
    + destruct (_does_variant_pass_filters self x) as [pass| |] eqn:Ep;
        cbn [rbind] in H; try discriminate.
      destruct pass; cbn [negb] in H.
      * destruct (filter_records self t) as [vs| |] eqn:Et; cbn [rbind] in H;
          try discriminate.
        injection H as <-. cbn [In]. rewrite (IH vs eq_refl v).
        split; [intros [<-|H]; tauto|].
        intros ([<-|H] & H1 & H2); tauto.
      * rewrite (IH variants H v). cbn [In]. split; [tauto|].
        intros ([<-|H'] & H1 & H2); [congruence | tauto].
    + rewrite (IH variants H v). cbn [In]. split; [tauto|].
      intros ([<-|H'] & H1 & H2); [congruence | tauto].
Qed.

Lemma read_counts_is_kept (self : VariantParser) (variants : list VcfRecord) :
  forall out, read_counts self variants = Ok out -> out = kept self variants.
Proof.
  induction variants as [|v t IH]; intros out H; cbn [read_counts] in H.
  - injection H as <-. reflexivity.
  - unfold kept. cbn [flat_map]. fold (kept self t).
    destruct (_calc_read_counts self v) as [[r tot]| |]; try discriminate.
    + destruct (read_counts self t) as [rest| |]; cbn [rbind] in H; try discriminate.
      injection H as <-. cbn [app]. f_equal. now apply IH.
    + cbn [app]. now apply IH.
Qed.

Lemma good_chrom_key (chrom : string) (pos : Z) :
  _is_good_chrom chrom = true -> autosomal_key (mkVariantId chrom pos).
Proof.
  unfold _is_good_chrom. intros H. apply existsb_exists in H.
  destruct H as (c & Hin & E). apply String.eqb_eq in E. subst c.
  unfold good_chroms in Hin. unfold autosomal_key.
  repeat (destruct Hin as [<-|Hin];
          [eexists; split; [vm_compute; reflexivity | lia]|]).
  destruct Hin.
Qed.

(** What [list_variants] returns when it returns: exactly the records
    of the file, with the chromosome name lower-cased and stripped of
    a leading [chr], that lie on chromosomes 1 to 22, pass the
    adapter's filter and have read counts; each comes with the counts
    of its adapter, and [variant_key] is defined on every one of them. *)
Theorem list_variants_keeps_filtered_autosomal (fs : string -> option (list VcfRecord))
    (self : VariantParser) (out : list (VcfRecord * Z * Z)) :
  list_variants fs self = Ok out ->
  exists records,
    fs (_vcf_filename self) = Some records /\
    (forall v r t,
        In (v, r, t) out <->
        In v (map normalized records) /\ _is_good_chrom (r_CHROM v) = true /\
        _does_variant_pass_filters self v = Ok true /\
        _calc_read_counts self v = Ok (r, t)) /\
    (forall v r t, In (v, r, t) out -> autosomal_key (id_of v)).
Proof.
  unfold list_variants, _filter, _parse_vcf. intros H.
  destruct (fs (_vcf_filename self)) as [records|]; cbn [of_option rbind] in H;
    [|discriminate].
  exists records. split; [reflexivity|].
  fold normalized in H.
  change (map (fun variant => set_chrom variant (normalize_chrom (r_CHROM variant)))
              records)
    with (map normalized records) in H.
  destruct (filter_records self (map normalized records)) as [variants| |] eqn:Ef;
    cbn [rbind] in H; try discriminate.
  apply read_counts_is_kept in H. subst out.
  assert (Hiff : forall v r t,
             In (v, r, t) (kept self variants) <->
             In v (map normalized records) /\ _is_good_chrom (r_CHROM v) = true /\
             _does_variant_pass_filters self v = Ok true /\
             _calc_read_counts self v = Ok (r, t)).
  { intros v r t. rewrite ParseTheorems.kept_In, (filter_records_In _ _ Ef v). tauto. }
  split; [exact Hiff|].
  intros v r t Hin. apply Hiff in Hin. destruct Hin as (_ & Hg & _).
  unfold id_of. now apply good_chrom_key.
Qed.

Lemma list_variants_keeps_filtered_autosomal_witness :
  let self := mkParser PcawgConsensus "pcawg.vcf" None in
  list_variants ex_fs self = Ok [(normalized ex_pcawg_counts, 30%Z, 40%Z)] /\
  autosomal_key (id_of (normalized ex_pcawg_counts)).
Proof.
  cbv zeta.
  assert (E : list_variants ex_fs (mkParser PcawgConsensus "pcawg.vcf" None)
              = Ok [(normalized ex_pcawg_counts, 30%Z, 40%Z)]) by (vm_compute; reflexivity).
  split; [exact E|].
  destruct (@list_variants_keeps_filtered_autosomal ex_fs _ _ E) as (records & _ & _ & H).
  apply (H (normalized ex_pcawg_counts) 30%Z 40%Z). now left.
Defined.

Lemma list_variants_good (fs : string -> option (list VcfRecord))
    (self : VariantParser) (out : list (VcfRecord * Z * Z)) :
  list_variants fs self = Ok out ->
  Forall (fun x => _is_good_chrom (r_CHROM (fst (fst x))) = true) out.
Proof.
  unfold list_variants, _filter, _parse_vcf. intros H.
  destruct (fs (_vcf_filename self)) as [records|]; cbn [of_option rbind] in H;
    [|discriminate].
  destruct (filter_records self _) as [variants| |] eqn:Ef; cbn [rbind] in H;
    try discriminate.
  apply read_counts_is_kept in H. subst out.
  apply Forall_forall. intros [[v r] t] Hin. cbn [fst].
  apply ParseTheorems.kept_In in Hin. destruct Hin as [Hin _].
  now apply (filter_records_In _ _ Ef v) in Hin.
Qed.

(** The files read when the loop over the arguments completes. *)
Lemma parse_files_ok (fs : string -> option (list VcfRecord)) (args : Args)
    (files : list string) :
  forall parsed_variants,
    snd (parse_files fs args files) = Ok parsed_variants ->
    fst (parse_files fs args files) = map file_of files /\
    Forall2 (parsed_by fs args) files parsed_variants.
Proof.
  induction files as [|f t IH]; intros parsed_variants H; cbn [parse_files] in *.
  - cbn in H. injection H as <-. split; [reflexivity | constructor].
  - destruct (split_once "=" f) as [[vcf_type vcf_fn]|] eqn:Ef; [|discriminate].
    destruct (select_parser args vcf_type vcf_fn) as [variant_parser|] eqn:Es;
      [|discriminate].
    destruct (list_variants fs variant_parser) as [parsed| |] eqn:El; try discriminate.
    destruct (parse_files fs args t) as [opened r]. cbn [fst snd] in *.
    destruct r as [more| |]; try discriminate.
    injection H as <-. destruct (IH more eq_refl) as [-> IH2]. split.
    + cbn [map]. f_equal. unfold file_of. now rewrite Ef.
    + constructor; [|assumption]. now exists vcf_type, vcf_fn, variant_parser.
Qed.

Lemma variant_id_eqb_eq (a b : VariantId) : variant_id_eqb a b = true <-> a = b.
Proof.
  destruct a as [c1 p1], b as [c2 p2]. unfold variant_id_eqb. cbn [CHROM POS].
  rewrite andb_true_iff, String.eqb_eq, Z.eqb_eq. split.
  - intros [-> ->]. reflexivity.
  - intros H. injection H as -> ->. now split.
Qed.

(** [list(set(ids))] holds each identity once. *)
Lemma distinct_spec (ids : list VariantId) :
  NoDup (distinct ids) /\ forall id, In id (distinct ids) <-> In id ids.
Proof.
  induction ids as [|x t [IH1 IH2]]; cbn [distinct]; [split; [constructor | tauto]|].
  split.
  - constructor.
    + intros Hin. apply filter_In in Hin. destruct Hin as [_ Hin].
      assert (E : variant_id_eqb x x = true) by now apply variant_id_eqb_eq.
      rewrite E in Hin. discriminate.
    + now apply NoDup_filter.
  - intros id. cbn [In]. rewrite filter_In, IH2. split.
    + intros [H|[H _]]; auto.
    + intros [H|H]; [now left|].
      destruct (variant_id_eqb x id) eqn:E.
      * left. now apply variant_id_eqb_eq.
      * right. now split.
Qed.

(** Among the chromosomes 1 to 22 the name is recovered from the key. *)
Lemma good_chrom_name (chrom : string) (pos : Z) (key : Z * Z) :
  _is_good_chrom chrom = true ->
  variant_key (mkVariantId chrom pos) = Some key ->
  snd key = pos /\ nth (Z.to_nat (fst key - 1)) good_chroms EmptyString = chrom.
Proof.
  unfold _is_good_chrom. intros H. apply existsb_exists in H.
  destruct H as (c & Hin & E). apply String.eqb_eq in E. subst c.
  unfold good_chroms in Hin.
  repeat (destruct Hin as [<-|Hin];
          [vm_compute; intros Hk; injection Hk as <-; split; reflexivity|]).
  destruct Hin.
Qed.

Lemma good_key_inj (a b : VariantId) (key : Z * Z) :
  _is_good_chrom (CHROM a) = true -> _is_good_chrom (CHROM b) = true ->
  variant_key a = Some key -> variant_key b = Some key -> a = b.
Proof.
  destruct a as [c1 p1], b as [c2 p2]. cbn [CHROM]. intros Ha Hb Ka Kb.
  destruct (good_chrom_name _ _ Ha Ka) as [<- <-].
  destruct (good_chrom_name _ _ Hb Kb) as [<- <-]. reflexivity.
Qed.

Lemma key_lt_of_le (a b : Z * Z) : key_leb a b = true -> a <> b -> key_lt a b.
Proof. intros H Hne. now split. Qed.

(** Sorting identities of chromosomes 1 to 22 that are all different
    puts them in strictly ascending key order. *)
Lemma sort_ids_spec (ids sorted : list VariantId) :
  NoDup ids -> Forall (fun id => _is_good_chrom (CHROM id) = true) ids ->
  sort_ids ids = Some sorted ->
  Permutation ids sorted /\ StronglySorted id_lt sorted.
Proof.
  unfold sort_ids. intros Hnd Hgood H.
  destruct (Exc.mapM _ ids) as [keyed|] eqn:E; cbn [Exc.bind] in H; [|discriminate].
  injection H as <-.
  apply ExcFacts.mapM_Forall2 in E.
  assert (Hkeyed : Forall (fun ka : (Z * Z) * VariantId =>
                             variant_key (snd ka) = Some (fst ka)) keyed /\
                   map snd keyed = ids).
  { clear -E. induction E as [|i [k j] t t' Hik _ [IH1 IH2]]; cbn; [now split|].
    cbn beta in Hik.
    destruct (variant_key i) as [key|] eqn:Ek; cbn [Exc.bind] in Hik; [|discriminate].
    injection Hik as <- <-. split; [|now rewrite IH2].
    constructor; [exact Ek | assumption]. }
  destruct Hkeyed as [Hk Hids]. subst ids.
  pose proof (SubsampleFacts.sort_keyed_perm keyed) as Hperm.
  split; [now apply Permutation_map|].
  pose proof (SubsampleFacts.sort_keyed_sorted keyed) as Hsorted.
  assert (Hk' : Forall (fun ka : (Z * Z) * VariantId =>
                          variant_key (snd ka) = Some (fst ka)) (sort_keyed keyed))
    by (eapply Permutation_Forall; eassumption).
  assert (Hnd' : NoDup (map snd (sort_keyed keyed)))
    by (eapply Permutation_NoDup; [apply Permutation_map; exact Hperm | exact Hnd]).
  assert (Hgood' : Forall (fun id => _is_good_chrom (CHROM id) = true)
                     (map snd (sort_keyed keyed)))
    by (eapply Permutation_Forall; [apply Permutation_map; exact Hperm | exact Hgood]).
  clear Hperm Hk Hnd Hgood E.
  induction Hsorted as [|x t Hs IH Hx]; cbn [map]; [constructor|].
  inversion Hk' as [|? ? Kx Kt]; subst.
  inversion Hnd' as [|? ? Nx Nt]; subst.
  inversion Hgood' as [|? ? Gx Gt]; subst.
  constructor; [now apply IH|].
  apply Forall_forall. intros id Hid. apply in_map_iff in Hid.
  destruct Hid as (y & <- & Hy).
  rewrite Forall_forall in Hx, Kt, Gt.
  exists (fst x), (fst y). split; [exact Kx|]. split; [now apply Kt|].
  apply key_lt_of_le; [exact (Hx y Hy)|].
  intros Ekey. apply Nx.
  assert (Exy : snd x = snd y).
  { apply (@good_key_inj (snd x) (snd y) (fst x)); try assumption.
    - apply Gt. apply in_map_iff. now exists y.
    - rewrite Ekey. now apply Kt. }
  rewrite Exy. apply in_map_iff. now exists y.
Qed.

(** A cell of a matrix built from the parsed lists. *)
Lemma built_cell (pick : Z * Z -> Z) (n : nat) (ids : list VariantId)
    (parsed_variants : list (list (VcfRecord * Z * Z))) (i j : nat)
    (id : VariantId) (parsed : list (VcfRecord * Z * Z)) :
  nth_error ids i = Some id -> nth_error parsed_variants j = Some parsed ->
  let m := Impute.mkMatrix n
             (map (fun id => map (count_cell pick id) parsed_variants) ids) in
  nth_error (Impute.rows m) i = Some (map (count_cell pick id) parsed_variants) /\
  nth_error (map (count_cell pick id) parsed_variants) j
  = Some (count_cell pick id parsed) /\
  Impute.cell_at m i j = Some (count_cell pick id parsed).
Proof.
  intros Hi Hj. cbv zeta. unfold Impute.cell_at. cbn [Impute.rows].
  rewrite !nth_error_map, Hi. cbn [option_map].
  rewrite nth_error_map, Hj. cbn [option_map]. now repeat split.
Qed.

Lemma built_wf (pick : Z * Z -> Z) (ids : list VariantId)
    (parsed_variants : list (list (VcfRecord * Z * Z))) :
  Impute.wf_matrix
    (Impute.mkMatrix (length parsed_variants)
       (map (fun id => map (count_cell pick id) parsed_variants) ids)).
Proof.
  unfold Impute.wf_matrix. cbn [Impute.rows Impute.n_samples].
  apply Forall_map, Forall_forall. intros id _. apply length_map.
Qed.

(** The record whose counts a cell receives is the last one of the
    sample's list that bears the identity. *)
Lemma last_counts_spec (id : VariantId) (parsed : list (VcfRecord * Z * Z)) :
  match last_counts id parsed with
  | Some (r, t) =>
      exists pre v post,
        parsed = pre ++ (v, r, t) :: post /\ id_of v = id /\
        Forall (fun x => id_of (fst (fst x)) <> id) post
  | None => Forall (fun x => id_of (fst (fst x)) <> id) parsed
  end.
Proof.
  induction parsed as [|[[v r] t] rest IH]; cbn [last_counts]; [constructor|].
  destruct (last_counts id rest) as [[r' t']|].
  - destruct IH as (pre & v' & post & -> & Hv & Hpost).
    exists ((v, r, t) :: pre), v', post. now repeat split.
  - destruct (variant_id_eqb (id_of v) id) eqn:E.
    + apply variant_id_eqb_eq in E. exists [], v, rest. now repeat split.
    + constructor; [|assumption]. cbn [fst]. intros Hv.
      apply variant_id_eqb_eq in Hv. congruence.
Qed.

Lemma all_ids_good (fs : string -> option (list VcfRecord)) (args : Args)
    (files : list string) (parsed_variants : list (list (VcfRecord * Z * Z))) :
  Forall2 (parsed_by fs args) files parsed_variants ->
  Forall (fun id => _is_good_chrom (CHROM id) = true) (all_ids parsed_variants).
Proof.
  unfold all_ids. induction 1 as [|f parsed fs' ps Hp _ IH]; cbn [map concat];
    [constructor|].
  apply Forall_app. split; [|exact IH].
  destruct Hp as (vcf_type & vcf_fn & variant_parser & _ & _ & Hl).
  apply list_variants_good in Hl. apply Forall_map.
  eapply Forall_impl; [|exact Hl]. intros [[v r] t] Hg. exact Hg.
Qed.

(** The result of [parse_variants], file by file and cell by cell. *)
Lemma parse_variants_spec (fs : string -> option (list VcfRecord)) (args : Args)
    (ids : list VariantId) (ref_reads total_reads : Impute.matrix Z) :
  snd (parse_variants fs args) = Ok (ids, ref_reads, total_reads) ->
  exists parsed_variants,
    snd (parse_files fs args (vcf_files args)) = Ok parsed_variants /\
    Forall2 (parsed_by fs args) (vcf_files args) parsed_variants /\
    fst (parse_variants fs args) = map file_of (vcf_files args) /\
    (forall id, In id ids <-> In id (all_ids parsed_variants)) /\
    NoDup ids /\ StronglySorted id_lt ids /\
    forall i j id parsed,
      nth_error ids i = Some id -> nth_error parsed_variants j = Some parsed ->
      match last_counts id parsed with
      | Some (r, t) =>
          Impute.cell_at ref_reads i j = Some r /\
          Impute.cell_at total_reads i j = Some t /\ (0 < t)%Z
      | None =>
          exists t, Impute.cell_at total_reads i j = Some t /\
                    Impute.cell_at ref_reads i j = Some t
      end.
Proof.
  unfold parse_variants. intros H.
  pose proof (parse_files_ok fs args (vcf_files args)) as Hpf.
  destruct (parse_files fs args (vcf_files args)) as [opened r].
  cbn [fst snd] in *.
  destruct r as [pv| |]; cbn [rbind] in H; try discriminate.
  destruct (Hpf pv eq_refl) as [Hopen HF2]. clear Hpf.
  exists pv. split; [reflexivity|]. split; [exact HF2|]. split; [exact Hopen|].
  fold (all_ids pv) in H.
  destruct (distinct_spec (all_ids pv)) as [Hnd Hin].
  destruct (sort_ids (distinct (all_ids pv))) as [sorted|] eqn:Es;
    cbn [of_option rbind] in H; [|discriminate].
  assert (Hgood : Forall (fun id => _is_good_chrom (CHROM id) = true)
                    (distinct (all_ids pv))).
  { pose proof (all_ids_good HF2) as Hg. rewrite Forall_forall in *.
    intros id Hid. apply Hg. now apply Hin. }
  destruct (sort_ids_spec Hnd Hgood Es) as [Hperm Hsorted].
  rewrite (Forall2_length HF2) in H.
  destruct (Impute.impute_missing_total_reads _ _) as [tot|] eqn:Et;
    cbn [of_option rbind] in H; [|discriminate].
  destruct (Impute.impute_missing_ref_reads _ tot) as [rr|] eqn:Er;
    cbn [of_option rbind] in H; [|discriminate].
  injection H as <- <- <-.
  split; [|split; [|split]].
  - intros id. rewrite <- Hin. split; intros Hid.
    + eapply Permutation_in; [apply Permutation_sym|]; eassumption.
    + eapply Permutation_in; eassumption.
  - eapply Permutation_NoDup; eassumption.
  - exact Hsorted.
  - intros i j id parsed Hi Hj.
    destruct (@ImputeFacts.impute_total_cells _ _ _ (built_wf snd sorted pv) Et)
      as [_ Hcells].
    destruct (@built_cell snd (length pv) sorted pv i j id parsed Hi Hj)
      as (Hrow & Hc & _).
    destruct (Hcells i j _ _ Hrow Hc) as (v & s & _ & _ & _ & _ & Hf & Hcell).
    destruct (@ImputeFacts.impute_ref_cells _ _ _ Er) as [_ Hrc].
    specialize (Hrc i j).
    destruct (@built_cell fst (length pv) sorted pv i j id parsed Hi Hj)
      as (_ & _ & Hrefc).
    cbv zeta in Hrefc. rewrite Hrefc in Hrc.
    destruct (Impute.cell_at rr i j) as [z|]; [|contradiction].
    unfold count_cell in Hf, Hcell, Hrc.
    destruct (last_counts id parsed) as [[r t]|]; cbn [option_map fst snd] in *.
    + cbn [Impute.scale_missing Impute.fill] in Hf, Hcell.
      rewrite ImputeFacts.Int_part_IZR in Hcell.
      cbn [Impute.impute_ref_cell] in Hrc.
      rewrite ImputeFacts.astype_int_IZR in Hrc. injection Hrc as <-.
      split; [reflexivity|]. split; [exact Hcell | now apply lt_IZR].
    + cbn [Impute.impute_ref_cell] in Hrc. exists z. now split.
Qed.





Lemma parse_variants_not_unavailable (fs : string -> option (list VcfRecord))
    (args : Args) (parsed_variants : list (list (VcfRecord * Z * Z))) :
  snd (parse_files fs args (vcf_files args)) = Ok parsed_variants ->
  snd (parse_variants fs args) <> Unavailable.
Proof.
  unfold parse_variants.
  destruct (parse_files fs args (vcf_files args)) as [opened r]. cbn [snd].
  intros ->. cbn [rbind].
  destruct (sort_ids _); cbn [of_option rbind]; [|discriminate].
  destruct (Impute.impute_missing_total_reads _ _); cbn [of_option rbind];
    [|discriminate].
  destruct (Impute.impute_missing_ref_reads _ _); cbn [of_option rbind]; discriminate.
Qed.

(** A kept record with a total read count of zero or less makes the
    whole of [parse_variants] end in an exception: when the files have
    all been read and the counts that some sample's list gives a
    variant have a total that is not positive, no matrices are
    returned. *)
Theorem nonpositive_total_aborts (fs : string -> option (list VcfRecord)) (args : Args)
    (parsed_variants : list (list (VcfRecord * Z * Z))) (j : nat)
    (parsed : list (VcfRecord * Z * Z)) (id : VariantId) (r t : Z) :
  snd (parse_files fs args (vcf_files args)) = Ok parsed_variants ->
  nth_error parsed_variants j = Some parsed ->
  last_counts id parsed = Some (r, t) -> (t <= 0)%Z ->
  snd (parse_variants fs args) = Fatal.
Proof.
  intros Hpf Hj Hlast Ht.
  pose proof (parse_variants_not_unavailable _ _ Hpf) as Hnu.
  destruct (snd (parse_variants fs args)) as [[[ids rr] tot]| |] eqn:E;
    [|contradiction|reflexivity].
  exfalso.
  destruct (parse_variants_spec _ _ E) as (pv & Hpv & _ & _ & Hin & _ & _ & Hcells).
  assert (Epv : pv = parsed_variants) by congruence.
  subst pv.
  assert (Hid : In id ids).
  { apply Hin. pose proof (last_counts_spec id parsed) as Hl. rewrite Hlast in Hl.
    destruct Hl as (pre & v & post & -> & Hv & _).
    unfold all_ids. apply in_concat.
    exists (map (fun x : VcfRecord * Z * Z => id_of (fst (fst x)))
                (pre ++ (v, r, t) :: post)).
    split.
    - apply in_map_iff. eexists. split; [reflexivity|]. eapply nth_error_In; eauto.
    - apply in_map_iff. exists (v, r, t). split; [exact Hv|].
      apply in_or_app. right. now left. }
  apply In_nth_error in Hid. destruct Hid as [i Hi].
  specialize (Hcells i j id parsed Hi Hj). rewrite Hlast in Hcells.
  destruct Hcells as (_ & _ & Hpos). lia.
Qed.

Lemma nonpositive_total_aborts_witness :
  snd (parse_files ex_fs ex_strelka_args (vcf_files ex_strelka_args))
  = Ok [[(normalized ex_strelka_zero, 0%Z, 0%Z)]] /\
  snd (parse_variants ex_fs ex_strelka_args) = Fatal.
Proof.
  assert (E : snd (parse_files ex_fs ex_strelka_args (vcf_files ex_strelka_args))
              = Ok [[(normalized ex_strelka_zero, 0%Z, 0%Z)]])
    by (vm_compute; reflexivity).
  split; [exact E|].
  apply (@nonpositive_total_aborts ex_fs ex_strelka_args _ 0%nat
           [(normalized ex_strelka_zero, 0%Z, 0%Z)] (mkVariantId "1" 100) 0%Z 0%Z E).
  - reflexivity.
  - vm_compute. reflexivity.
  - lia.
Defined.

End ParseExtra.

(** ** Further properties of the variant group *)

Module GroupExtra.
Import Variant Cnv Group CnvSpec GroupSpec SortFacts SubsampleFacts Examples.
Local Open Scope Q_scope.

(** [find_cellularity] returns the greatest cellular prevalence of the
    regions, but never less than 0, the value its running maximum
    starts from: it is 0 for an empty CNV list and when no prevalence
    is positive, and otherwise the prevalence of one of the regions. *)
Theorem cellularity_is_greatest_prevalence (cnvs : region_map) :
  0 <= find_cellularity cnvs /\
  (forall r, In r (all_regions cnvs) -> cellular_prevalence r <= find_cellularity cnvs) /\
  (find_cellularity cnvs = 0 \/
   exists r, In r (all_regions cnvs) /\ find_cellularity cnvs = cellular_prevalence r) /\
  (Forall (fun r => cellular_prevalence r <= 0) (all_regions cnvs) ->
   find_cellularity cnvs == 0).
Proof.
  rewrite find_cellularity_flat.
  destruct (fold_max_step_spec (all_regions cnvs) 0) as (H0 & Hall & Hwit).
  cbv zeta in H0, Hall, Hwit.
  split; [exact H0|]. split; [|split].
  - intros r Hr. rewrite Forall_forall in Hall. now apply Hall.
  - exact Hwit.
  - intros Hneg. destruct Hwit as [E|(r & Hr & E)]; [now rewrite E|].
    rewrite Forall_forall in Hneg. specialize (Hneg r Hr).
    rewrite E in *. lra.
Qed.

Lemma cellularity_is_greatest_prevalence_witness :
  let cnvs := [("1"%string, [mkRegion 1 10 2 1 (- (1 # 2)); mkRegion 11 20 1 1 0])] in
  Forall (fun r => cellular_prevalence r <= 0) (all_regions cnvs) /\
  find_cellularity cnvs == 0.
Proof.
  cbv zeta.
  assert (H : Forall (fun r => cellular_prevalence r <= 0)
                (all_regions
                   [("1"%string, [mkRegion 1 10 2 1 (- (1 # 2)); mkRegion 11 20 1 1 0])])).
  { cbn. repeat constructor; cbn; lra. }
  split; [exact H|].
  destruct (cellularity_is_greatest_prevalence
              [("1"%string, [mkRegion 1 10 2 1 (- (1 # 2)); mkRegion 11 20 1 1 0])])
    as (_ & _ & _ & Hz).
  exact (Hz H).
Defined.

Lemma ranked_length (p : nat -> bool) (l : list nat) : length (ranked p l) = length l.
Proof. unfold ranked. apply Permutation_length, filter_partition_perm. Qed.

(** Without a sample size every variant is subsampled: the
    nonsubsampled group is empty and the subsampled group holds the
    retained indices, in ascending (chromosome, position) order. *)
Theorem no_sample_size_takes_all (shuffle : list nat -> list nat)
    (self : VariantAndCnvGroup) (priority_ssms : list (string * Z))
    (sub nonsub : list nat) :
  Permutation (shuffle (_variant_idxs self)) (_variant_idxs self) ->
  subsample shuffle self None priority_ssms = Some (sub, nonsub) ->
  nonsub = [] /\ Permutation sub (_variant_idxs self) /\ sorted_by_key self sub.
Proof.
  intros Hsh H.
  change (subsample shuffle self (Some (Z.of_nat (length (_variant_idxs self))))
            priority_ssms = Some (sub, nonsub)) in H.
  destruct (SubsampleTheorems.subsample_spec _ _ _ _ H) as (_ & Hsub & rest & Hrest & Hp).
  cbv zeta in Hsub, Hp.
  set (sh := shuffle (_variant_idxs self)) in *.
  set (p := prio_idx self priority_ssms) in *.
  rewrite Nat2Z.id in Hsub, Hp.
  assert (Hlen : length (_variant_idxs self) = length (ranked p sh)).
  { rewrite ranked_length. symmetry. now apply Permutation_length. }
  rewrite Hlen in Hsub, Hp. rewrite firstn_all in Hsub. rewrite skipn_all in Hp.
  apply Permutation_sym, Permutation_nil in Hp. subst rest.
  cbn in Hrest. injection Hrest as <-.
  destruct (sort_idxs_spec _ _ Hsub) as [Hperm Hsorted].
  split; [reflexivity|]. split; [|assumption].
  rewrite <- Hperm. unfold ranked. rewrite filter_partition_perm. exact Hsh.
Qed.

Lemma no_sample_size_takes_all_witness :
  Permutation (ex_shuffle (_variant_idxs ex_sub_group)) (_variant_idxs ex_sub_group) /\
  subsample ex_shuffle ex_sub_group None ex_priority
  = Some ([0; 1; 2; 3; 4; 5]%nat, []) /\
  sorted_by_key ex_sub_group [0; 1; 2; 3; 4; 5]%nat.
Proof.
  assert (Hsh : Permutation (ex_shuffle (_variant_idxs ex_sub_group))
                            (_variant_idxs ex_sub_group))
    by (apply Permutation_sym, Permutation_rev).
  assert (E : subsample ex_shuffle ex_sub_group None ex_priority
              = Some ([0; 1; 2; 3; 4; 5]%nat, [])) by (vm_compute; reflexivity).
  split; [exact Hsh|]. split; [exact E|].
  now destruct (@no_sample_size_takes_all ex_shuffle ex_sub_group ex_priority _ _ Hsh E)
    as (_ & _ & H).
Defined.

(** A negative sample size fails the assertion
    [len(subsampled) <= sample_size] (or an earlier index lookup), so
    no variant is formatted. *)
Theorem negative_sample_size_fails (shuffle : list nat -> list nat)
    (self : VariantAndCnvGroup) (n : Z) (error_rate : Q)
    (priority_ssms : list (string * Z)) :
  (n < 0)%Z ->
  format_variants shuffle self (Some n) error_rate priority_ssms = None.
Proof.
  intros Hn. unfold format_variants, subsample.
  destruct (fold_left _ _ _) as [st|]; cbn [Exc.bind]; [|reflexivity].
  destruct (Z.leb_spec (Z.of_nat (length (rev (fst st)))) n) as [Hle|_]; [lia|].
  reflexivity.
Qed.

Lemma negative_sample_size_fails_witness :
  (-1 < 0)%Z /\
  format_variants ex_shuffle ex_sub_group (Some (-1)%Z) (1 # 1000) ex_priority = None.
Proof.
  split; [lia|].
  apply (@negative_sample_size_fails ex_shuffle ex_sub_group (-1)%Z (1 # 1000)
           ex_priority).
  lia.
Defined.

End GroupExtra.

(** ** Further properties of the caller adapters *)

Module AdapterExtra.
Import Variant Vcf AdapterSpec Examples.

Lemma indices_where_one {A : Type} (p : A -> bool) (l : list A) :
  forall start i,
    indices_where p start l = [i] ->
    exists x, nth_error l (i - start) = Some x /\ (start <= i)%nat /\ filter p l = [x].
Proof.
  induction l as [|y t IH]; intros start i H; cbn [indices_where] in H; [discriminate|].
  cbn [filter]. destruct (p y) eqn:Ey.
  - injection H as -> Ht. exists y. rewrite Nat.sub_diag. split; [reflexivity|].
    split; [lia|]. f_equal.
    clear -Ht. revert Ht. generalize (S i).
    induction t as [|z t IH]; intros n H; cbn in *; [reflexivity|].
    destruct (p z); [discriminate | eapply IH; eauto].
  - destruct (IH _ _ H) as (x & Hx & Hle & Hf). exists x.
    replace (i - start)%nat with (S (i - S start)) by lia.
    split; [exact Hx|]. split; [lia | exact Hf].
Qed.

Lemma indices_where_filter {A : Type} (p : A -> bool) (l : list A) :
  forall start, length (indices_where p start l) = length (filter p l).
Proof.
  induction l as [|y t IH]; intros start; cbn; [reflexivity|].
  destruct (p y); cbn; now rewrite IH.
Qed.

(** [samples[len(samples) - 1]]. *)
Lemma sample_at_last (first : Call) (rest : list Call) :
  sample_at (first :: rest) (Z.of_nat (length (first :: rest)) - 1)
  = Ok (last rest first).
Proof.
  assert (Hnth : forall first, nth_error (first :: rest) (length rest)
                              = Some (last rest first)).
  { assert (Hl : forall (t : list Call) y x, last (y :: t) x = last t y).
    { induction t as [|z t IH]; intros y x; [reflexivity|].
      change (last (y :: z :: t) x) with (last (z :: t) x).
      now rewrite !IH. }
    induction rest as [|y t IH]; intros x; [reflexivity|].
    cbn [length nth_error]. rewrite (IH y). now rewrite Hl. }
  unfold sample_at.
  replace (Z.of_nat (length (first :: rest)) - 1)%Z
    with (Z.of_nat (length rest)) by (cbn [length]; lia).
  destruct (Z.leb_spec 0 (Z.of_nat (length rest))); [|lia].
  destruct (Z.ltb_spec (Z.of_nat (length rest)) (Z.of_nat (length (first :: rest))));
    [|cbn [length] in *; lia].
  cbn [andb]. rewrite Nat2Z.id, Hnth. reflexivity.
Qed.

(** The column the adapters read. With a tumour sample name, it is
    the one column of that name, and there must be exactly one; with
    no name (or an empty one), it is the last column, and there must
    be a column. *)
Theorem tumor_call_is_named_or_last (self : VariantParser) (variant : VcfRecord) :
  match _tumor_sample self with
  | Some (String a name) =>
      match named (String a name) (r_samples variant) with
      | [call] => tumor_call self variant = Ok call
      | _ => tumor_call self variant = Fatal
      end
  | _ =>
      match r_samples variant with
      | [] => tumor_call self variant = Fatal
      | first :: rest => tumor_call self variant = Ok (last rest first)
      end
  end.
Proof.
  assert (Hlast : truthy (_tumor_sample self) = false ->
                  match r_samples variant with
                  | [] => tumor_call self variant = Fatal
                  | first :: rest => tumor_call self variant = Ok (last rest first)
                  end).
  { intros Ht. unfold tumor_call, _get_tumor_index. rewrite Ht.
    destruct (r_samples variant) as [|first rest]; cbn [rbind]; [reflexivity|].
    apply sample_at_last. }
  destruct (_tumor_sample self) as [[|a name]|] eqn:En;
    [now apply Hlast | | now apply Hlast].
  clear Hlast. unfold tumor_call, _get_tumor_index, named. rewrite En. cbn [truthy].
  set (p := fun s => String.eqb (sample s) (String a name)).
  pose proof (indices_where_filter p (r_samples variant) 0) as Hlen.
  destruct (indices_where p 0 (r_samples variant)) as [|i [|i' t]] eqn:Ei.
  - destruct (filter p (r_samples variant)) as [|c [|c' t]]; try discriminate.
    reflexivity.
  - destruct (indices_where_one _ _ _ Ei) as (x & Hx & _ & Hf).
    rewrite Hf. cbn [rbind]. rewrite Nat.sub_0_r in Hx.
    unfold sample_at.
    assert (Hi : (i < length (r_samples variant))%nat)
      by (apply nth_error_Some; congruence).
    destruct (Z.leb_spec 0 (Z.of_nat i)); [|lia].
    destruct (Z.ltb_spec (Z.of_nat i) (Z.of_nat (length (r_samples variant))));
      [|lia].
    cbn [andb]. rewrite Nat2Z.id, Hx. reflexivity.
  - destruct (filter p (r_samples variant)) as [|c [|c' t']]; try discriminate.
    reflexivity.
Qed.

Ltac rstep H :=
  match type of H with
  | rbind ?m _ = Ok _ =>
      let E := fresh "E" in
      destruct m eqn:E; cbn [rbind] in H; try discriminate H
  end.

Lemma digits_value_nonneg (s : string) :
  forall acc z, digits_value acc s = Some z -> (0 <= acc)%Z -> (0 <= z)%Z.
Proof.
  induction s as [|c t IH]; intros acc z H Hacc; cbn [digits_value] in H.
  - injection H as <-. exact Hacc.
  - destruct (digit_of_ascii c) as [d|] eqn:Ed; [|discriminate].
    apply (IH _ _ H). unfold digit_of_ascii in Ed.
    destruct (andb _ _); [|discriminate]. injection Ed as <-. lia.
Qed.

Lemma unsigned_nonneg (s : string) (z : Z) :
  unsigned_of_string s = Some z -> (0 <= z)%Z.
Proof.
  unfold unsigned_of_string. destruct s; [discriminate|].
  intros H. apply (@digits_value_nonneg _ _ _ H). lia.
Qed.

(** [int] of a single character is a digit's value. *)
Lemma int_of_char_nonneg (c : ascii) (z : Z) :
  int_of_string (String c EmptyString) = Some z -> (0 <= z)%Z.
Proof.
  unfold int_of_string. cbn [lstrip]. destruct (is_space c) eqn:Es.
  - cbn. discriminate.
  - cbn [rstrip]. rewrite Es.
    destruct c as [[] [] [] [] [] [] [] []]; cbn; intros H;
      solve [discriminate H | injection H as <-; lia].
Qed.

Lemma to_int_nonneg (v : value) (z : Z) :
  to_int v = Ok z -> nonneg_value v -> (0 <= z)%Z.
Proof.
  destruct v as [x|str|l]; cbn; intros H Hv; try discriminate.
  - now injection H as <-.
  - destruct (int_of_string str) eqn:E; [|discriminate].
    now injection H as <-.
Qed.

Lemma item_nonneg (v x : value) (i : Z) :
  item v i = Ok x -> nonneg_value v -> nonneg_value x.
Proof.
  unfold item. destruct (Z.ltb i 0); [discriminate|].
  destruct v as [z|str|l]; intros H Hv; try discriminate.
  - destruct (String.get (Z.to_nat i) str) as [c|]; [|discriminate].
    cbn in H. injection H as <-. cbn [nonneg_value].
    destruct (int_of_string (String c EmptyString)) as [z|] eqn:E; [|exact I].
    eapply int_of_char_nonneg; eauto.
  - destruct (nth_error l (Z.to_nat i)) as [z|] eqn:E; [|discriminate].
    cbn in H. injection H as <-. cbn in Hv |- *.
    rewrite Forall_forall in Hv. apply Hv. eapply nth_error_In; eauto.
Qed.

Lemma int_item_nonneg (v : value) (i z : Z) :
  int_item v i = Ok z -> nonneg_value v -> (0 <= z)%Z.
Proof.
  unfold int_item. intros H Hv. rstep H.
  eapply to_int_nonneg; [exact H|]. eapply item_nonneg; eauto.
Qed.

Lemma lookup_nonneg (key : string) (fields : list (string * value)) (v : value) :
  lookup key fields = Some v -> nonneg_fields fields -> nonneg_value v.
Proof.
  induction fields as [|[k x] t IH]; cbn [lookup]; [discriminate|].
  intros H Hf. inversion Hf as [|? ? Hx Ht]; subst.
  destruct (String.eqb k key); [injection H as <-; exact Hx | now apply IH].
Qed.

Lemma field_nonneg (call : Call) (key : string) (v : value) :
  field call key = Ok v -> nonneg_fields (data call) -> nonneg_value v.
Proof.
  unfold field. destruct (lookup key (data call)) eqn:E; [|discriminate].
  intros H. injection H as <-. now apply (@lookup_nonneg _ _ _ E).
Qed.

Lemma sample_at_In (samples : list Call) (i : Z) (call : Call) :
  sample_at samples i = Ok call -> In call samples.
Proof.
  unfold sample_at.
  destruct (andb _ _).
  - destruct (nth_error samples (Z.to_nat i)) eqn:E; [|discriminate].
    intros H. injection H as <-. eapply nth_error_In; eauto.
  - destruct (andb _ _); [|discriminate].
    destruct (nth_error samples _) eqn:E; [|discriminate].
    intros H. injection H as <-. eapply nth_error_In; eauto.
Qed.

Lemma tumor_call_nonneg (self : VariantParser) (variant : VcfRecord) (call : Call) :
  tumor_call self variant = Ok call -> nonneg_record variant ->
  nonneg_fields (data call).
Proof.
  unfold tumor_call. intros H [_ Hs]. rstep H.
  apply sample_at_In in H. rewrite Forall_forall in Hs. now apply Hs.
Qed.

Lemma genotype_nonneg (variant : VcfRecord) (name : string) (call : Call) :
  genotype variant name = Ok call -> nonneg_record variant ->
  nonneg_fields (data call).
Proof.
  unfold genotype. intros H [_ Hs].
  destruct (find _ (r_samples variant)) as [c|] eqn:E; [|discriminate].
  injection H as <-. apply find_some in E. destruct E as [E _].
  rewrite Forall_forall in Hs. now apply Hs.
Qed.

Lemma reads_nonneg (tumor : Call) (strand nt : string) (z : Z) :
  (key <~ strand_field strand nt ;; v <~ field tumor key ;; to_int v) = Ok z ->
  nonneg_fields (data tumor) -> (0 <= z)%Z.
Proof.
  intros H Hf. rstep H. rstep H.
  eapply to_int_nonneg; [exact H|]. eapply field_nonneg; eauto.
Qed.

(** Seven of the nine adapters return the reference count and the sum
    of the reference and the variant count (all but MuSE and Strelka,
    which read the total from [DP]). For them, a record with no
    negative field gives [0 <= ref_reads <= total_reads]. *)
Theorem summed_counts_are_ordered (self : VariantParser) (variant : VcfRecord)
    (ref_reads total_reads : Z) :
  adds_counts (kind self) = true -> nonneg_record variant ->
  _calc_read_counts self variant = Ok (ref_reads, total_reads) ->
  (0 <= ref_reads <= total_reads)%Z.
Proof.
  intros Hk Hv H. unfold _calc_read_counts in H.
  destruct (kind self); try discriminate Hk; clear Hk.
  - (* Sanger *)
    unfold sanger_counts in H. rstep H. rstep H. rstep H. cbv zeta in H.
    rstep H.
    pose proof (@genotype_nonneg _ _ _ E0 Hv) as Hf.
    rstep H. rstep H. rstep H. rstep H. injection H as <- <-.
    pose proof (@reads_nonneg _ _ _ _ E3 Hf). pose proof (@reads_nonneg _ _ _ _ E4 Hf).
    pose proof (@reads_nonneg _ _ _ _ E5 Hf). pose proof (@reads_nonneg _ _ _ _ E6 Hf).
    lia.
  - (* MutectPcawg *)
    unfold mutect_pcawg_counts in H. rstep H.
    pose proof (@tumor_call_nonneg _ _ _ E Hv) as Hf.
    rstep H. rstep H. rstep H. rstep H. injection H as <- <-.
    pose proof (@to_int_nonneg _ _ E1 (@field_nonneg _ _ _ E0 Hf)).
    pose proof (@to_int_nonneg _ _ E3 (@field_nonneg _ _ _ E2 Hf)).
    lia.
  - (* MutectSmchet *)
    unfold mutect_smchet_counts in H. rstep H.
    pose proof (@tumor_call_nonneg _ _ _ E Hv) as Hf.
    rstep H. rstep H. rstep H. injection H as <- <-.
    pose proof (@int_item_nonneg _ _ _ E1 (@field_nonneg _ _ _ E0 Hf)).
    pose proof (@int_item_nonneg _ _ _ E2 (@field_nonneg _ _ _ E0 Hf)).
    lia.
  - (* MutectTcga *)
    unfold mutect_tcga_counts in H. rstep H.
    pose proof (@tumor_call_nonneg _ _ _ E Hv) as Hf.
    rstep H. pose proof (@field_nonneg _ _ _ E0 Hf) as Htd.
    destruct a0 as [|?|[|r [|v [|? ?]]]]; try discriminate H.
    injection H as <- <-. cbn in Htd.
    inversion Htd as [|? ? Hr Hrest]; subst. inversion Hrest; subst. lia.
  - (* DKFZ *)
    unfold dkfz_counts in H. rstep H.
    assert (Hdp : nonneg_value a).
    { destruct (lookup "DP4" (r_INFO variant)) eqn:El; [|discriminate].
      injection E as <-. destruct Hv as [Hi _]. eapply lookup_nonneg; eauto. }
    rstep H. rstep H. rstep H. rstep H. injection H as <- <-.
    pose proof (@int_item_nonneg _ _ _ E0 Hdp). pose proof (@int_item_nonneg _ _ _ E1 Hdp).
    pose proof (@int_item_nonneg _ _ _ E2 Hdp). pose proof (@int_item_nonneg _ _ _ E3 Hdp).
    lia.
  - (* VarDict *)
    unfold mutect_smchet_counts in H. rstep H.
    pose proof (@tumor_call_nonneg _ _ _ E Hv) as Hf.
    rstep H. rstep H. rstep H. injection H as <- <-.
    pose proof (@int_item_nonneg _ _ _ E1 (@field_nonneg _ _ _ E0 Hf)).
    pose proof (@int_item_nonneg _ _ _ E2 (@field_nonneg _ _ _ E0 Hf)).
    lia.
  - (* PcawgConsensus *)
    unfold pcawg_consensus_counts in H. destruct Hv as [Hi _].
    destruct (lookup "t_alt_count" (r_INFO variant)) as [alt|] eqn:Ea; [|discriminate].
    destruct (lookup "t_ref_count" (r_INFO variant)) as [ref|] eqn:Er; [|discriminate].
    rstep H. rstep H. rstep H. rstep H. rstep H.
    destruct (Z.eqb _ 0); [discriminate|]. injection H as <- <-.
    pose proof (@int_item_nonneg _ _ _ E2 (@lookup_nonneg _ _ _ Ea Hi)).
    pose proof (@int_item_nonneg _ _ _ E3 (@lookup_nonneg _ _ _ Er Hi)).
    lia.
Qed.

Lemma summed_counts_are_ordered_witness :
  let self := mkParser PcawgConsensus "pcawg.vcf" None in
  adds_counts (kind self) = true /\ nonneg_record ex_pcawg_counts /\
  _calc_read_counts self ex_pcawg_counts = Ok (30%Z, 40%Z) /\
  (0 <= 30 <= 40)%Z.
Proof.
  cbv zeta.
  assert (Hv : nonneg_record ex_pcawg_counts).
  { split; [|constructor]. repeat constructor; cbn; lia. }
  split; [reflexivity|]. split; [exact Hv|]. split; [reflexivity|].
  exact (@summed_counts_are_ordered (mkParser PcawgConsensus "pcawg.vcf" None)
           ex_pcawg_counts 30%Z 40%Z eq_refl Hv eq_refl).
Defined.

End AdapterExtra.

(** ** Properties of the CNV list reader *)

Module CnvFileExtra.
Import Variant Cnv Group CnvFile.

Lemma insert_by_start_perm (x : CnvRegion) (l : list CnvRegion) :
  Permutation (x :: l) (insert_by_start x l).
Proof.
  induction l as [|y t IH]; cbn; [reflexivity|].
  destruct (Z.leb (start x) (start y)); [reflexivity|].
  rewrite perm_swap. now constructor.
Qed.

Lemma sort_by_start_perm (l : list CnvRegion) : Permutation l (sort_by_start l).
Proof.
  induction l as [|x t IH]; cbn; [reflexivity|].
  rewrite <- insert_by_start_perm. now constructor.
Qed.

Lemma insert_by_start_sorted (x : CnvRegion) (l : list CnvRegion) :
  StronglySorted start_le l -> StronglySorted start_le (insert_by_start x l).
Proof.
  induction 1 as [|y t Hs IH Hy]; cbn.
  - constructor; constructor.
  - destruct (Z.leb_spec (start x) (start y)) as [E|E].
    + constructor; [now constructor|]. constructor; [exact E|].
      eapply Forall_impl; [|exact Hy]. intros z Hz. unfold start_le in *. lia.
    + constructor; [assumption|].
      eapply Permutation_Forall; [apply insert_by_start_perm|].
      constructor; [unfold start_le; lia | assumption].
Qed.

Lemma sort_by_start_sorted (l : list CnvRegion) :
  StronglySorted start_le (sort_by_start l).
Proof.
  induction l as [|x t IH]; cbn; [constructor|]. now apply insert_by_start_sorted.
Qed.

(** The sort is stable: regions with the same start keep their order. *)
Lemma insert_by_start_stable (s : Z) (x : CnvRegion) (l : list CnvRegion) :
  starting_at s (insert_by_start x l) = starting_at s (x :: l).
Proof.
  unfold starting_at. induction l as [|y t IH]; [reflexivity|].
  cbn [insert_by_start].
  destruct (Z.leb_spec (start x) (start y)) as [E|E]; [reflexivity|].
  cbn [filter] in *. rewrite IH.
  destruct (Z.eqb_spec (start x) s), (Z.eqb_spec (start y) s); try reflexivity.
  lia.
Qed.

Lemma sort_by_start_stable (s : Z) (l : list CnvRegion) :
  starting_at s (sort_by_start l) = starting_at s l.
Proof.
  induction l as [|x t IH]; [reflexivity|].
  cbn [sort_by_start fold_right]. rewrite insert_by_start_stable.
  unfold starting_at in *. cbn [filter]. fold (sort_by_start t). now rewrite IH.
Qed.

Lemma regions_of_append (c chrom : string) (r : CnvRegion) (m : region_map) :
  regions_of (append_to c r m) chrom
  = if String.eqb c chrom then regions_of m chrom ++ [r] else regions_of m chrom.
Proof.
  induction m as [|[k regs] t IH]; cbn [append_to regions_of].
  - destruct (String.eqb c chrom); reflexivity.
  - destruct (String.eqb_spec k c) as [->|Hkc]; cbn [regions_of].
    + destruct (String.eqb c chrom); reflexivity.
    + rewrite IH. destruct (String.eqb_spec k chrom) as [->|Hk]; [|reflexivity].
      destruct (String.eqb_spec c chrom) as [->|_]; [contradiction | reflexivity].
Qed.

Lemma keys_of_append (c : string) (r : CnvRegion) (m : region_map) :
  NoDup (map fst m) ->
  NoDup (map fst (append_to c r m)) /\
  forall k, In k (map fst (append_to c r m)) <-> k = c \/ In k (map fst m).
Proof.
  induction m as [|[k regs] t IH]; cbn [append_to map fst]; intros Hnd.
  - split; [repeat constructor; auto|]. intros k. cbn. intuition congruence.
  - inversion Hnd as [|? ? Hk Ht]; subst.
    destruct (String.eqb_spec k c) as [->|Hkc]; cbn [map fst].
    + split; [exact Hnd|]. intros k. cbn. intuition congruence.
    + destruct (IH Ht) as [IH1 IH2]. split.
      * constructor; [|exact IH1]. rewrite IH2. intros [E|Hin]; [congruence | auto].
      * intros k'. cbn [In]. rewrite IH2. intuition congruence.
Qed.

Lemma group_spec (converted : list (string * CnvRegion)) :
  NoDup (map fst (group converted)) /\
  forall chrom, regions_of (group converted) chrom = rows_of chrom converted.
Proof.
  unfold group.
  assert (H : forall l m, NoDup (map fst m) ->
            let m' := fold_left (fun m (cr : string * CnvRegion) =>
                                   append_to (fst cr) (snd cr) m) l m in
            NoDup (map fst m') /\
            forall chrom, regions_of m' chrom = regions_of m chrom ++ rows_of chrom l).
  { induction l as [|[c r] t IH]; intros m Hnd; cbn [fold_left fst snd].
    - split; [exact Hnd|]. intros chrom. cbn. now rewrite app_nil_r.
    - destruct (@keys_of_append c r m Hnd) as [Hnd' _].
      destruct (IH _ Hnd') as [IH1 IH2]. cbv zeta in IH1, IH2.
      split; [exact IH1|]. intros chrom. rewrite IH2, regions_of_append.
      unfold rows_of. cbn [filter fst].
      destruct (String.eqb c chrom); cbn [map snd]; [|reflexivity].
      now rewrite <- app_assoc. }
  destruct (H converted [] (NoDup_nil _)) as [H1 H2]. cbv zeta in H1, H2.
  split; [exact H1|]. intros chrom. now rewrite H2.
Qed.

Lemma regions_of_sorted (m : region_map) (chrom : string) :
  regions_of (map (fun kv : string * list CnvRegion => (fst kv, sort_by_start (snd kv)))
                  m) chrom
  = sort_by_start (regions_of m chrom).
Proof.
  induction m as [|[k regs] t IH]; cbn [map regions_of fst snd]; [reflexivity|].
  destruct (String.eqb k chrom); [reflexivity | exact IH].
Qed.

(** Whenever [CnvParser.parse] returns, each chromosome name is a key
    once, and the regions filed under a chromosome are the rows of
    that chromosome, in ascending order of their start; rows with the
    same start keep the order they have in the file. *)
Theorem parse_sorts_each_chromosome (float : string -> option Q) (rows : list record)
    (cn_regions : region_map) :
  parse float rows = Some cn_regions ->
  exists converted,
    Exc.mapM (convert float) rows = Some converted /\
    NoDup (map fst cn_regions) /\
    forall chrom,
      Permutation (rows_of chrom converted) (regions_of cn_regions chrom) /\
      StronglySorted start_le (regions_of cn_regions chrom) /\
      forall s, starting_at s (regions_of cn_regions chrom)
                = starting_at s (rows_of chrom converted).
Proof.
  unfold parse. intros H.
  destruct (Exc.mapM (convert float) rows) as [converted|]; cbn [Exc.bind] in H;
    [|discriminate].
  injection H as <-. exists converted. split; [reflexivity|].
  destruct (group_spec converted) as [Hnd Hreg]. split.
  - rewrite map_map. cbn [fst]. exact Hnd.
  - intros chrom. rewrite regions_of_sorted, Hreg. split; [|split].
    + apply sort_by_start_perm.
    + apply sort_by_start_sorted.
    + intros s. apply sort_by_start_stable.
Qed.

Lemma parse_sorts_each_chromosome_witness :
  let float := fun _ : string => Some (1 # 2)%Q in
  let row c s := [("chromosome", c); ("start", s); ("end", "900"); ("major_cn", "2");
                  ("minor_cn", "1"); ("cellular_prevalence", "0.5")]%string in
  exists cn_regions,
    parse float [row "1" "500"; row "2" "7"; row "1" "20"]%string = Some cn_regions /\
    map start (regions_of cn_regions "1") = [20%Z; 500%Z] /\
    StronglySorted start_le (regions_of cn_regions "1").
Proof.
  cbv zeta.
  destruct (parse (fun _ : string => Some (1 # 2)%Q)
              [[("chromosome", "1"); ("start", "500"); ("end", "900"); ("major_cn", "2");
                ("minor_cn", "1"); ("cellular_prevalence", "0.5")];
               [("chromosome", "2"); ("start", "7"); ("end", "900"); ("major_cn", "2");
                ("minor_cn", "1"); ("cellular_prevalence", "0.5")];
               [("chromosome", "1"); ("start", "20"); ("end", "900"); ("major_cn", "2");
                ("minor_cn", "1"); ("cellular_prevalence", "0.5")]]%string)
    as [cn_regions|] eqn:E; [|vm_compute in E; discriminate].
  exists cn_regions. split; [reflexivity|].
  destruct (@parse_sorts_each_chromosome _ _ _ E) as (converted & _ & _ & H).
  destruct (H "1"%string) as (_ & Hs & _).
  split; [|exact Hs].
  vm_compute in E. injection E as <-. reflexivity.
Defined.

(** On a list in ascending order of start, as [CnvParser.parse] leaves
    it, the block that the inner loop of
    [_filter_multiple_abnormal_cn_regions] collects after a region
    holds every later region with that region's start: what follows
    the block starts strictly further on. *)
Theorem sorted_block_is_complete (region : CnvRegion) (rest more : list CnvRegion) :
  StronglySorted start_le (region :: rest) ->
  same_coords region rest = Some more ->
  exists later,
    rest = more ++ later /\
    Forall (fun r => start r = start region /\ end_ r = end_ region) more /\
    Forall (fun r => (start region < start r)%Z) later.
Proof.
  revert more. induction rest as [|r t IH]; intros more Hs H; cbn [same_coords] in H.
  - injection H as <-. exists []. repeat split; constructor.
  - inversion Hs as [|? ? Hrest Hall]; subst.
    inversion Hall as [|? ? Hr Ht]; subst.
    inversion Hrest as [|? ? Htsorted Hrt]; subst.
    destruct (Z.eqb_spec (start r) (start region)) as [Es|Hne].
    + destruct (Z.eqb_spec (end_ r) (end_ region)) as [Ee|_]; [|discriminate].
      destruct (same_coords region t) as [more'|] eqn:Em; cbn [Exc.bind] in H;
        [|discriminate].
      injection H as <-.
      destruct (IH more') as (later & -> & Hm & Hl); [|reflexivity|].
      * constructor; assumption.
      * exists later. split; [reflexivity|]. split; [now constructor | exact Hl].
    + injection H as <-. exists (r :: t). split; [reflexivity|].
      split; [constructor|].
      unfold start_le in *. constructor; [lia|].
      eapply Forall_impl; [|exact Hrt]. intros x Hx. cbn beta in Hx. lia.
Qed.

Lemma sorted_block_is_complete_witness :
  let a := mkRegion 1 10 2 1 (3 # 10) in
  let b := mkRegion 1 10 2 0 (8 # 10) in
  let c := mkRegion 11 20 1 1 (8 # 10) in
  StronglySorted start_le [a; b; c] /\
  same_coords a [b; c] = Some [b] /\
  exists later, [b; c] = [b] ++ later /\ Forall (fun r => (1 < start r)%Z) later.
Proof.
  cbv zeta.
  assert (Hs : StronglySorted start_le
                 [mkRegion 1 10 2 1 (3 # 10); mkRegion 1 10 2 0 (8 # 10);
                  mkRegion 11 20 1 1 (8 # 10)]).
  { repeat constructor; unfold start_le; cbn; lia. }
  split; [exact Hs|]. split; [reflexivity|].
  destruct (@sorted_block_is_complete _ _ [mkRegion 1 10 2 0 (8 # 10)] Hs eq_refl)
    as (later & E & _ & Hl).
  exists later. split; [exact E | exact Hl].
Defined.

End CnvFileExtra.

(** ** The formatter in binary64 *)

Module F64Facts.
Import SpecFloat F64.

Lemma truncate_floor (m : positive) (e : Z) :
  truncate m e = Qfloor (to_Q (S754_finite false m e)).
Proof.
  unfold truncate, to_Q. destruct e as [|p|p].
  - now rewrite Qfloor_Z.
  - now rewrite Qfloor_Z.
  - unfold Qfloor. rewrite Pos2Z.inj_pow.
    rewrite Z.shiftr_div_pow2 by apply Pos2Z.is_nonneg. reflexivity.
Qed.

Lemma neg_div_ceil (a b : Z) : (0 < b)%Z -> ((- a) / b = - ((a + b - 1) / b))%Z.
Proof.
  intros Hb. symmetry.
  apply (Z.div_unique (- a) b (- ((a + b - 1) / b)) (b - 1 - (a + b - 1) mod b)).
  - left. pose proof (Z.mod_pos_bound (a + b - 1) b Hb). lia.
  - pose proof (Z.div_mod (a + b - 1) b). lia.
Qed.

Lemma floor_negative (m p : positive) :
  floor (S754_finite true m (Zneg p))
  = Some (- ((Zpos m + 2 ^ Zpos p - 1) / 2 ^ Zpos p))%Z.
Proof.
  unfold floor.
  rewrite Z.shiftr_div_pow2 by apply Pos2Z.is_nonneg.
  now rewrite Z.shiftl_1_l.
Qed.

Lemma Qfloor_opp_Z (z : Z) : Qfloor (- inject_Z z) = (- z)%Z.
Proof. unfold Qfloor, Qopp, inject_Z. cbn [Qnum Qden]. apply Z.div_1_r. Qed.

(** [np.floor] is the floor of the number a finite float stands for. *)
Lemma floor_Qfloor (x : float) (z : Z) :
  floor x = Some z -> is_finite x = true /\ z = Qfloor (to_Q x).
Proof.
  destruct x as [s|s| |s m e]; try discriminate.
  - intros H. injection H as <-. split; reflexivity.
  - destruct s.
    + destruct e as [|p|p].
      * intros H. injection H as <-. split; [reflexivity|].
        symmetry. apply (Qfloor_opp_Z (Z.shiftl (Z.pos m) 0)).
      * intros H. injection H as <-. split; [reflexivity|].
        symmetry. apply (Qfloor_opp_Z (Z.shiftl (Z.pos m) (Z.pos p))).
      * rewrite floor_negative. intros H. injection H as <-. split; [reflexivity|].
        assert (Hpos : (0 < 2 ^ Z.pos p)%Z) by (apply Z.pow_pos_nonneg; lia).
        unfold to_Q, Qfloor, Qopp. cbn [Qnum Qden].
        rewrite Pos2Z.inj_pow. symmetry.
        exact (@neg_div_ceil (Z.pos m) (2 ^ Z.pos p) Hpos).
    + intros H. injection H as <-. split; [reflexivity | apply truncate_floor].
Qed.

End F64Facts.

Module Cnv64Facts.
Import SpecFloat F64 F64Facts Cnv64 Cnv64Spec.

(** [int(x)] is the integer part of the number [x] stands for. *)
Lemma to_int_integer_part (x : float) (z : Z) :
  to_int x = Some z -> is_finite x = true /\ z = integer_part x.
Proof.
  unfold to_int, integer_part. destruct x as [s|s| |s m e]; try discriminate.
  - intros H. injection H as <-. split; [reflexivity|]. now destruct s.
  - intros H. injection H as <-. split; [reflexivity|].
    destruct s; cbn [sign_clear negb cond_Zopp].
    + rewrite truncate_floor. unfold Qceiling. f_equal.
      apply Qfloor_comp. cbn [to_Q]. symmetry. apply Qopp_involutive.
    + apply truncate_floor.
Qed.

Lemma calc_ref_reads_spec (P : float) (t z : Z) :
  _calc_ref_reads P t = Some z ->
  exists x, product P t = Some x /\ is_finite x = true /\ z = integer_part x.
Proof.
  unfold _calc_ref_reads, product.
  destruct (of_int t) as [t'|]; cbn [Exc.bind]; [|discriminate].
  intros H. eexists. split; [reflexivity|]. now apply to_int_integer_part.
Qed.

Lemma kept_agrees (f : FormattedCnv) : kept f -> agrees f.
Proof. intros H. exact (calc_ref_reads_spec _ _ H). Qed.

Lemma format_one_spec (self : CnvFormatter) (c : string)
    (variants : list Variant.FormattedVariant) (cnv : CnvRegion) (f : FormattedCnv) :
  format_one self c variants cnv = Some f ->
  row_of c cnv f /\
  _calc_total_reads self (cellular_prevalence cnv) (start cnv) (end_ cnv)
    (major_cn cnv + minor_cn cnv) = Some (total_reads f) /\
  kept f.
Proof.
  unfold format_one, kept.
  destruct (_calc_total_reads self _ _ _ _) as [total|]; cbn [Exc.bind]; [|discriminate].
  destruct (_calc_ref_reads _ total) as [ref|] eqn:Er; cbn [Exc.bind]; [|discriminate].
  intros H. injection H as <-. cbn. repeat split. exact Er.
Qed.

Lemma insert_by_prev_Forall (Pr : FormattedCnv -> Prop) (x : FormattedCnv)
    (l : list FormattedCnv) :
  Pr x -> Forall Pr l -> Forall Pr (insert_by_prev x l).
Proof.
  intros Hx. induction 1 as [|y t Hy Ht IH]; cbn [insert_by_prev].
  - now repeat constructor.
  - destruct (leb _ _); repeat constructor; assumption.
Qed.

Lemma sort_by_prev_Forall (Pr : FormattedCnv -> Prop) (l : list FormattedCnv) :
  Forall Pr l -> Forall Pr (sort_by_prev l).
Proof.
  induction 1 as [|x t Hx _ IH]; cbn; [constructor|].
  now apply insert_by_prev_Forall.
Qed.

Lemma sort_by_prev_length (l : list FormattedCnv) :
  length (sort_by_prev l) = length l.
Proof.
  assert (Hi : forall x t, length (insert_by_prev x t) = S (length t)).
  { intros x t. induction t as [|y t IH]; cbn; [reflexivity|].
    destruct (leb _ _); cbn; [reflexivity | now rewrite IH]. }
  induction l as [|x t IH]; [reflexivity|].
  change (sort_by_prev (x :: t)) with (insert_by_prev x (sort_by_prev t)).
  rewrite Hi, IH. reflexivity.
Qed.

Lemma merge_step_kept (c : float) (st st' : list FormattedCnv * nat)
    (current : FormattedCnv) :
  merge_step c (Some st) current = Some st' ->
  Forall kept (fst st) -> kept current ->
  Forall kept (fst st') /\ fst st' <> [].
Proof.
  destruct st as [[|last before] n]; cbn [merge_step Exc.bind fst].
  - intros H _ Hc. injection H as <-. cbn. split; [now repeat constructor | discriminate].
  - intros H Hst Hc. inversion Hst as [|? ? Hl Hb]; subst.
    destruct (andb _ _).
    + unfold absorb in H.
      destruct (_calc_ref_reads (f_prevalence last) _) as [ref|] eqn:Er;
        cbn [Exc.bind] in H; [|discriminate].
      injection H as <-. cbn [fst]. split; [|discriminate].
      constructor; [exact Er | assumption].
    + injection H as <-. cbn [fst]. split; [|discriminate].
      now repeat constructor.
Qed.

Lemma fold_merge_kept (c : float) (l : list FormattedCnv) :
  Forall kept l ->
  forall st st',
    fold_left (merge_step c) l (Some st) = Some st' ->
    Forall kept (fst st) -> fst st <> [] ->
    Forall kept (fst st') /\ fst st' <> [].
Proof.
  induction 1 as [|x t Hx _ IH]; intros st st' H Hst Hne; cbn [fold_left] in H.
  - injection H as <-. now split.
  - destruct (merge_step c (Some st) x) as [st1|] eqn:E.
    + destruct (@merge_step_kept c st st1 x E Hst Hx) as [H1 H2]. now apply (IH st1 st').
    + exfalso. clear -H. induction t as [|y t IH]; cbn in H; [discriminate | auto].
Qed.

Lemma merge_sorted_kept (c : float) (l merged : list FormattedCnv) :
  merge_sorted c l = Some merged -> Forall kept l ->
  Forall kept merged /\ (l <> [] -> merged <> []).
Proof.
  destruct l as [|first rest]; cbn [merge_sorted].
  - intros H _. injection H as <-. split; [constructor | congruence].
  - intros H Hl. inversion Hl as [|? ? Hf Hr]; subst.
    destruct (fold_left _ rest _) as [st|] eqn:E; cbn [Exc.bind] in H; [|discriminate].
    injection H as <-.
    destruct (@fold_merge_kept c rest Hr _ st E) as [H1 H2]; cbn [fst];
      [now repeat constructor | discriminate |].
    split; [now apply Forall_rev|].
    intros _ Hnil. apply H2.
    apply (f_equal (@rev _)) in Hnil. now rewrite rev_involutive in Hnil.
Qed.

End Cnv64Facts.

(** ** Properties of the formatter in binary64 *)

Module Cnv64Theorems.
Import SpecFloat F64 Cnv64 Cnv64Spec Cnv64Facts Examples64.

(** C9 as stated fails: for the region 1-1114 of chromosome 1 with copy
    number 2 + 1 and prevalence 0.6, at read depth 50.0 and read length
    100, the formatter computes total_reads 90 and ref_reads 62, while
    floor((1 - P/2) * 90) is 63, both for P = 0.6 and for the double
    that stands for 0.6: the difference 1 - P/2 is rounded to the double
    below 0.7, and the product with 90 to a double below 63. *)
Lemma ref_reads_below_exact_floor :
  _format_cnvs ex_formatter ex_cnvs [] = Some [ex_row] /\
  f_prevalence ex_row = ex_prevalence /\
  total_reads ex_row = 90%Z /\
  ref_reads ex_row = 62%Z /\
  _calc_ref_reads ex_prevalence 90 = Some 62%Z /\
  Qfloor ((1 - (6 # 10) / 2) * inject_Z 90) = 63%Z /\
  Qfloor ((1 - to_Q ex_prevalence / 2) * inject_Z 90) = 63%Z /\
  ref_reads ex_row
  <> Qfloor ((1 - to_Q (f_prevalence ex_row) / 2) * inject_Z (total_reads ex_row)).
Proof.
  repeat split; try (vm_compute; reflexivity).
  vm_compute. discriminate.
Qed.

(** C9, as the code has it. The formatter yields one row for each CNV
    region, in the order of the regions, with the region's coordinates,
    copy numbers and prevalence P and with the total_reads that
    [_calc_total_reads] computes for it; the row's ref_reads, before the
    confidence scaling, is the integer part of (1 - P/2) * total_reads
    evaluated in binary64, the quotient, the difference and the product
    each rounded to the nearest double, and that product is finite. The
    same holds, with the row's own prevalence and total_reads, of every
    row the merge pass leaves, and the merge pass leaves a row when the
    formatter yields one. *)
Theorem ref_reads_is_rounded_product (self : CnvFormatter) (cnvs : region_map)
    (variants : list Variant.FormattedVariant) (formatted : list FormattedCnv) :
  _format_cnvs self cnvs variants = Some formatted ->
  Forall2
    (fun (cr : string * CnvRegion) (f : FormattedCnv) =>
       row_of (fst cr) (snd cr) f /\
       _calc_total_reads self (cellular_prevalence (snd cr)) (start (snd cr))
         (end_ (snd cr)) (major_cn (snd cr) + minor_cn (snd cr))
       = Some (total_reads f) /\
       agrees f)
    (region_pairs cnvs) formatted /\
  forall merged,
    merge_cnvs self cnvs variants = Some merged ->
    Forall agrees merged /\ (formatted <> [] -> merged <> []).
Proof.
  intros E.
  assert (H2 : Forall2
                 (fun (cr : string * CnvRegion) (f : FormattedCnv) =>
                    row_of (fst cr) (snd cr) f /\
                    _calc_total_reads self (cellular_prevalence (snd cr)) (start (snd cr))
                      (end_ (snd cr)) (major_cn (snd cr) + minor_cn (snd cr))
                    = Some (total_reads f) /\
                    kept f)
                 (region_pairs cnvs) formatted).
  { unfold _format_cnvs in E. apply ExcFacts.mapM_Forall2 in E.
    eapply Forall2_impl; [|exact E]. cbn beta. intros cr f Hf.
    exact (@format_one_spec self (fst cr) variants (snd cr) f Hf). }
  split.
  - eapply Forall2_impl; [|exact H2]. cbn beta. intros cr f (Hr & Ht & Hk).
    split; [assumption|]. split; [assumption|]. now apply kept_agrees.
  - intros merged Em. unfold merge_cnvs in Em. rewrite E in Em. cbn [Exc.bind] in Em.
    destruct (existsb _ formatted); [discriminate|].
    assert (Hk : Forall kept formatted).
    { clear -H2. induction H2 as [|cr f t t' (_ & _ & Hk) _ IH]; constructor; assumption. }
    destruct (@merge_sorted_kept (find_cellularity cnvs) (sort_by_prev formatted) merged Em)
      as [Hm Hne]; [now apply sort_by_prev_Forall|].
    split.
    + eapply Forall_impl; [|exact Hm]. intros f. apply kept_agrees.
    + intros Hf. apply Hne. intros Hs.
      apply (f_equal (@length _)) in Hs. rewrite sort_by_prev_length in Hs.
      destruct formatted; [congruence | discriminate].
Qed.

Lemma ref_reads_is_rounded_product_witness :
  _format_cnvs ex_formatter ex_cnvs [] = Some [ex_row] /\
  (Forall2
     (fun (cr : string * CnvRegion) (f : FormattedCnv) =>
        row_of (fst cr) (snd cr) f /\
        _calc_total_reads ex_formatter (cellular_prevalence (snd cr)) (start (snd cr))
          (end_ (snd cr)) (major_cn (snd cr) + minor_cn (snd cr))
        = Some (total_reads f) /\
        agrees f)
     (region_pairs ex_cnvs) [ex_row] /\
   forall merged,
     merge_cnvs ex_formatter ex_cnvs [] = Some merged ->
     Forall agrees merged /\ ([ex_row] <> [] -> merged <> [])).
Proof.
  assert (E : _format_cnvs ex_formatter ex_cnvs [] = Some [ex_row])
    by (vm_compute; reflexivity).
  split; [exact E|].
  exact (@ref_reads_is_rounded_product ex_formatter ex_cnvs [] [ex_row] E).
Defined.

End Cnv64Theorems.

(** ** The imputation in binary64 *)

Module Impute64Facts.
Import SpecFloat Impute F64 F64Facts Impute64 Impute64Spec.

Lemma floor_int_spec (x : float) (z : Z) :
  floor_int x = Some z -> is_finite x = true /\ z = Qfloor (to_Q x).
Proof.
  unfold floor_int. destruct (floor x) as [y|] eqn:E; cbn [Exc.bind]; [|discriminate].
  unfold int64. destruct (andb _ _); [|discriminate].
  intros H. injection H as <-. now apply floor_Qfloor.
Qed.

(** A cell of an array converted cell by cell. *)
Lemma mapM_cell {A B : Type} (f : A -> option B) (a : list (list A))
    (b : list (list B)) (i j : nat) (ra : list A) (x : A) :
  Exc.mapM (Exc.mapM f) a = Some b ->
  nth_error a i = Some ra -> nth_error ra j = Some x ->
  exists rb y, nth_error b i = Some rb /\ nth_error rb j = Some y /\ f x = Some y.
Proof.
  intros H Hi Hj. apply ExcFacts.mapM_Forall2 in H.
  destruct (ImputeFacts.Forall2_nth_error H _ Hi) as (rb & Hrb & Hrow).
  apply ExcFacts.mapM_Forall2 in Hrow.
  destruct (ImputeFacts.Forall2_nth_error Hrow _ Hj) as (y & Hy & Hf).
  now exists rb, y.
Qed.

Section Gmean.
Variable gmean : list float -> float.

(** The steps of [impute_missing_total_reads] when it returns. *)
Lemma impute_unfold (m : matrix float) (conf : float) (res : matrix Z) :
  impute_missing_total_reads gmean m conf = Some res ->
  exists sm vm new_rows,
    sample_means_of gmean m = Some sm /\
    Exc.mapM (masked_gmean gmean) (normalize sm m) = Some vm /\
    Exc.mapM (Exc.mapM floor_int)
      (zip_with (zip_with (scale_missing conf)) (rows m)
         (zip_with (zip_with fill) (rows m)
            (map (fun v => map (fun s => mul v s) sm) vm)))
    = Some new_rows /\
    res = mkMatrix (n_samples m) new_rows.
Proof.
  unfold impute_missing_total_reads. intros H.
  destruct (negb (forallb (forallb count_or_missing) (rows m))); [discriminate|].
  destruct (sample_means_of gmean m) as [sm|]; cbn [Exc.bind] in H; [|discriminate].
  unfold assert_positive in H at 1.
  destruct (forallb positive sm); cbn [Exc.bind] in H; [|discriminate].
  destruct (existsb _ sm); [discriminate|].
  destruct (negb (forallb (forallb count_or_missing) (normalize sm m))); [discriminate|].
  destruct (Exc.mapM (masked_gmean gmean) (normalize sm m)) as [vm|] eqn:Ev;
    cbn [Exc.bind] in H; [|discriminate].
  unfold assert_positive in H.
  destruct (forallb positive vm); cbn [Exc.bind] in H; [|discriminate].
  unfold assert_all_positive in H.
  destruct (forallb (forallb positive) _); cbn [Exc.bind] in H; [|discriminate].
  destruct (Exc.mapM (Exc.mapM floor_int) _) as [new_rows|] eqn:En;
    cbn [Exc.bind] in H; [|discriminate].
  injection H as <-. exists sm, vm, new_rows.
  split; [reflexivity|]. split; [exact Ev|]. split; [exact En | reflexivity].
Qed.

(** The sample means are the samples' geometric means. *)
Lemma sample_means_are_gmeans (m : matrix float) (sm : list float) :
  sample_means_of gmean m = Some sm ->
  length sm = n_samples m /\
  forall j s, nth_error sm j = Some s -> sample_mean gmean m j = Some s.
Proof.
  unfold sample_means_of. intros H. apply ExcFacts.mapM_Forall2 in H.
  assert (Hlen : length sm = n_samples m).
  { rewrite <- (Forall2_length H). apply length_seq. }
  split; [assumption|]. intros j s Hs.
  assert (Hj : (j < n_samples m)%nat)
    by (rewrite <- Hlen; apply nth_error_Some; congruence).
  assert (Hn : nth_error (seq 0 (n_samples m)) j = Some j).
  { rewrite nth_error_seq. apply Nat.ltb_lt in Hj. now rewrite Hj. }
  destruct (ImputeFacts.Forall2_nth_error H _ Hn) as (s' & Hs' & E).
  rewrite Hs in Hs'. injection Hs' as <-. exact E.
Qed.

(** The variant means are the variants' geometric-mean enrichments. *)
Lemma variant_means_spec (m : matrix float) (sm vm : list float) :
  sample_means_of gmean m = Some sm ->
  Exc.mapM (masked_gmean gmean) (normalize sm m) = Some vm ->
  forall i r, nth_error (rows m) i = Some r ->
    exists v, nth_error vm i = Some v /\ variant_mean gmean m r = Some v.
Proof.
  intros Esm H i r Hr. apply ExcFacts.mapM_Forall2 in H.
  assert (Hn : nth_error (normalize sm m) i
               = Some (zip_with (fun x s => mul x (div one s)) r sm)).
  { unfold normalize. rewrite nth_error_map, Hr. reflexivity. }
  destruct (ImputeFacts.Forall2_nth_error H _ Hn) as (v & Hv & E).
  exists v. split; [assumption|].
  unfold variant_mean, enrichment. rewrite Esm. exact E.
Qed.

(** A cell of the array that is floored at the end. *)
Lemma floored_cell (conf : float) (rws : list (list float)) (sm vm : list float)
    (i j : nat) (r : list float) (x v s : float) :
  nth_error rws i = Some r -> nth_error r j = Some x ->
  nth_error vm i = Some v -> nth_error sm j = Some s ->
  exists row,
    nth_error
      (zip_with (zip_with (scale_missing conf)) rws
         (zip_with (zip_with fill) rws
            (map (fun v => map (fun s => mul v s) sm) vm))) i = Some row /\
    nth_error row j = Some (scale_missing conf x (fill x (mul v s))).
Proof.
  intros Hr Hx Hv Hs.
  eexists. split.
  - rewrite ImputeFacts.nth_error_zip_with, Hr.
    rewrite ImputeFacts.nth_error_zip_with, Hr.
    rewrite nth_error_map, Hv. reflexivity.
  - rewrite ImputeFacts.nth_error_zip_with, Hx.
    rewrite ImputeFacts.nth_error_zip_with, Hx.
    rewrite nth_error_map, Hs. reflexivity.
Qed.

(** What [impute_missing_total_reads] returns, cell by cell. *)
Lemma impute_cells (m : matrix float) (conf : float) (res : matrix Z) :
  wf_matrix m -> impute_missing_total_reads gmean m conf = Some res ->
  forall i j r x,
    nth_error (rows m) i = Some r -> nth_error r j = Some x ->
    exists v s z,
      variant_mean gmean m r = Some v /\ sample_mean gmean m j = Some s /\
      floor_int (scale_missing conf x (fill x (mul v s))) = Some z /\
      cell_at res i j = Some z.
Proof.
  intros Hwf H i j r x Hr Hx.
  destruct (impute_unfold _ _ H) as (sm & vm & new_rows & Esm & Evm & En & ->).
  destruct (sample_means_are_gmeans _ Esm) as [Hlen Hsm].
  destruct (variant_means_spec _ Esm Evm _ Hr) as (v & Hv & Evar).
  assert (Hj : (j < length sm)%nat).
  { rewrite Hlen. unfold wf_matrix in Hwf. rewrite Forall_forall in Hwf.
    rewrite <- (Hwf r (nth_error_In _ _ Hr)). apply nth_error_Some. congruence. }
  destruct (nth_error sm j) as [s|] eqn:Es; [|apply nth_error_None in Es; lia].
  destruct (@floored_cell conf (rows m) sm vm i j r x v s Hr Hx Hv Es) as (row & Hrow & Hcell).
  destruct (@mapM_cell _ _ floor_int _ _ i j _ _ En Hrow Hcell)
    as (rb & z & Hrb & Hz & Hf).
  exists v, s, z. split; [assumption|]. split; [now apply Hsm|]. split; [assumption|].
  unfold cell_at. cbn [rows]. now rewrite Hrb.
Qed.

End Gmean.

End Impute64Facts.

(** ** Properties of the imputation in binary64 *)

Module Impute64Theorems.
Import SpecFloat Impute F64 Impute64 Impute64Spec Impute64Facts Examples64.

(** In exact arithmetic the geometric mean of a vector whose observed
    entries all equal [x] is [x]. *)
Lemma exact_gmean_of_equal (x : R) (xs : list Impute.cell) :
  (0 < x)%R -> Impute.observed xs <> [] ->
  Forall (fun y => y = x) (Impute.observed xs) ->
  Impute.gmean xs = Some x.
Proof.
  intros Hx Hne Hall. unfold Impute.gmean.
  destruct (Impute.observed xs) as [|y t] eqn:E; [congruence|].
  assert (Hpos : forallb Impute.Rpos_b (y :: t) = true).
  { apply ImputeFacts.forallb_Rpos. eapply Forall_impl; [|exact Hall].
    intros a ->. exact Hx. }
  rewrite Hpos. f_equal.
  assert (Hsum : forall l, Forall (fun y => y = x) l ->
                   Impute.sum_ln l = (INR (length l) * ln x)%R).
  { induction 1 as [|a l -> _ IH].
    - cbn. lra.
    - change (Impute.sum_ln (x :: l)) with (ln x + Impute.sum_ln l)%R.
      cbn [length]. rewrite S_INR, IH. lra. }
  rewrite (Hsum _ Hall).
  assert (Hn : INR (length (y :: t)) <> 0%R) by (apply not_0_INR; discriminate).
  replace (INR (length (y :: t)) * ln x / INR (length (y :: t)))%R with (ln x)
    by (field; exact Hn).
  now apply exp_ln.
Qed.

(** With exact numbers, the missing cell of [[3, nan], [3, 3]] is
    imputed as 3 at confidence 1: both sample means are 3, the
    enrichment 3/3 has the mean 1, and 1 * 3 * 1 = 3. *)
Lemma exact_threes :
  exists exact,
    Impute.impute_missing_total_reads ex_threes_exact 1 = Some exact /\
    cell_at exact 0 1 = Some 3%Z.
Proof.
  assert (Hwf : wf_matrix ex_threes_exact) by (repeat constructor).
  assert (Himp : ImputeSpec.imputable ex_threes_exact).
  { split; [|split].
    - intros [|[|j]] Hj; [exists 0%nat, 3%R | exists 1%nat, 3%R | cbn in Hj; lia];
        reflexivity.
    - intros [|[|i]] r Hr; cbn in Hr; try (destruct i; discriminate);
        injection Hr as <-; exists 0%nat, 3%R; reflexivity.
    - intros i j x H.
      destruct i as [|[|i]]; [| |destruct i; discriminate];
        (destruct j as [|[|j]]; [| |destruct j; discriminate]);
        cbn in H; try discriminate; injection H as <-; lra. }
  destruct (@ImputeFacts.impute_total_defined ex_threes_exact 1 Hwf Himp) as [exact E].
  exists exact. split; [exact E|].
  destruct (@ImputeFacts.impute_total_cells ex_threes_exact 1 exact Hwf E) as [_ Hcells].
  destruct (Hcells 0%nat 1%nat [Some 3%R; None] None eq_refl eq_refl)
    as (v & s & Hv & Hs & _ & _ & _ & Hc).
  rewrite Hc. cbn [Impute.scale_missing Impute.fill].
  assert (H3 : (0 < 3)%R) by lra.
  assert (Es : s = 3%R).
  { unfold ImputeSpec.sample_mean in Hs.
    rewrite (@exact_gmean_of_equal 3 (Impute.column 1 ex_threes_exact) H3) in Hs.
    - now injection Hs.
    - cbn. discriminate.
    - cbn. repeat constructor. }
  assert (E0 : Impute.sample_means_of ex_threes_exact = [Some 3%R; Some 3%R]).
  { unfold Impute.sample_means_of. cbn [n_samples ex_threes_exact seq map].
    rewrite (@exact_gmean_of_equal 3 (Impute.column 0 ex_threes_exact) H3);
      [|cbn; discriminate | cbn; repeat constructor].
    rewrite (@exact_gmean_of_equal 3 (Impute.column 1 ex_threes_exact) H3);
      [|cbn; discriminate | cbn; repeat constructor].
    reflexivity. }
  assert (Ev : v = 1%R).
  { unfold ImputeSpec.variant_mean, ImputeSpec.enrichment in Hv. rewrite E0 in Hv.
    cbn [zip_with] in Hv.
    rewrite (@exact_gmean_of_equal 1 [Some (3 * (1 / 3))%R; None]) in Hv.
    - now injection Hv.
    - lra.
    - cbn. discriminate.
    - cbn. repeat constructor. field. }
  subst. f_equal. replace (1 * 3 * 1)%R with (IZR 3) by lra.
  apply ImputeFacts.Int_part_IZR.
Qed.

(** C4 as stated fails: for the total_reads matrix [[3, nan], [3, 3]]
    and the confidence factor 1, the variant's geometric-mean
    enrichment is 1 and the sample's geometric mean is 3, so that the
    claim gives floor(1 * 3 * 1) = 3 for the missing cell; the code
    returns 2 there, because [gmean] returns 3.0000000000000004 for the
    samples and 0.9999999999999998 for the variant, and the product of
    these two doubles is rounded to 2.9999999999999996. *)
Lemma imputed_cell_below_exact_floor :
  cell_at ex_threes 0 1 = Some S754_nan /\
  sample_mean ex_gmean ex_threes 1 = Some three_up /\
  variant_mean ex_gmean ex_threes [three; S754_nan] = Some below_one /\
  (exists res,
     impute_missing_total_reads ex_gmean ex_threes one = Some res /\
     cell_at res 0 1 = Some 2%Z) /\
  (exists exact,
     Impute.impute_missing_total_reads ex_threes_exact 1 = Some exact /\
     cell_at exact 0 1 = Some 3%Z).
Proof.
  split; [reflexivity|]. split; [vm_compute; reflexivity|].
  split; [vm_compute; reflexivity|]. split; [|exact exact_threes].
  eexists. split; vm_compute; reflexivity.
Qed.

(** C4, as the code has it. When [impute_missing_total_reads] returns,
    every cell whose total_reads is missing holds the floor of the
    double obtained from the variant's geometric-mean depth enrichment
    across samples [v] and the sample's geometric-mean total read depth
    [s], as [gmean] returns them, by the product [v * s] and the product
    with the confidence factor, each rounded to the nearest double; the
    enrichment of a count is the count times the inverse of the
    sample's geometric mean, both rounded. A cell that was not missing
    holds its observed value, floored to an integer. *)
Theorem missing_total_is_rounded_product (gmean : list float -> float)
    (m : matrix float) (conf : float) (res : matrix Z) :
  wf_matrix m ->
  impute_missing_total_reads gmean m conf = Some res ->
  forall i j r x,
    nth_error (rows m) i = Some r -> nth_error r j = Some x ->
    if is_nan x then
      exists v s,
        variant_mean gmean m r = Some v /\ sample_mean gmean m j = Some s /\
        is_finite (scaled_product v s conf) = true /\
        cell_at res i j = Some (Qfloor (to_Q (scaled_product v s conf)))
    else
      is_finite x = true /\ cell_at res i j = Some (Qfloor (to_Q x)).
Proof.
  intros Hwf H i j r x Hr Hx.
  destruct (@impute_cells gmean m conf res Hwf H i j r x Hr Hx)
    as (v & s & z & Hv & Hs & Hf & Hc).
  apply floor_int_spec in Hf. destruct Hf as [Hfin ->].
  unfold scale_missing, fill in Hfin, Hc.
  destruct (is_nan x).
  - exists v, s. repeat split; assumption.
  - split; assumption.
Qed.

Lemma missing_total_is_rounded_product_witness :
  wf_matrix ex_threes /\
  impute_missing_total_reads ex_gmean ex_threes one
  = Some (mkMatrix 2 [[3; 2]; [3; 3]]%Z) /\
  (exists v s,
     variant_mean ex_gmean ex_threes [three; S754_nan] = Some v /\
     sample_mean ex_gmean ex_threes 1 = Some s /\
     is_finite (scaled_product v s one) = true /\
     cell_at (mkMatrix 2 [[3; 2]; [3; 3]]%Z) 0 1
     = Some (Qfloor (to_Q (scaled_product v s one)))) /\
  is_finite three = true /\
  cell_at (mkMatrix 2 [[3; 2]; [3; 3]]%Z) 1 1 = Some (Qfloor (to_Q three)).
Proof.
  assert (Hwf : wf_matrix ex_threes) by (repeat constructor).
  assert (E : impute_missing_total_reads ex_gmean ex_threes one
              = Some (mkMatrix 2 [[3; 2]; [3; 3]]%Z)) by (vm_compute; reflexivity).
  split; [exact Hwf|]. split; [exact E|]. split.
  - exact (@missing_total_is_rounded_product ex_gmean ex_threes one _ Hwf E
             0%nat 1%nat [three; S754_nan] S754_nan eq_refl eq_refl).
  - exact (@missing_total_is_rounded_product ex_gmean ex_threes one _ Hwf E
             1%nat 1%nat [three; three] three eq_refl eq_refl).
Defined.

End Impute64Theorems.
